(** * Deadman's Tip: the game-state engine of [src/index.ts]

    A shallow embedding of the per-channel game state machine (enrollment by
    tip, start, shoot, pass, status query) and of the registry [games] that
    holds one [GameState] per channel, followed by the properties of the
    specification that are settled against it.

    Conventions of the embedding:
    - a JS [bigint] ([potBalance], tip amounts) is a [Z];
    - the JS number [currentTurnIndex] is a [Z]; [%] is the truncated
      remainder [Z.rem];
    - [null] and [undefined] are both [None] (the code only tests them with
      [!x] or [if (x)]);
    - [Map<string, _>] is a [gmap string _];
    - a handler is a function from the bot state to the new bot state and the
      list of messages it sends, in order;
    - [Math.random() < 0.5] is the boolean argument [isDead] of [onShoot];
    - each handler runs to completion before the next event is handled. *)

From Stdlib Require Import ZArith Ascii String List Lia.
From stdpp Require Import gmap strings list fin_maps.

Local Open Scope string_scope.
Local Open Scope nat_scope.

(** ** Strings *)

(** [String.prototype.toLowerCase] on the identifiers the bot handles (user
    ids, account addresses: ASCII text): the letters 'A'..'Z' are mapped to
    'a'..'z', every other character is kept. *)
Definition lower_ascii (c : ascii) : ascii :=
  let n := nat_of_ascii c in
  if (65 <=? n) && (n <=? 90) then ascii_of_nat (n + 32) else c.

Fixpoint toLowerCase (s : string) : string :=
  match s with
  | EmptyString => EmptyString
  | String c s' => String (lower_ascii c) (toLowerCase s')
  end.

(** JS truthiness of a value of type [string | null], as tested by
    [if (winner)]: [null] and the empty string are falsy. *)
Definition truthy (v : option string) : bool :=
  match v with
  | Some s => negb (bool_decide (s = ""))
  | None => false
  end.

(** [arr[i]] for an integral index: [undefined] out of range. *)
Definition js_index {A : Type} (arr : list A) (i : Z) : option A :=
  if (i <? 0)%Z then None else arr !! Z.to_nat i.

(** ** Game state types *)

(** ['shoot' | 'pass'], the non-null values of [lastAction]. *)
Inductive Action : Type := shoot | pass.

Record Player : Type := mkPlayer {
  userId : string;
  smartAccountAddress : string;
  alive : bool;
  lastAction : option Action
}.

Inductive Status : Type := waiting | active | finished.

Record GameState : Type := mkGame {
  players : list Player;
  potBalance : Z;
  currentTurnIndex : Z;
  status : Status;
  winner : option string
}.

#[global] Instance Action_eq_dec : EqDecision Action.
Proof. solve_decision. Defined.
#[global] Instance Status_eq_dec : EqDecision Status.
Proof. solve_decision. Defined.
#[global] Instance Player_eq_dec : EqDecision Player.
Proof. solve_decision. Defined.
#[global] Instance GameState_eq_dec : EqDecision GameState.
Proof. solve_decision. Defined.

(** The bot: its own id and the two module-level maps. *)
Record Bot : Type := mkBot {
  botId : string;
  games : gmap string GameState;
  eligiblePlayers : gmap string (string * string)
}.

(** [parseEther('0.0005')], [parseEther('0.001')] and [parseEther('0.0001')],
    in wei. *)
Definition PASS_BURN : Z := 500000000000000.
Definition GRIT_BONUS : Z := 1000000000000000.
Definition MIN_TIP : Z := 100000000000000.

(** ** Field updates

    A [Player] object lives in exactly one slot of [game.players]: the array
    only receives fresh object literals ([push] in [onTip]) and no handler
    removes or reorders slots.  A reference to a player object is therefore
    its slot, and an assignment through the reference rewrites that slot. *)

Definition with_lastAction (a : option Action) (p : Player) : Player :=
  mkPlayer (userId p) (smartAccountAddress p) (alive p) a.

Definition with_alive (b : bool) (p : Player) : Player :=
  mkPlayer (userId p) (smartAccountAddress p) b (lastAction p).

Definition with_players (ps : list Player) (g : GameState) : GameState :=
  mkGame ps (potBalance g) (currentTurnIndex g) (status g) (winner g).

Definition with_potBalance (b : Z) (g : GameState) : GameState :=
  mkGame (players g) b (currentTurnIndex g) (status g) (winner g).

Definition with_currentTurnIndex (i : Z) (g : GameState) : GameState :=
  mkGame (players g) (potBalance g) i (status g) (winner g).

Definition with_status (s : Status) (g : GameState) : GameState :=
  mkGame (players g) (potBalance g) (currentTurnIndex g) s (winner g).

Definition with_winner (w : option string) (g : GameState) : GameState :=
  mkGame (players g) (potBalance g) (currentTurnIndex g) (status g) w.

Definition with_games (m : gmap string GameState) (b : Bot) : Bot :=
  mkBot (botId b) m (eligiblePlayers b).

Definition with_eligiblePlayers (m : gmap string (string * string)) (b : Bot) : Bot :=
  mkBot (botId b) (games b) m.

(** [ref.lastAction = a] and [ref.alive = b] for the player object in slot
    [ref]. *)
Definition setLastAction (ref : nat) (a : option Action) (g : GameState) : GameState :=
  with_players (alter (with_lastAction a) ref (players g)) g.

Definition setAlive (ref : nat) (b : bool) (g : GameState) : GameState :=
  with_players (alter (with_alive b) ref (players g)) g.

(** ** Helpers of the source *)

(** [game.players.filter(p => p.alive)]: the array of references to the alive
    player objects, each given as the slot of the object together with its
    fields at the time of the call. *)
Definition getAlivePlayers (game : GameState) : list (nat * Player) :=
  List.filter (fun rp => alive (snd rp)) (imap pair (players game)).

Definition getCurrentPlayer (game : GameState) : option (nat * Player) :=
  let alive := getAlivePlayers game in
  if length alive =? 0 then None
  else
    let index := Z.rem (currentTurnIndex game) (Z.of_nat (length alive)) in
    js_index alive index.

(** [alive.findIndex(p => p.userId === userId)], [-1] when absent. *)
Fixpoint findIndex {A : Type} (f : A -> bool) (arr : list A) : Z :=
  match arr with
  | [] => (-1)%Z
  | x :: arr' =>
      if f x then 0%Z
      else let i := findIndex f arr' in if (i <? 0)%Z then (-1)%Z else (i + 1)%Z
  end.

Definition getAlivePlayerIndex (game : GameState) (uid : string) : Z :=
  let alive := getAlivePlayers game in
  findIndex (fun rp => bool_decide (userId (snd rp) = uid)) alive.

Definition checkForcedShoot (game : GameState) : bool :=
  let alive := getAlivePlayers game in
  if length alive <? 2 then false
  else
    let allPassed := forallb (fun rp => bool_decide (lastAction (snd rp) = Some pass)) alive in
    allPassed.

Definition advanceTurn (game : GameState) : GameState :=
  let alive := getAlivePlayers game in
  if 0 <? length alive then
    with_currentTurnIndex
      (Z.rem (currentTurnIndex game + 1) (Z.of_nat (length alive))) game
  else game.

Definition checkWinCondition (game : GameState) : option string :=
  let alive := getAlivePlayers game in
  if length alive =? 1 then option_map (fun rp => userId (snd rp)) (alive !! 0)
  else None.

(** [getAlivePlayers(game).forEach(p => p.lastAction = null)]. *)
Definition resetAliveLastAction (game : GameState) : GameState :=
  foldl (fun g rp => setLastAction (fst rp) None g) game (getAlivePlayers game).

(** ** Messages

    One constructor per [handler.sendMessage] call of the source, carrying
    the values interpolated into its text.  [ThrowTypeError] is the
    exception raised by reading a property of [null]. *)
Inductive Reply : Type :=
  | MsgGameAlready (s : Status)                       (* onTip: game not accepting players *)
  | MsgAlreadyJoined (uid : string)                   (* onTip: duplicate *)
  | MsgJoined (uid : string) (amount : Z) (count : nat) (pot : Z)
  | MsgHowToJoin                                      (* /join-game *)
  | MsgNoGameInProgress                               (* /start-game: no game *)
  | MsgAlreadyStatus (s : Status)                     (* /start-game: wrong status *)
  | MsgNeedPlayers (count : nat)                      (* /start-game: fewer than 2 *)
  | MsgGameStarted (snapshot : GameState) (current : string)
  | MsgNoActiveGame                                   (* /shoot, /pass *)
  | MsgGameError                                      (* /shoot, /pass: no current player *)
  | MsgNotYourTurn (current : string)
  | MsgAlreadyEliminated
  | MsgBang (uid : string) (aliveCount : nat) (pot : Z)
  | MsgGameOver (win : string) (snapshot : GameState)
  | MsgYourTurn (next : string)
  | MsgClick (uid : string) (pot : Z)
  | MsgMustShoot
  | MsgPassed (uid : string) (burn : Z) (pot : Z)
  | MsgEveryoneChickenedOut (next : string)
  | MsgStatusNoGame                                   (* /game-status: no game *)
  | MsgStatus (snapshot : GameState)
  | MsgHelp
  | ThrowTypeError.

(** The messages by which a handler refuses an event. *)
Definition is_rejection (r : Reply) : bool :=
  match r with
  | MsgGameAlready _ | MsgAlreadyJoined _ | MsgNoGameInProgress
  | MsgAlreadyStatus _ | MsgNeedPlayers _ | MsgNoActiveGame | MsgGameError
  | MsgNotYourTurn _ | MsgAlreadyEliminated | MsgMustShoot => true
  | _ => false
  end.

(** A handler run is rejected when the first thing it sends is a refusal. *)
Definition rejected (out : list Reply) : bool :=
  match out with
  | r :: _ => is_rejection r
  | [] => false
  end.

(** ** Handlers *)

Record TipEvent : Type := mkTip {
  receiverAddress : string;
  tipChannelId : string;
  senderAddress : string;
  tipUserId : string;
  amount : Z
}.

(** The object literal stored by [onTip] when the channel has no game. *)
Definition newGame : GameState := mkGame [] 0%Z 0%Z waiting None.

(** The predicate of [game.players.find] in [onTip]. *)
Definition alreadyJoined (addressLower uid : string) (p : Player) : bool :=
  bool_decide (toLowerCase (smartAccountAddress p) = addressLower)
  || bool_decide (userId p = uid).

Definition onTip (event : TipEvent) (bot : Bot) : Bot * list Reply :=
  if negb (bool_decide (toLowerCase (receiverAddress event) = toLowerCase (botId bot)))
  then (bot, [])
  else
    let channelId := tipChannelId event in
    let '(game, bot) :=
      match games bot !! channelId with
      | Some game => (game, bot)
      | None => (newGame, with_games (<[channelId := newGame]> (games bot)) bot)
      end in
    if negb (bool_decide (status game = waiting))
    then (bot, [MsgGameAlready (status game)])
    else
      let smartAccountAddress := toLowerCase (senderAddress event) in
      let bot :=
        with_eligiblePlayers
          (<[smartAccountAddress := (tipUserId event, channelId)]> (eligiblePlayers bot))
          bot in
      let existingPlayer :=
        List.find (alreadyJoined smartAccountAddress (tipUserId event)) (players game) in
      match existingPlayer with
      | Some _ => (bot, [MsgAlreadyJoined (tipUserId event)])
      | None =>
          let game :=
            with_players
              (players game ++ [mkPlayer (tipUserId event) (senderAddress event) true None])
              game in
          let game := with_potBalance (potBalance game + amount event) game in
          (with_games (<[channelId := game]> (games bot)) bot,
           [MsgJoined (tipUserId event) (amount event) (length (players game))
              (potBalance game)])
      end.

Definition onJoinGame (channelId uid : string) (bot : Bot) : Bot * list Reply :=
  (bot, [MsgHowToJoin]).

Definition onStartGame (channelId uid : string) (bot : Bot) : Bot * list Reply :=
  match games bot !! channelId with
  | None => (bot, [MsgNoGameInProgress])
  | Some game =>
      if negb (bool_decide (status game = waiting))
      then (bot, [MsgAlreadyStatus (status game)])
      else if length (players game) <? 2
      then (bot, [MsgNeedPlayers (length (players game))])
      else
        let game := with_status active game in
        let game := with_currentTurnIndex 0%Z game in
        let bot := with_games (<[channelId := game]> (games bot)) bot in
        match getCurrentPlayer game with
        | Some (_, currentPlayer) => (bot, [MsgGameStarted game (userId currentPlayer)])
        | None => (bot, [ThrowTypeError])
        end
  end.

(** The message that announces the next player, sent only when
    [getCurrentPlayer] finds one. *)
Definition announceNext (game : GameState) : list Reply :=
  match getCurrentPlayer game with
  | Some (_, nextPlayer) => [MsgYourTurn (userId nextPlayer)]
  | None => []
  end.

(** The body of the [/shoot] handler once the game has been found active.
    It returns the game object as the handler leaves it, whether
    [games.delete(channelId)] was executed, and the messages sent. *)
Definition shootActive (uid : string) (isDead : bool) (game : GameState)
  : GameState * bool * list Reply :=
  match getCurrentPlayer game with
  | None => (game, false, [MsgGameError])
  | Some (ref, currentPlayer) =>
      if negb (bool_decide (toLowerCase (userId currentPlayer) = toLowerCase uid))
      then (game, false, [MsgNotYourTurn (userId currentPlayer)])
      else if negb (alive currentPlayer)
      then (game, false, [MsgAlreadyEliminated])
      else
        let game := setLastAction ref (Some shoot) game in
        let game := resetAliveLastAction game in
        if isDead then
          let game := setAlive ref false game in
          let aliveCount := length (getAlivePlayers game) in
          let bang := MsgBang uid aliveCount (potBalance game) in
          let winner := checkWinCondition game in
          if truthy winner then
            let game := with_status finished game in
            let game := with_winner winner game in
            (game, true, [bang; MsgGameOver (default "" winner) game])
          else
            let game := advanceTurn game in
            (game, false, bang :: announceNext game)
        else
          let game := with_potBalance (potBalance game + GRIT_BONUS) game in
          let click := MsgClick uid (potBalance game) in
          let game := advanceTurn game in
          (game, false, click :: announceNext game)
  end.

Definition onShoot (channelId uid : string) (isDead : bool) (bot : Bot)
  : Bot * list Reply :=
  match games bot !! channelId with
  | None => (bot, [MsgNoActiveGame])
  | Some game =>
      if negb (bool_decide (status game = active))
      then (bot, [MsgNoActiveGame])
      else
        let '(game, deleted, out) := shootActive uid isDead game in
        let store :=
          if deleted : bool then delete channelId (games bot)
          else <[channelId := game]> (games bot) in
        (with_games store bot, out)
  end.

(** [alive.filter(p => p.userId !== userId)] of the [/pass] handler. *)
Definition otherPlayers (uid : string) (game : GameState) : list (nat * Player) :=
  List.filter (fun rp => negb (bool_decide (userId (snd rp) = uid)))
    (getAlivePlayers game).

Definition allOthersPassed (uid : string) (game : GameState) : bool :=
  let others := otherPlayers uid game in
  (0 <? length others)
  && forallb (fun rp => bool_decide (lastAction (snd rp) = Some pass)) others.

(** The body of the [/pass] handler once the game has been found active. *)
Definition passActive (uid : string) (game : GameState) : GameState * list Reply :=
  match getCurrentPlayer game with
  | None => (game, [MsgGameError])
  | Some (ref, currentPlayer) =>
      if negb (bool_decide (toLowerCase (userId currentPlayer) = toLowerCase uid))
      then (game, [MsgNotYourTurn (userId currentPlayer)])
      else if negb (alive currentPlayer)
      then (game, [MsgAlreadyEliminated])
      else if allOthersPassed uid game
      then (game, [MsgMustShoot])
      else
        let game := setLastAction ref (Some pass) game in
        let burnAmount :=
          if (PASS_BURN <=? potBalance game)%Z then PASS_BURN else potBalance game in
        let game := with_potBalance (potBalance game - burnAmount) game in
        let passed := MsgPassed uid burnAmount (potBalance game) in
        let game := advanceTurn game in
        let allJustPassed := checkForcedShoot game in
        match getCurrentPlayer game with
        | Some (_, nextPlayer) =>
            if allJustPassed then
              let game := resetAliveLastAction game in
              (game, [passed; MsgEveryoneChickenedOut (userId nextPlayer)])
            else (game, [passed; MsgYourTurn (userId nextPlayer)])
        | None => (game, [passed])
        end
  end.

Definition onPass (channelId uid : string) (bot : Bot) : Bot * list Reply :=
  match games bot !! channelId with
  | None => (bot, [MsgNoActiveGame])
  | Some game =>
      if negb (bool_decide (status game = active))
      then (bot, [MsgNoActiveGame])
      else
        let '(game, out) := passActive uid game in
        (with_games (<[channelId := game]> (games bot)) bot, out)
  end.

Definition onGameStatus (channelId : string) (bot : Bot) : Bot * list Reply :=
  match games bot !! channelId with
  | None => (bot, [MsgStatusNoGame])
  | Some game => (bot, [MsgStatus game])
  end.

Definition onHelp (channelId : string) (bot : Bot) : Bot * list Reply :=
  (bot, [MsgHelp]).

(** ** Event traces *)

Inductive Event : Type :=
  | EvTip (event : TipEvent)
  | EvJoinGame (channelId uid : string)
  | EvStartGame (channelId uid : string)
  | EvShoot (channelId uid : string) (isDead : bool)
  | EvPass (channelId uid : string)
  | EvGameStatus (channelId : string)
  | EvHelp (channelId : string).

Definition handle (ev : Event) (bot : Bot) : Bot * list Reply :=
  match ev with
  | EvTip event => onTip event bot
  | EvJoinGame c u => onJoinGame c u bot
  | EvStartGame c u => onStartGame c u bot
  | EvShoot c u d => onShoot c u d bot
  | EvPass c u => onPass c u bot
  | EvGameStatus c => onGameStatus c bot
  | EvHelp c => onHelp c bot
  end.

(** The bot state after a sequence of events, oldest first. *)
Definition run (evs : list Event) (bot : Bot) : Bot :=
  foldl (fun b ev => fst (handle ev b)) bot evs.

(** The bot as the module leaves it at load time. *)
Definition initialBot (id : string) : Bot := mkBot id ∅ ∅.

(** ** Derived notions used by the statements *)

(** What the [forEach] of [resetAliveLastAction] does to the array. *)
Definition resetAll (ps : list Player) : list Player :=
  (fun p => if alive p then with_lastAction None p else p) <$> ps.

(** Two account addresses denote the same account when they agree up to the
    case of their hexadecimal digits. *)
Definition sameAddress (a b : string) : Prop := toLowerCase a = toLowerCase b.

(** The game the deposit is applied to: the channel's game, or the fresh one
    [onTip] stores when there is none. *)
Definition resolveOrCreate (channelId : string) (bot : Bot) : GameState :=
  default newGame (games bot !! channelId).

(** The enrolled game: the new player appended, the amount added. *)
Definition enroll (event : TipEvent) (game : GameState) : GameState :=
  mkGame
    (players game ++ [mkPlayer (tipUserId event) (senderAddress event) true None])
    (potBalance game + amount event) (currentTurnIndex game) (status game)
    (winner game).

(** The game once the trigger has been pulled: [lastAction] written, then
    the rotation reset. *)
Definition shot (ref : nat) (game : GameState) : GameState :=
  resetAliveLastAction (setLastAction ref (Some shoot) game).

(** The game once the acting player has been eliminated. *)
Definition eliminated (ref : nat) (game : GameState) : GameState :=
  setAlive ref false (shot ref game).

(** The result of an accepted [/shoot], branch by branch. *)
Definition shootAccepted (ref : nat) (uid : string) (isDead : bool) (game : GameState)
  : GameState * bool * list Reply :=
  if isDead then
    let g := eliminated ref game in
    let bang := MsgBang uid (length (getAlivePlayers g)) (potBalance g) in
    if truthy (checkWinCondition g) then
      let g' := with_winner (checkWinCondition g) (with_status finished g) in
      (g', true, [bang; MsgGameOver (default ""%string (checkWinCondition g)) g'])
    else (advanceTurn g, false, bang :: announceNext (advanceTurn g))
  else
    let g := with_potBalance (potBalance (shot ref game) + GRIT_BONUS) (shot ref game) in
    (advanceTurn g, false, MsgClick uid (potBalance g) :: announceNext (advanceTurn g)).

(** The result of an accepted [/pass]. *)
Definition passAccepted (ref : nat) (uid : string) (game : GameState)
  : GameState * list Reply :=
  let burnAmount := Z.min (potBalance game) PASS_BURN in
  let g := with_potBalance (potBalance game - burnAmount)
             (setLastAction ref (Some pass) game) in
  let passed := MsgPassed uid burnAmount (potBalance g) in
  let g := advanceTurn g in
  match getCurrentPlayer g with
  | Some (_, nextPlayer) =>
      if checkForcedShoot g
      then (resetAliveLastAction g, [passed; MsgEveryoneChickenedOut (userId nextPlayer)])
      else (g, [passed; MsgYourTurn (userId nextPlayer)])
  | None => (g, [passed])
  end.

(** The slots marked [true], each renamed by [f]. *)
Definition refsOfFlags (f : nat → nat) (bs : list bool) : list nat :=
  (List.filter (fun rb : nat * bool => snd rb) (imap (fun i b => (f i, b)) bs)).*1.

(** The alive players other than the player object in slot [ref]. *)
Definition othersAlive (ref : nat) (game : GameState) : list (nat * Player) :=
  List.filter (fun rp => negb (bool_decide (fst rp = ref))) (getAlivePlayers game).

(** How one event rewrites the game of a channel, when it rewrites it. *)
Inductive game_update : Event → GameState → GameState → Prop :=
  | update_tip event old :
      status old = waiting →
      List.find (alreadyJoined (toLowerCase (senderAddress event)) (tipUserId event))
        (players old) = None →
      game_update (EvTip event) old (enroll event old)
  | update_start c u old :
      status old = waiting →
      game_update (EvStartGame c u) old
        (with_currentTurnIndex 0 (with_status active old))
  | update_shoot c u d old :
      status old = active →
      game_update (EvShoot c u d) old (shootActive u d old).1.1
  | update_pass c u old :
      status old = active →
      game_update (EvPass c u) old (passActive u old).1.

(** A tip carries a non-negative amount; a tip names its sender. *)
Definition nonneg_tip (ev : Event) : Prop :=
  match ev with
  | EvTip event => (0 <= amount event)%Z
  | _ => True
  end.

Definition named_tip (ev : Event) : Prop :=
  match ev with
  | EvTip event => tipUserId event ≠ ""%string
  | _ => True
  end.

(** Identities are distinct and not empty, and nobody is dead before the
    game starts. *)
Definition game_wf (g : GameState) : Prop :=
  NoDup (userId <$> players g)
  ∧ (∀ p, p ∈ players g → userId p ≠ ""%string)
  ∧ (status g = waiting → ∀ p, p ∈ players g → alive p = true).

(** A small town: the bot, three tippers, and the event that starts their
    game. *)
Definition demoBot : Bot := initialBot "0xb07".

Definition tipOf (uid address : string) (value : Z) : Event :=
  EvTip (mkTip "0xB07" "town" address uid value).

Definition threeStarted : list Event :=
  [tipOf "A" "0xa1" 5; tipOf "B" "0xb2" 7; tipOf "C" "0xc3" 9;
   EvStartGame "town" "A"].

(** The scenario of the specification: a click by [A], passes by [B] and
    [C], then a bang for [A]. *)
Definition roundThenBang : list Event :=
  (threeStarted
   ++ [EvShoot "town" "A" false; EvPass "town" "B"; EvPass "town" "C";
       EvShoot "town" "A" true])%list.

Definition playerA : Player := mkPlayer "A" "0xa1" true None.

Definition playerB : Player := mkPlayer "B" "0xb2" true None.

Definition playerC : Player := mkPlayer "C" "0xc3" true None.

(** The identity of the current player of the game stored for the town. *)
Definition currentOf (bot : Bot) : option string :=
  match games bot !! "town" with
  | Some g => option_map (fun rp => userId (snd rp)) (getCurrentPlayer g)
  | None => None
  end.

(** The identities of the alive players of the game stored for the town. *)
Definition aliveOf (bot : Bot) : list string :=
  match games bot !! "town" with
  | Some g => (fun rp => userId rp.2) <$> getAlivePlayers g
  | None => []
  end.

Definition botWith (g : GameState) : Bot := mkBot "0xb07" {[ "town"%string := g ]} ∅.

Definition dead (p : Player) : Player := with_alive false p.

Definition passed (p : Player) : Player := with_lastAction (Some pass) p.

(** [B] and [C] alive, [A] dead, and a turn index beyond the alive count. *)
Definition lateGame : GameState := mkGame [dead playerA; playerB; playerC] 21 7 active None.

(** Nobody alive. *)
Definition emptyGame : GameState := mkGame [dead playerA; dead playerB] 12 0 active None.

(** [A] to play after [B] and [C] have passed. *)
Definition forcedGame : GameState :=
  mkGame [playerA; passed playerB; passed playerC] 21 0 active None.

(** [A] to play, alone. *)
Definition soloGame : GameState := mkGame [playerA; dead playerB] 12 0 active None.

(** [A] to play against [B]. *)
Definition duelGame : GameState := mkGame [playerA; playerB] 12 0 active None.

(** [A] to play against [B] and [C], with less than the burn in the pot. *)
Definition poorGame : GameState := mkGame [playerA; playerB; playerC] 21 0 active None.

(** [A] to play against a player whose identity is the empty string. *)
Definition namelessGame : GameState :=
  mkGame [playerA; mkPlayer "" "0xd4" true None] 12 0 active None.

Definition oneJoined : Bot := run [tipOf "A" "0xa1" 5] demoBot.

Definition twoJoined : Bot := run [tipOf "A" "0xa1" 5; tipOf "B" "0xb2" 7] demoBot.

Definition tipFromB : TipEvent := mkTip "0xB07" "town" "0xb2" "B" 7.

Definition tipSameAccount : TipEvent := mkTip "0xB07" "town" "0xA1" "Z" 3.

Definition tipOfNothing : TipEvent := mkTip "0xB07" "town" "0xb2" "B" 0.

(** ** Notions used by the further properties *)

(** The channel an event is addressed to. *)
Definition channelOf (ev : Event) : string :=
  match ev with
  | EvTip event => tipChannelId event
  | EvJoinGame c _ | EvStartGame c _ | EvShoot c _ _ | EvPass c _
  | EvGameStatus c | EvHelp c => c
  end.

(** An active game has two or more alive players and a turn index inside
    the alive view. *)
Definition active_ok (g : GameState) : Prop :=
  status g = active →
  2 ≤ length (getAlivePlayers g)
  ∧ (0 <= currentTurnIndex g < Z.of_nat (length (getAlivePlayers g)))%Z.

(** The two outputs that report an internal fault: the game-error message
    and the exception. *)
Definition is_fault (r : Reply) : bool :=
  match r with
  | MsgGameError | ThrowTypeError => true
  | _ => false
  end.

(** Every enrolled player has an entry in [eligiblePlayers] under the
    lower-cased account address. *)
Definition eligible_covers (bot : Bot) : Prop :=
  ∀ c g p, games bot !! c = Some g → p ∈ players g →
           is_Some (eligiblePlayers bot !! toLowerCase (smartAccountAddress p)).

(** ** The tip handler with a fixed entry fee

    The variant of [bot.onTip] that the repository also holds, with
    [ENTRY_FEE]: players are known by the address they tip from, a tip below
    the fee is refused, and an accepted tip credits the fee to the pot. *)
Module FixedFee.

Record Player : Type := mkPlayer {
  userId : string;
  alive : bool;
  lastAction : option Action
}.

Record GameState : Type := mkGame {
  players : list Player;
  potBalance : Z;
  currentTurnIndex : Z;
  status : Status;
  winner : option string
}.

Record Bot : Type := mkBot {
  botId : string;
  games : gmap string GameState
}.

(** [parseEther('0.001')], in wei. *)
Definition ENTRY_FEE : Z := 1000000000000000.

(** The messages of this [onTip]; [extra] is the amount above the fee
    that the join message announces, when there is one. *)
Inductive Reply : Type :=
  | MsgGameAlready (s : Status)
  | MsgAlreadyJoined (sender : string)
  | MsgEntryFee (sender : string) (fee tipped : Z)
  | MsgJoined (sender : string) (tipped : Z) (extra : option Z) (count : nat) (pot : Z).

Definition newGame : GameState := mkGame [] 0%Z 0%Z waiting None.

Definition onTip (event : TipEvent) (bot : Bot) : Bot * list Reply :=
  if negb (bool_decide (toLowerCase (receiverAddress event) = toLowerCase (botId bot)))
  then (bot, [])
  else
    let channelId := tipChannelId event in
    let '(game, bot) :=
      match games bot !! channelId with
      | Some game => (game, bot)
      | None => (newGame, mkBot (botId bot) (<[channelId := newGame]> (games bot)))
      end in
    if negb (bool_decide (status game = waiting))
    then (bot, [MsgGameAlready (status game)])
    else
      let existingPlayer :=
        List.find (fun p => bool_decide (userId p = senderAddress event))
          (players game) in
      match existingPlayer with
      | Some _ => (bot, [MsgAlreadyJoined (senderAddress event)])
      | None =>
          if (amount event <? ENTRY_FEE)%Z
          then (bot, [MsgEntryFee (senderAddress event) ENTRY_FEE (amount event)])
          else
            let game :=
              mkGame (players game ++ [mkPlayer (senderAddress event) true None])
                (potBalance game + ENTRY_FEE) (currentTurnIndex game)
                (status game) (winner game) in
            let extra :=
              if (ENTRY_FEE <? amount event)%Z
              then Some (amount event - ENTRY_FEE)%Z else None in
            (mkBot (botId bot) (<[channelId := game]> (games bot)),
             [MsgJoined (senderAddress event) (amount event) extra
                (length (players game)) (potBalance game)])
      end.

(** The registry after a sequence of tips, oldest first. *)
Definition runTips (events : list TipEvent) (bot : Bot) : Bot :=
  foldl (fun b event => fst (onTip event b)) bot events.

(** What the handler keeps true of every stored game. *)
Definition tidy (g : GameState) : Prop :=
  status g = waiting
  ∧ potBalance g = (ENTRY_FEE * Z.of_nat (length (players g)))%Z
  ∧ NoDup (userId <$> players g)
  ∧ ∀ p, p ∈ players g → alive p = true ∧ lastAction p = None.

End FixedFee.

(** A registry of the fixed-fee variant and three tips: the fee, five times
    the fee, and less than the fee. *)
Definition feeBot : FixedFee.Bot := FixedFee.mkBot "0xb07" ∅.

Definition feeTips : list TipEvent :=
  [mkTip "0xB07" "town" "0xa1" "A" 1000000000000000;
   mkTip "0xB07" "town" "0xb2" "B" 5000000000000000;
   mkTip "0xB07" "town" "0xc3" "C" 7].

(** [/pass] issued under each of the identities [uids] in turn on an active
    game: the game they leave, or [None] as soon as one of them is refused. *)
Fixpoint passesWith (uids : list string) (game : GameState) : option GameState :=
  match uids with
  | [] => Some game
  | uid :: rest =>
      let '(game', out) := passActive uid game in
      if rejected out then None else passesWith rest game'
  end.

(** The identities along the alive view. *)
Definition aliveIds (game : GameState) : list string :=
  (fun rp => userId rp.2) <$> getAlivePlayers game.

(** The stored identities of the [m] alive players from index [k] of the
    alive view on, cyclically. *)
Definition turnIds (game : GameState) (k m : nat) : list string :=
  (fun t => default "" (aliveIds game !! ((k + t) mod length (getAlivePlayers game))))
    <$> seq 0 m.

(** Stored identities that stay distinct when letter case is ignored. *)
Definition distinctUpToCase (game : GameState) : Prop :=
  NoDup ((fun p => toLowerCase (userId p)) <$> players game).

(** The town after a click by [A] and passes by [B] and [C]: [A] is to play
    and everyone else has passed. *)
Definition forcedTown : list Event :=
  (threeStarted
   ++ [EvShoot "town" "A" false; EvPass "town" "B"; EvPass "town" "C"])%list.

(** The [j] alive players from index [s] on (cyclically, in a view of [n])
    have passed and the turn is at the next index. *)
Definition passedRun (g : GameState) (s j n : nat) : Prop :=
  length (getAlivePlayers g) = n
  ∧ NoDup (userId <$> players g)
  ∧ currentTurnIndex g = Z.of_nat ((s + j) mod n)
  ∧ ∀ t, t < j →
      ∃ r p, getAlivePlayers g !! ((s + t) mod n) = Some (r, p)
             ∧ lastAction p = Some pass.

(** As [passedRun], and the other alive players have not passed. *)
Definition freshRun (g : GameState) (s j n : nat) : Prop :=
  passedRun g s j n
  ∧ ∀ t, j ≤ t → t < n →
      ∃ r p, getAlivePlayers g !! ((s + t) mod n) = Some (r, p)
             ∧ lastAction p ≠ Some pass.

(** * Facts about the helpers *)

Section Helpers.
Implicit Types (g game : GameState) (p : Player) (ps : list Player).

(** An alive reference is a slot of [players] whose player is alive. *)
Lemma elem_of_getAlivePlayers g ref p :
  (ref, p) ∈ getAlivePlayers g ↔ players g !! ref = Some p ∧ alive p = true.
Proof.
  unfold getAlivePlayers.
  rewrite list_elem_of_In, filter_In, <- list_elem_of_In, elem_of_lookup_imap.
  simpl. split.
  - intros [(i & q & Heq & Hi) Ha]. by simplify_eq.
  - intros [Hi Ha]. split; [by exists ref, p | done].
Qed.

Lemma getAlivePlayers_nonempty g p :
  p ∈ players g → alive p = true → getAlivePlayers g ≠ [].
Proof.
  intros [i Hi]%list_elem_of_lookup_1 Ha Hnil.
  assert ((i, p) ∈ getAlivePlayers g) as Hin by by apply elem_of_getAlivePlayers.
  rewrite Hnil in Hin. by apply elem_of_nil in Hin.
Qed.

(** The alive view only depends on [players]. *)
Lemma getAlivePlayers_players g g' :
  players g = players g' → getAlivePlayers g = getAlivePlayers g'.
Proof. unfold getAlivePlayers. by intros ->. Qed.

(** With a non-negative turn index and someone alive, the index taken
    modulo the alive count is in range. *)
Lemma getCurrentPlayer_in_range g :
  getAlivePlayers g ≠ [] → (0 <= currentTurnIndex g)%Z →
  ∃ rp, getCurrentPlayer g = Some rp ∧ rp ∈ getAlivePlayers g.
Proof.
  intros Hne Hidx. unfold getCurrentPlayer, js_index.
  destruct (getAlivePlayers g) as [|rp0 l] eqn:Hl; [done|].
  set (n := length (rp0 :: l)).
  assert (0 < n) as Hn by (subst n; simpl; lia).
  destruct (Nat.eqb_spec n 0) as [|_]; [lia|].
  pose proof (Z.rem_bound_pos (currentTurnIndex g) (Z.of_nat n) Hidx ltac:(lia)) as Hb.
  destruct (Z.ltb_spec (Z.rem (currentTurnIndex g) (Z.of_nat n)) 0) as [|_]; [lia|].
  destruct (lookup_lt_is_Some_2 (rp0 :: l)
              (Z.to_nat (Z.rem (currentTurnIndex g) (Z.of_nat n)))) as [rp Hrp].
  { fold n. lia. }
  exists rp. split; [done|]. by eapply list_elem_of_lookup_2.
Qed.

(** Whatever the index, the player found is an element of the alive view. *)
Lemma getCurrentPlayer_alive g ref p :
  getCurrentPlayer g = Some (ref, p) →
  players g !! ref = Some p ∧ alive p = true.
Proof.
  unfold getCurrentPlayer, js_index. intros H.
  destruct (length (getAlivePlayers g) =? 0); [done|].
  destruct (_ <? 0)%Z; [done|].
  apply list_elem_of_lookup_2 in H. by apply elem_of_getAlivePlayers.
Qed.

Lemma getCurrentPlayer_none g :
  getAlivePlayers g = [] → getCurrentPlayer g = None.
Proof. unfold getCurrentPlayer. by intros ->. Qed.

(** With turn index 0 the current player is the head of the alive view. *)
Lemma getCurrentPlayer_zero g :
  currentTurnIndex g = 0%Z → getCurrentPlayer g = head (getAlivePlayers g).
Proof.
  unfold getCurrentPlayer, js_index. intros ->.
  destruct (getAlivePlayers g) as [|rp l]; [done|].
  simpl length. rewrite Z.rem_0_l by lia. done.
Qed.

(** [advanceTurn] only writes [currentTurnIndex]. *)
Lemma advanceTurn_players g : players (advanceTurn g) = players g.
Proof. unfold advanceTurn. by destruct (0 <? _). Qed.

Lemma advanceTurn_potBalance g : potBalance (advanceTurn g) = potBalance g.
Proof. unfold advanceTurn. by destruct (0 <? _). Qed.

Lemma advanceTurn_status g : status (advanceTurn g) = status g.
Proof. unfold advanceTurn. by destruct (0 <? _). Qed.

Lemma advanceTurn_winner g : winner (advanceTurn g) = winner g.
Proof. unfold advanceTurn. by destruct (0 <? _). Qed.

(** *** The reset loop *)

Lemma foldl_setLastAction a g (refs : list (nat * Player)) :
  foldl (fun g rp => setLastAction (fst rp) a g) g refs
  = with_players
      (foldl (fun ps rp => alter (with_lastAction a) (fst rp) ps) (players g) refs) g.
Proof.
  revert g. induction refs as [|rp refs IH]; intros g; simpl.
  - by destruct g.
  - rewrite IH. by destruct g.
Qed.

Lemma lookup_foldl_alter a ps (refs : list (nat * Player)) i :
  foldl (fun ps rp => alter (with_lastAction a) (fst rp) ps) ps refs !! i
  = (if decide (i ∈ refs.*1) then with_lastAction a else id) <$> ps !! i.
Proof.
  revert ps. induction refs as [|[r q] refs IH]; intros ps.
  - simpl. by destruct (ps !! i).
  - cbn [foldl fst]. rewrite IH, list_lookup_alter, fmap_cons. cbn [fst].
    destruct (decide (r = i)) as [->|Hne].
    + rewrite (decide_True (P := i ∈ i :: refs.*1)) by apply list_elem_of_here.
      destruct (ps !! i); simpl; [by case_decide | done].
    + destruct (decide (i ∈ refs.*1)) as [Hin|Hnin].
      * rewrite decide_True; [done | by apply list_elem_of_further].
      * rewrite decide_False; [done|].
        intros [?|?]%elem_of_cons; congruence.
Qed.

Lemma resetAliveLastAction_eq g :
  resetAliveLastAction g = with_players (resetAll (players g)) g.
Proof.
  unfold resetAliveLastAction. rewrite foldl_setLastAction. f_equal.
  apply list_eq. intros i.
  rewrite lookup_foldl_alter. unfold resetAll. rewrite list_lookup_fmap.
  destruct (players g !! i) as [p|] eqn:Hp; simpl; [|done].
  destruct (alive p) eqn:Ha.
  - rewrite decide_True; [done|].
    apply list_elem_of_fmap. exists (i, p). split; [done|].
    by apply elem_of_getAlivePlayers.
  - rewrite decide_False; [done|].
    intros ([i' p'] & Heq & Hin)%list_elem_of_fmap. simpl in Heq. subst i'.
    apply elem_of_getAlivePlayers in Hin as [Hp' Ha']. congruence.
Qed.

Lemma resetAll_alive_none ps p :
  p ∈ resetAll ps → alive p = true → lastAction p = None.
Proof.
  unfold resetAll. intros (q & -> & _)%list_elem_of_fmap.
  destruct (alive q) eqn:Hq; simpl; [done | congruence].
Qed.

Lemma resetAll_userIds ps : userId <$> resetAll ps = userId <$> ps.
Proof.
  unfold resetAll. rewrite <- list_fmap_compose. apply list_fmap_ext.
  intros _ p _. simpl. by destruct (alive p).
Qed.

Lemma alter_userIds (f : Player → Player) ps i :
  (∀ p, userId (f p) = userId p) →
  userId <$> alter f i ps = userId <$> ps.
Proof.
  intros Hf. apply list_eq. intros j.
  rewrite !list_lookup_fmap, list_lookup_alter.
  destruct (decide (i = j)) as [->|]; [|done].
  destruct (ps !! j); simpl; [by rewrite Hf | done].
Qed.

(** An element of an altered array is an old element or the image of one. *)
Lemma elem_of_alter (f : Player → Player) ps i p :
  p ∈ alter f i ps → p ∈ ps ∨ ∃ q, q ∈ ps ∧ p = f q.
Proof.
  intros [j Hj]%list_elem_of_lookup_1.
  rewrite list_lookup_alter in Hj.
  destruct (decide (i = j)) as [->|].
  - destruct (ps !! j) as [q|] eqn:Hq; simplify_eq/=.
    right. exists q. split; [by eapply list_elem_of_lookup_2 | done].
  - left. by eapply list_elem_of_lookup_2.
Qed.
End Helpers.

Lemma getAlivePlayers_nil (g : GameState) :
  (∀ p, p ∈ players g → alive p = false) → getAlivePlayers g = [].
Proof.
  intros Hdead. destruct (getAlivePlayers g) as [|[ref p] l] eqn:Hl; [done|].
  assert ((ref, p) ∈ getAlivePlayers g) as Hin by (rewrite Hl; apply list_elem_of_here).
  apply elem_of_getAlivePlayers in Hin as [Hp Ha].
  apply list_elem_of_lookup_2 in Hp. apply Hdead in Hp. congruence.
Qed.

(** For a non-negative index, the slot read by [getCurrentPlayer] is the
    index modulo the alive count. *)
Lemma getCurrentPlayer_mod (g : GameState) :
  getAlivePlayers g ≠ [] → (0 <= currentTurnIndex g)%Z →
  getCurrentPlayer g
  = getAlivePlayers g
      !! (Z.to_nat (currentTurnIndex g) mod length (getAlivePlayers g)).
Proof.
  intros Hne Hidx. unfold getCurrentPlayer, js_index.
  destruct (getAlivePlayers g) as [|rp0 l]; [done|].
  set (n := length (rp0 :: l)).
  assert (0 < n) as Hn by (subst n; simpl; lia).
  destruct (Nat.eqb_spec n 0) as [|_]; [lia|].
  rewrite Z.rem_mod_nonneg by lia.
  pose proof (Z.mod_pos_bound (currentTurnIndex g) (Z.of_nat n) ltac:(lia)).
  destruct (Z.ltb_spec (currentTurnIndex g `mod` Z.of_nat n) 0) as [|_]; [lia|].
  by rewrite Z2Nat.inj_mod, Nat2Z.id by lia.
Qed.

(** * Safety of the current-player lookup *)

(** C9. In a game with at least one alive player and a non-negative
    [currentTurnIndex], [getCurrentPlayer] returns a player of the game that
    is alive, read at the index taken modulo the alive count (so an index at
    or beyond the alive count is never out of bounds).  With no alive player
    it returns [null], and both [/shoot] and [/pass] on such an active game
    answer with the game-error message and leave the bot as it was. *)
Theorem getCurrentPlayer_safe (g : GameState) :
  ((∃ p, p ∈ players g ∧ alive p = true) → (0 <= currentTurnIndex g)%Z →
     ∃ ref p,
       getCurrentPlayer g = Some (ref, p)
       ∧ getAlivePlayers g
           !! (Z.to_nat (currentTurnIndex g) mod length (getAlivePlayers g))
         = Some (ref, p)
       ∧ Z.to_nat (currentTurnIndex g) mod length (getAlivePlayers g)
         < length (getAlivePlayers g)
       ∧ players g !! ref = Some p ∧ p ∈ players g ∧ alive p = true)
  ∧ ((∀ p, p ∈ players g → alive p = false) →
       getCurrentPlayer g = None
       ∧ ∀ (bot : Bot) (channelId uid : string) (isDead : bool),
           games bot !! channelId = Some g → status g = active →
           onShoot channelId uid isDead bot = (bot, [MsgGameError])
           ∧ onPass channelId uid bot = (bot, [MsgGameError])).
Proof.
  split.
  - intros (p0 & Hin & Ha) Hidx.
    pose proof (getAlivePlayers_nonempty g p0 Hin Ha) as Hne.
    destruct (getCurrentPlayer_in_range g Hne Hidx) as ([ref p] & Hcur & _).
    destruct (getCurrentPlayer_alive g ref p Hcur) as [Hp Halive].
    exists ref, p. repeat split; try done.
    + by rewrite <- getCurrentPlayer_mod.
    + apply Nat.mod_upper_bound. by destruct (getAlivePlayers g).
    + by eapply list_elem_of_lookup_2.
  - intros Hdead. pose proof (getAlivePlayers_nil g Hdead) as Hnil.
    pose proof (getCurrentPlayer_none g Hnil) as Hcur.
    split; [done|]. intros bot channelId uid isDead Hg Hst.
    unfold onShoot, onPass, shootActive, passActive.
    rewrite Hg, Hst, Hcur. simpl.
    rewrite insert_id by done. by destruct bot.
Qed.

(** * Rejections *)

Lemma shootActive_rejected uid isDead game :
  rejected (shootActive uid isDead game).2 = true →
  shootActive uid isDead game = (game, false, (shootActive uid isDead game).2).
Proof.
  unfold shootActive.
  destruct (getCurrentPlayer game) as [[ref cp]|]; [|done].
  destruct (negb (bool_decide _)); [done|].
  destruct (negb (alive cp)); [done|].
  destruct isDead; [|done]. by destruct (truthy _).
Qed.

Lemma passActive_rejected uid game :
  rejected (passActive uid game).2 = true →
  passActive uid game = (game, (passActive uid game).2).
Proof.
  unfold passActive.
  destruct (getCurrentPlayer game) as [[ref cp]|]; [|done].
  destruct (negb (bool_decide _)); [done|].
  destruct (negb (alive cp)); [done|].
  destruct (allOthersPassed uid game); [done|].
  cbv zeta. destruct (getCurrentPlayer _) as [[? ?]|]; [|done].
  by destruct (checkForcedShoot _).
Qed.

Lemma with_games_id bot : with_games (games bot) bot = bot.
Proof. by destruct bot. Qed.

Lemma onShoot_rejected channelId uid isDead bot :
  rejected (onShoot channelId uid isDead bot).2 = true →
  (onShoot channelId uid isDead bot).1 = bot.
Proof.
  unfold onShoot. destruct (games bot !! channelId) as [game|] eqn:Hg; [|done].
  destruct (negb (bool_decide _)); [done|].
  destruct (shootActive uid isDead game) as [[game' deleted] out] eqn:Hs.
  simpl. intros Hrej.
  pose proof (shootActive_rejected uid isDead game) as Heq.
  rewrite Hs in Heq. simpl in Heq. specialize (Heq Hrej). simplify_eq.
  rewrite insert_id by done. apply with_games_id.
Qed.

Lemma onPass_rejected channelId uid bot :
  rejected (onPass channelId uid bot).2 = true →
  (onPass channelId uid bot).1 = bot.
Proof.
  unfold onPass. destruct (games bot !! channelId) as [game|] eqn:Hg; [|done].
  destruct (negb (bool_decide _)); [done|].
  destruct (passActive uid game) as [game' out] eqn:Hs.
  simpl. intros Hrej.
  pose proof (passActive_rejected uid game) as Heq.
  rewrite Hs in Heq. simpl in Heq. specialize (Heq Hrej). simplify_eq.
  rewrite insert_id by done. apply with_games_id.
Qed.

Lemma onStartGame_rejected channelId uid bot :
  rejected (onStartGame channelId uid bot).2 = true →
  (onStartGame channelId uid bot).1 = bot.
Proof.
  unfold onStartGame. destruct (games bot !! channelId) as [game|]; [|done].
  destruct (negb (bool_decide _)); [done|].
  destruct (length (players game) <? 2); [done|].
  cbv zeta. by destruct (getCurrentPlayer _) as [[? ?]|].
Qed.

Lemma onTip_rejected event bot :
  rejected (onTip event bot).2 = true →
  games (onTip event bot).1 = games bot
  ∧ botId (onTip event bot).1 = botId bot.
Proof.
  unfold onTip. destruct (negb (bool_decide _)); [done|].
  destruct (games bot !! tipChannelId event) as [game|] eqn:Hg.
  - destruct (negb (bool_decide (status game = waiting))); [done|].
    cbv zeta. by destruct (find _ _).
  - done.
Qed.

(** C8. Whatever the operation (deposit, start, shoot, pass, or any other
    command) and whatever the refusal it answers with (wrong status,
    duplicate enrollment, not enough players, no current player, not your
    turn, already eliminated, must shoot), the registry of games after the
    call is the registry before it: no field of any [GameState] has been
    written.  For the slash commands the whole bot state is unchanged; a
    refused deposit has only recorded the sender in [eligiblePlayers]. *)
Theorem rejection_leaves_games_unchanged (ev : Event) (bot : Bot) :
  rejected (handle ev bot).2 = true →
  games (handle ev bot).1 = games bot
  ∧ (∀ channelId, games (handle ev bot).1 !! channelId = games bot !! channelId)
  ∧ match ev with
    | EvTip _ => botId (handle ev bot).1 = botId bot
    | _ => (handle ev bot).1 = bot
    end.
Proof.
  intros Hrej.
  assert (games (handle ev bot).1 = games bot
          ∧ match ev with
            | EvTip _ => botId (handle ev bot).1 = botId bot
            | _ => (handle ev bot).1 = bot
            end) as [Hgames Hrest].
  { destruct ev as [event|c u|c u|c u d|c u|c|c]; simpl in *.
    - by apply onTip_rejected.
    - done.
    - by rewrite (onStartGame_rejected c u bot Hrej).
    - by rewrite (onShoot_rejected c u d bot Hrej).
    - by rewrite (onPass_rejected c u bot Hrej).
    - unfold onGameStatus. by destruct (games bot !! c).
    - done. }
  repeat split; [done | | done]. intros channelId. by rewrite Hgames.
Qed.

(** * Enrollment *)

Lemma find_alreadyJoined_None addressLower uid ps :
  (∀ p, p ∈ ps →
     toLowerCase (smartAccountAddress p) ≠ addressLower ∧ userId p ≠ uid) →
  List.find (alreadyJoined addressLower uid) ps = None.
Proof.
  induction ps as [|p ps IH]; intros Hall; simpl; [done|].
  destruct (Hall p) as [Ha Hu]; [apply list_elem_of_here|].
  unfold alreadyJoined at 1.
  rewrite !bool_decide_eq_false_2 by done. simpl.
  apply IH. intros q Hq. apply Hall. by apply list_elem_of_further.
Qed.

Lemma find_alreadyJoined_Some addressLower uid ps p :
  p ∈ ps →
  toLowerCase (smartAccountAddress p) = addressLower ∨ userId p = uid →
  is_Some (List.find (alreadyJoined addressLower uid) ps).
Proof.
  intros Hin Hp.
  destruct (List.find (alreadyJoined addressLower uid) ps) eqn:Hfind; [done|].
  apply list_elem_of_In in Hin.
  pose proof (find_none _ _ Hfind p Hin) as Hf. unfold alreadyJoined in Hf.
  apply orb_false_iff in Hf as [H1 H2].
  apply bool_decide_eq_false in H1, H2. tauto.
Qed.

Lemma onTip_accept event bot :
  toLowerCase (receiverAddress event) = toLowerCase (botId bot) →
  status (resolveOrCreate (tipChannelId event) bot) = waiting →
  (∀ p, p ∈ players (resolveOrCreate (tipChannelId event) bot) →
     ¬ sameAddress (smartAccountAddress p) (senderAddress event)
     ∧ userId p ≠ tipUserId event) →
  onTip event bot
  = (mkBot (botId bot)
       (<[tipChannelId event :=
            enroll event (resolveOrCreate (tipChannelId event) bot)]> (games bot))
       (<[toLowerCase (senderAddress event) :=
            (tipUserId event, tipChannelId event)]> (eligiblePlayers bot)),
     [MsgJoined (tipUserId event) (amount event)
        (S (length (players (resolveOrCreate (tipChannelId event) bot))))
        (potBalance (resolveOrCreate (tipChannelId event) bot) + amount event)]).
Proof.
  unfold resolveOrCreate, onTip, sameAddress. intros Hrecv Hst Hnew.
  rewrite bool_decide_eq_true_2 by done. simpl.
  destruct (games bot !! tipChannelId event) as [game|] eqn:Hg; simpl in *.
  - rewrite bool_decide_eq_true_2 by done. simpl.
    rewrite find_alreadyJoined_None by done.
    unfold enroll, with_games, with_eligiblePlayers, with_potBalance, with_players.
    simpl. rewrite length_app. simpl. by rewrite Nat.add_1_r.
  - unfold enroll, with_games, with_eligiblePlayers, with_potBalance, with_players.
    simpl. by rewrite insert_insert_eq.
Qed.

Lemma onTip_duplicate event bot :
  toLowerCase (receiverAddress event) = toLowerCase (botId bot) →
  status (resolveOrCreate (tipChannelId event) bot) = waiting →
  (∃ p, p ∈ players (resolveOrCreate (tipChannelId event) bot)
        ∧ (sameAddress (smartAccountAddress p) (senderAddress event)
           ∨ userId p = tipUserId event)) →
  onTip event bot
  = (with_eligiblePlayers
       (<[toLowerCase (senderAddress event) :=
            (tipUserId event, tipChannelId event)]> (eligiblePlayers bot)) bot,
     [MsgAlreadyJoined (tipUserId event)]).
Proof.
  unfold resolveOrCreate, onTip, sameAddress. intros Hrecv Hst (p & Hin & Hp).
  rewrite bool_decide_eq_true_2 by done. simpl.
  destruct (games bot !! tipChannelId event) as [game|] eqn:Hg; simpl in *.
  - rewrite bool_decide_eq_true_2 by done. simpl.
    destruct (find_alreadyJoined_Some (toLowerCase (senderAddress event))
                (tipUserId event) (players game) p Hin Hp) as [q ->].
    done.
  - by apply elem_of_nil in Hin.
Qed.

(** C5. A deposit to the bot on a channel whose game (the existing one, or
    the fresh one created for the occasion) has status [waiting].  If no
    enrolled player has the depositor's payout address (as an account, that
    is up to letter case) or the depositor's identity, the game stored for
    the channel afterwards is the old one with a new alive player, with
    [lastAction] null, appended at the end of [players] and the full amount
    added to [potBalance]: this holds for every amount, so for every positive
    amount however small.  If some enrolled player has the same payout
    address or the same identity, the answer is "already in the game" and the
    registry of games is unchanged. *)
Theorem deposit_enrolls_or_rejects (event : TipEvent) (bot : Bot) :
  toLowerCase (receiverAddress event) = toLowerCase (botId bot) →
  status (resolveOrCreate (tipChannelId event) bot) = waiting →
  ((∀ p, p ∈ players (resolveOrCreate (tipChannelId event) bot) →
      ¬ sameAddress (smartAccountAddress p) (senderAddress event)
      ∧ userId p ≠ tipUserId event) →
   ∃ game',
     games (onTip event bot).1 !! tipChannelId event = Some game'
     ∧ players game'
       = (players (resolveOrCreate (tipChannelId event) bot)
           ++ [mkPlayer (tipUserId event) (senderAddress event) true None])%list
     ∧ potBalance game'
       = (potBalance (resolveOrCreate (tipChannelId event) bot) + amount event)%Z
     ∧ status game' = waiting
     ∧ currentTurnIndex game'
       = currentTurnIndex (resolveOrCreate (tipChannelId event) bot)
     ∧ winner game' = winner (resolveOrCreate (tipChannelId event) bot)
     ∧ rejected (onTip event bot).2 = false
     ∧ ∀ c, c ≠ tipChannelId event →
            games (onTip event bot).1 !! c = games bot !! c)
  ∧ ((∃ p, p ∈ players (resolveOrCreate (tipChannelId event) bot)
           ∧ (sameAddress (smartAccountAddress p) (senderAddress event)
              ∨ userId p = tipUserId event)) →
     (onTip event bot).2 = [MsgAlreadyJoined (tipUserId event)]
     ∧ games (onTip event bot).1 = games bot).
Proof.
  intros Hrecv Hst. split.
  - intros Hnew. rewrite (onTip_accept event bot Hrecv Hst Hnew). simpl.
    exists (enroll event (resolveOrCreate (tipChannelId event) bot)).
    rewrite lookup_insert_eq. repeat split; try done.
    intros c Hc. by rewrite lookup_insert_ne.
  - intros Hdup. by rewrite (onTip_duplicate event bot Hrecv Hst Hdup).
Qed.

(** C10. A deposit of amount 0 to the bot, from a sender that no enrolled
    player matches, on a channel whose game is [waiting], is accepted: the
    sender is appended to [players] as an alive player and [potBalance] keeps
    its value.  The handler never compares the amount with 0 or with
    [MIN_TIP]. *)
Theorem zero_deposit_accepted (event : TipEvent) (bot : Bot) :
  amount event = 0%Z →
  toLowerCase (receiverAddress event) = toLowerCase (botId bot) →
  status (resolveOrCreate (tipChannelId event) bot) = waiting →
  (∀ p, p ∈ players (resolveOrCreate (tipChannelId event) bot) →
     ¬ sameAddress (smartAccountAddress p) (senderAddress event)
     ∧ userId p ≠ tipUserId event) →
  rejected (onTip event bot).2 = false
  ∧ (onTip event bot).2
    = [MsgJoined (tipUserId event) 0
         (S (length (players (resolveOrCreate (tipChannelId event) bot))))
         (potBalance (resolveOrCreate (tipChannelId event) bot))]
  ∧ ∃ game',
      games (onTip event bot).1 !! tipChannelId event = Some game'
      ∧ players game'
        = (players (resolveOrCreate (tipChannelId event) bot)
            ++ [mkPlayer (tipUserId event) (senderAddress event) true None])%list
      ∧ potBalance game'
        = potBalance (resolveOrCreate (tipChannelId event) bot).
Proof.
  intros Hzero Hrecv Hst Hnew.
  rewrite (onTip_accept event bot Hrecv Hst Hnew). simpl.
  rewrite Hzero, Z.add_0_r. repeat split.
  exists (enroll event (resolveOrCreate (tipChannelId event) bot)).
  rewrite lookup_insert_eq. repeat split.
  unfold enroll. simpl. rewrite Hzero. lia.
Qed.

(** * Start *)

(** The alive view lists the alive players in enrollment order. *)
Lemma filter_imap_snd (f : nat → nat) (ps : list Player) :
  (List.filter (fun rp => alive (snd rp)) (imap (fun i p => (f i, p)) ps)).*2
  = List.filter alive ps.
Proof.
  revert f. induction ps as [|p ps IH]; intros f; [done|].
  rewrite imap_cons. simpl.
  destruct (alive p); simpl; [f_equal|]; apply (IH (f ∘ S)).
Qed.

Lemma getAlivePlayers_snd (g : GameState) :
  (getAlivePlayers g).*2 = List.filter alive (players g).
Proof. apply (filter_imap_snd id). Qed.

Lemma head_fmap_snd (l : list (nat * Player)) : snd <$> head l = head (l.*2).
Proof. by destruct l. Qed.

(** C7. [/start-game] is accepted exactly when the channel has a game, its
    status is [waiting] and at least two players are enrolled.  The game is
    then stored with [status = active] and [currentTurnIndex = 0], its other
    fields untouched, and its current player is the first alive player in
    enrollment order, who is named in the announcement.  When the command is
    refused (no game, wrong status, fewer than two players) the bot state is
    the one before the call, so a game that was waiting is still waiting. *)
Theorem start_game_spec (channelId uid : string) (bot : Bot) :
  (rejected (onStartGame channelId uid bot).2 = false
   ↔ ∃ game, games bot !! channelId = Some game
             ∧ status game = waiting ∧ 2 ≤ length (players game))
  ∧ (∀ game, games bot !! channelId = Some game →
       status game = waiting → 2 ≤ length (players game) →
       ∃ game',
         games (onStartGame channelId uid bot).1 !! channelId = Some game'
         ∧ game' = mkGame (players game) (potBalance game) 0 active (winner game)
         ∧ getCurrentPlayer game' = head (getAlivePlayers game')
         ∧ snd <$> getCurrentPlayer game' = head (List.filter alive (players game))
         ∧ (∀ first, head (List.filter alive (players game)) = Some first →
              (onStartGame channelId uid bot).2
              = [MsgGameStarted game' (userId first)]))
  ∧ (rejected (onStartGame channelId uid bot).2 = true →
       (onStartGame channelId uid bot).1 = bot
       ∧ ∀ game, games bot !! channelId = Some game → status game = waiting →
           ∃ game', games (onStartGame channelId uid bot).1 !! channelId = Some game'
                    ∧ status game' = waiting ∧ game' = game).
Proof.
  split; [|split].
  - unfold onStartGame.
    destruct (games bot !! channelId) as [game|] eqn:Hg.
    2:{ split; [done | by intros (? & ? & _)]. }
    destruct (decide (status game = waiting)) as [Hst|Hst].
    2:{ rewrite bool_decide_eq_false_2 by done. simpl.
        split; [done | intros (? & ? & ? & _); congruence]. }
    rewrite bool_decide_eq_true_2 by done. simpl.
    destruct (Nat.ltb_spec (length (players game)) 2) as [Hlt|Hge].
    { split; [done | intros (? & ? & ? & ?); simplify_eq; lia]. }
    cbv zeta. split; [by exists game|]. intros _.
    by destruct (getCurrentPlayer _) as [[? ?]|].
  - intros game Hg Hst Hlen. unfold onStartGame. rewrite Hg.
    rewrite bool_decide_eq_true_2 by done. simpl.
    destruct (Nat.ltb_spec (length (players game)) 2) as [Hlt|_]; [lia|].
    cbv zeta.
    set (game' := with_currentTurnIndex 0 (with_status active game)).
    assert (getCurrentPlayer game' = head (getAlivePlayers game')) as Hcur
      by by apply getCurrentPlayer_zero.
    assert (snd <$> getCurrentPlayer game' = head (List.filter alive (players game)))
      as Hfirst by by rewrite Hcur, head_fmap_snd, getAlivePlayers_snd.
    exists game'. split.
    { destruct (getCurrentPlayer game') as [[? ?]|]; simpl; by rewrite lookup_insert_eq. }
    repeat split; try done.
    intros first Hhd. rewrite Hhd in Hfirst.
    destruct (getCurrentPlayer game') as [[ref cp]|]; simplify_eq/=. done.
  - intros Hrej. split; [by apply onStartGame_rejected|].
    intros game Hg Hst. rewrite (onStartGame_rejected _ _ _ Hrej). by exists game.
Qed.

(** * Shoot *)

Lemma shootActive_accepted uid isDead game :
  rejected (shootActive uid isDead game).2 = false →
  ∃ ref cp,
    getCurrentPlayer game = Some (ref, cp)
    ∧ toLowerCase (userId cp) = toLowerCase uid
    ∧ shootActive uid isDead game = shootAccepted ref uid isDead game.
Proof.
  unfold shootActive.
  destruct (getCurrentPlayer game) as [[ref cp]|] eqn:Hcur; [|done].
  destruct (decide (toLowerCase (userId cp) = toLowerCase uid)) as [Hid|Hid].
  2:{ by rewrite bool_decide_eq_false_2. }
  rewrite bool_decide_eq_true_2 by done. simpl.
  destruct (alive cp); [|done]. simpl. intros _.
  exists ref, cp. repeat split; try done.
Qed.

Lemma shootActive_current uid isDead game ref cp :
  getCurrentPlayer game = Some (ref, cp) →
  toLowerCase (userId cp) = toLowerCase uid →
  shootActive uid isDead game = shootAccepted ref uid isDead game
  ∧ rejected (shootActive uid isDead game).2 = false.
Proof.
  intros Hcur Hid. unfold shootActive. rewrite Hcur.
  rewrite bool_decide_eq_true_2 by done. simpl.
  destruct (getCurrentPlayer_alive game ref cp Hcur) as [_ ->]. simpl.
  split; [done|]. destruct isDead; [|done]. by destruct (truthy _).
Qed.

Lemma players_shot ref game :
  players (shot ref game)
  = resetAll (alter (with_lastAction (Some shoot)) ref (players game)).
Proof. unfold shot. by rewrite resetAliveLastAction_eq. Qed.

Lemma players_eliminated ref game :
  players (eliminated ref game)
  = alter (with_alive false) ref
      (resetAll (alter (with_lastAction (Some shoot)) ref (players game))).
Proof. unfold eliminated. simpl. by rewrite players_shot. Qed.

Lemma potBalance_shot ref game : potBalance (shot ref game) = potBalance game.
Proof. unfold shot. by rewrite resetAliveLastAction_eq. Qed.

Lemma status_shot ref game : status (shot ref game) = status game.
Proof. unfold shot. by rewrite resetAliveLastAction_eq. Qed.

Lemma currentTurnIndex_shot ref game :
  currentTurnIndex (shot ref game) = currentTurnIndex game.
Proof. unfold shot. by rewrite resetAliveLastAction_eq. Qed.

Lemma winner_shot ref game : winner (shot ref game) = winner game.
Proof. unfold shot. by rewrite resetAliveLastAction_eq. Qed.

(** The players of the game object an accepted shoot leaves behind. *)
Lemma players_shootAccepted ref uid isDead game :
  players (shootAccepted ref uid isDead game).1.1
  = if isDead then players (eliminated ref game) else players (shot ref game).
Proof.
  unfold shootAccepted. destruct isDead; simpl.
  - destruct (truthy _); simpl; [done | by rewrite advanceTurn_players].
  - by rewrite advanceTurn_players.
Qed.

Lemma alive_none_shot ref game p :
  p ∈ players (shot ref game) → alive p = true → lastAction p = None.
Proof. rewrite players_shot. apply resetAll_alive_none. Qed.

Lemma alive_none_eliminated ref game p :
  p ∈ players (eliminated ref game) → alive p = true → lastAction p = None.
Proof.
  rewrite players_eliminated. intros [Hin|(q & Hq & ->)]%elem_of_alter.
  - exact (resetAll_alive_none _ _ Hin).
  - done.
Qed.

(** What an accepted shoot makes of the player stored at position [i], when
    the shooter is stored at [ref]: identity and account kept, the shooter
    dead after a bang, and [lastAction] null for whoever was alive. *)
Lemma lookup_shootAccepted ref cp uid isDead game i :
  players game !! ref = Some cp → alive cp = true →
  players (shootAccepted ref uid isDead game).1.1 !! i
  = (fun p => mkPlayer (userId p) (smartAccountAddress p)
                (if isDead && bool_decide (i = ref) then false else alive p)
                (if alive p then None else lastAction p))
    <$> players game !! i.
Proof.
  intros Hcp Ha.
  assert (resetAll (alter (with_lastAction (Some shoot)) ref (players game)) !! i
          = (fun p => mkPlayer (userId p) (smartAccountAddress p) (alive p)
                        (if alive p then None else lastAction p))
            <$> players game !! i) as Hreset.
  { unfold resetAll. rewrite list_lookup_fmap, list_lookup_alter.
    destruct (decide (ref = i)) as [<-|Hne].
    - rewrite Hcp. simpl. destruct cp as [u a al la]. simpl in *. by subst al.
    - destruct (players game !! i) as [[u a al la]|]; [|done]. simpl.
      by destruct al. }
  rewrite players_shootAccepted. destruct isDead.
  - rewrite players_eliminated, list_lookup_alter.
    destruct (decide (ref = i)) as [<-|Hne].
    + rewrite Hreset, Hcp. simpl. by rewrite bool_decide_eq_true_2.
    + rewrite Hreset. rewrite bool_decide_eq_false_2 by done. done.
  - by rewrite players_shot, Hreset.
Qed.

(** C6. An accepted [/shoot] on an active game, bang or click, is a shoot by
    the current player, and the game object it leaves holds the players of
    the game before it, position by position: identity and account are kept,
    only the shooter of a bang changes from alive to dead, and [lastAction]
    is null for every player who was alive before the shot (left as it was
    for the dead).  So every player alive when the handler returns has
    [lastAction] null, and when the game goes on, that object is the game
    stored for the channel. *)
Theorem shoot_resets_lastAction
    (channelId uid : string) (isDead : bool) (bot : Bot) (game : GameState) :
  games bot !! channelId = Some game → status game = active →
  rejected (onShoot channelId uid isDead bot).2 = false →
  (∃ ref cp,
     getCurrentPlayer game = Some (ref, cp)
     ∧ toLowerCase (userId cp) = toLowerCase uid
     ∧ ∀ i, players (shootActive uid isDead game).1.1 !! i
            = (fun p => mkPlayer (userId p) (smartAccountAddress p)
                          (if isDead && bool_decide (i = ref) then false else alive p)
                          (if alive p then None else lastAction p))
              <$> players game !! i)
  ∧ (∀ p, p ∈ players (shootActive uid isDead game).1.1 →
        alive p = true → lastAction p = None)
  ∧ (∀ game', games (onShoot channelId uid isDead bot).1 !! channelId = Some game' →
        game' = (shootActive uid isDead game).1.1
        ∧ ∀ p, p ∈ players game' → alive p = true → lastAction p = None)
  ∧ (games (onShoot channelId uid isDead bot).1 !! channelId = None
     ↔ (shootActive uid isDead game).1.2 = true).
Proof.
  intros Hg Hst. unfold onShoot. rewrite Hg, Hst. simpl.
  destruct (shootActive uid isDead game) as [[g' deleted] out] eqn:Hs. simpl.
  intros Hrej.
  destruct (shootActive_accepted uid isDead game) as (ref & cp & Hcur & Hid & Heq).
  { by rewrite Hs. }
  rewrite Hs in Heq.
  assert (g' = (shootAccepted ref uid isDead game).1.1) as Hg'
    by by rewrite <- Heq.
  assert (∀ p, p ∈ players g' → alive p = true → lastAction p = None) as Hall.
  { rewrite Hg', players_shootAccepted. intros p.
    destruct isDead; [apply alive_none_eliminated | apply alive_none_shot]. }
  split; [|split; [done|split]].
  - exists ref, cp. split; [done|]. split; [done|]. intros i. rewrite Hg'.
    destruct (getCurrentPlayer_alive game ref cp Hcur) as [Hcp Ha].
    by apply (lookup_shootAccepted ref cp).
  - intros game'. destruct deleted.
    + by rewrite lookup_delete_eq.
    + rewrite lookup_insert_eq. intros [= <-]. done.
  - destruct deleted.
    + by rewrite lookup_delete_eq.
    + by rewrite lookup_insert_eq.
Qed.

(** * Win detection *)

Lemma checkWinCondition_one g ref p :
  getAlivePlayers g = [(ref, p)] → checkWinCondition g = Some (userId p).
Proof. unfold checkWinCondition. by intros ->. Qed.

Lemma checkWinCondition_Some g w :
  checkWinCondition g = Some w →
  ∃ ref p, getAlivePlayers g = [(ref, p)] ∧ w = userId p.
Proof.
  unfold checkWinCondition.
  destruct (getAlivePlayers g) as [|[ref p] [|rp l]]; simpl; try done.
  intros [= <-]. by exists ref, p.
Qed.

Lemma length_one {A} (l : list A) : length l = 1 → ∃ x, l = [x].
Proof. destruct l as [|x [|y l]]; try done. by exists x. Qed.

Lemma userIds_shot ref game :
  userId <$> players (shot ref game) = userId <$> players game.
Proof. rewrite players_shot, resetAll_userIds. by apply alter_userIds. Qed.

Lemma userIds_eliminated ref game :
  userId <$> players (eliminated ref game) = userId <$> players game.
Proof.
  unfold eliminated. simpl. rewrite alter_userIds by done. apply userIds_shot.
Qed.

Lemma status_eliminated ref game : status (eliminated ref game) = status game.
Proof. unfold eliminated. simpl. apply status_shot. Qed.

Lemma potBalance_eliminated ref game :
  potBalance (eliminated ref game) = potBalance game.
Proof. unfold eliminated. simpl. apply potBalance_shot. Qed.

Lemma currentTurnIndex_eliminated ref game :
  currentTurnIndex (eliminated ref game) = currentTurnIndex game.
Proof. unfold eliminated. simpl. apply currentTurnIndex_shot. Qed.

(** A shoot that does not delete the game leaves its status alone; one that
    deletes it has marked it finished. *)
Lemma status_shootActive uid isDead game :
  status (shootActive uid isDead game).1.1
  = if (shootActive uid isDead game).1.2 then finished else status game.
Proof.
  destruct (rejected (shootActive uid isDead game).2) eqn:Hrej.
  - by rewrite (shootActive_rejected _ _ _ Hrej).
  - destruct (shootActive_accepted _ _ _ Hrej) as (ref & cp & _ & _ & ->).
    unfold shootAccepted. destruct isDead; simpl.
    + destruct (truthy _); simpl; [done|].
      by rewrite advanceTurn_status, status_eliminated.
    + rewrite advanceTurn_status. simpl. apply status_shot.
Qed.

Lemma status_passActive uid game :
  status (passActive uid game).1 = status game.
Proof.
  unfold passActive.
  destruct (getCurrentPlayer game) as [[ref cp]|]; [|done].
  destruct (negb (bool_decide _)); [done|].
  destruct (negb (alive cp)); [done|].
  destruct (allOthersPassed uid game); [done|].
  cbv zeta. destruct (getCurrentPlayer _) as [[? ?]|];
    [destruct (checkForcedShoot _)|];
    simpl; rewrite ?resetAliveLastAction_eq; simpl; by rewrite advanceTurn_status.
Qed.

(** No handler ever stores a finished game. *)
Lemma handle_no_finished (ev : Event) (bot : Bot) :
  (∀ c g, games bot !! c = Some g → status g ≠ finished) →
  ∀ c g, games (handle ev bot).1 !! c = Some g → status g ≠ finished.
Proof.
  intros Hinv c g.
  destruct ev as [event|c' u|c' u|c' u d|c' u|c'|c']; simpl; try apply Hinv.
  - unfold onTip. destruct (negb (bool_decide _)); [apply Hinv|].
    destruct (games bot !! tipChannelId event) as [game|] eqn:Hg.
    + destruct (decide (status game = waiting)) as [Hst|Hst].
      2:{ rewrite bool_decide_eq_false_2 by done. apply Hinv. }
      rewrite bool_decide_eq_true_2 by done. cbv zeta.
      destruct (find _ _); simpl; [apply Hinv|].
      destruct (decide (tipChannelId event = c)) as [->|Hne].
      * rewrite lookup_insert_eq. intros [= <-]. simpl. by rewrite Hst.
      * rewrite lookup_insert_ne by done. apply Hinv.
    + simpl. rewrite insert_insert_eq.
      destruct (decide (tipChannelId event = c)) as [->|Hne].
      * rewrite lookup_insert_eq. by intros [= <-].
      * rewrite lookup_insert_ne by done. apply Hinv.
  - unfold onStartGame. destruct (games bot !! c') as [game|] eqn:Hg; [|apply Hinv].
    destruct (negb (bool_decide _)); [apply Hinv|].
    destruct (length (players game) <? 2); [apply Hinv|]. cbv zeta.
    assert (∀ g0, <[c' := with_currentTurnIndex 0 (with_status active game)]>
                    (games bot) !! c = Some g0 → status g0 ≠ finished) as Hins.
    { intros g0. destruct (decide (c' = c)) as [->|Hne].
      - rewrite lookup_insert_eq. by intros [= <-].
      - rewrite lookup_insert_ne by done. apply Hinv. }
    destruct (getCurrentPlayer _) as [[? ?]|]; apply Hins.
  - unfold onShoot. destruct (games bot !! c') as [game|] eqn:Hg; [|apply Hinv].
    destruct (negb (bool_decide _)); [apply Hinv|].
    pose proof (status_shootActive u d game) as Hst.
    destruct (shootActive u d game) as [[g' deleted] out]. simpl in *.
    destruct (decide (c' = c)) as [->|Hne].
    + destruct deleted; [by rewrite lookup_delete_eq|].
      rewrite lookup_insert_eq. intros [= <-]. rewrite Hst. by eapply Hinv.
    + destruct deleted;
        [rewrite lookup_delete_ne by done | rewrite lookup_insert_ne by done];
        apply Hinv.
  - unfold onPass. destruct (games bot !! c') as [game|] eqn:Hg; [|apply Hinv].
    destruct (negb (bool_decide _)); [apply Hinv|].
    pose proof (status_passActive u game) as Hst.
    destruct (passActive u game) as [g' out]. simpl in *.
    destruct (decide (c' = c)) as [->|Hne].
    + rewrite lookup_insert_eq. intros [= <-]. rewrite Hst. by eapply Hinv.
    + rewrite lookup_insert_ne by done. apply Hinv.
  - unfold onGameStatus. destruct (games bot !! c'); apply Hinv.
Qed.

Lemma userIds_nonempty_eliminated ref game p :
  (∀ q, q ∈ players game → userId q ≠ ""%string) →
  p ∈ players (eliminated ref game) → userId p ≠ ""%string.
Proof.
  intros Hne Hin.
  assert (userId p ∈ userId <$> players (eliminated ref game)) as Hu
    by (apply list_elem_of_fmap; by exists p).
  rewrite userIds_eliminated in Hu.
  apply list_elem_of_fmap in Hu as (q & -> & Hq). by apply Hne.
Qed.

(** C3. An accepted [/shoot] on an active game whose players have non-empty
    identities marks the game object [finished] if and only if the shot
    eliminates the shooter and exactly one player is then alive.  In that
    case [winner] is the identity of that sole survivor, [currentTurnIndex]
    and the pot are the ones before the shot (no turn advance has happened),
    the channel has no game afterwards, and a status query answers that no
    game is in progress.  Otherwise the game object is stored back for the
    channel.  No handler ever leaves a finished game in the registry, so the
    eliminating shoot is the only transition into [finished]. *)
Theorem win_detection
    (channelId uid : string) (isDead : bool) (bot : Bot) (game : GameState) :
  games bot !! channelId = Some game → status game = active →
  rejected (onShoot channelId uid isDead bot).2 = false →
  (∀ p, p ∈ players game → userId p ≠ ""%string) →
  (status (shootActive uid isDead game).1.1 = finished
   ↔ isDead = true
     ∧ length (getAlivePlayers (shootActive uid isDead game).1.1) = 1)
  ∧ (status (shootActive uid isDead game).1.1 = finished →
       ∃ ref survivor,
         getAlivePlayers (shootActive uid isDead game).1.1 = [(ref, survivor)]
         ∧ winner (shootActive uid isDead game).1.1 = Some (userId survivor)
         ∧ currentTurnIndex (shootActive uid isDead game).1.1
           = currentTurnIndex game
         ∧ potBalance (shootActive uid isDead game).1.1 = potBalance game
         ∧ games (onShoot channelId uid isDead bot).1 !! channelId = None
         ∧ (onGameStatus channelId (onShoot channelId uid isDead bot).1).2
           = [MsgStatusNoGame])
  ∧ (status (shootActive uid isDead game).1.1 ≠ finished →
       games (onShoot channelId uid isDead bot).1 !! channelId
       = Some (shootActive uid isDead game).1.1)
  ∧ (∀ ev : Event,
       (∀ c g, games bot !! c = Some g → status g ≠ finished) →
       ∀ c g, games (handle ev bot).1 !! c = Some g → status g ≠ finished).
Proof.
  intros Hg Hst Hrej Hids.
  assert (rejected (shootActive uid isDead game).2 = false) as Hrej'.
  { revert Hrej. unfold onShoot. rewrite Hg, Hst. simpl.
    by destruct (shootActive uid isDead game) as [[? ?] ?]. }
  destruct (shootActive_accepted _ _ _ Hrej') as (ref & cp & Hcur & Hid & Heq).
  assert (onShoot channelId uid isDead bot
          = (with_games
               (if (shootAccepted ref uid isDead game).1.2
                then delete channelId (games bot)
                else <[channelId := (shootAccepted ref uid isDead game).1.1]> (games bot))
               bot,
             (shootAccepted ref uid isDead game).2)) as Hon.
  { unfold onShoot. rewrite Hg, Hst, Heq. simpl.
    by destruct (shootAccepted ref uid isDead game) as [[? ?] ?]. }
  rewrite Hon, Heq. clear Hon Heq Hrej Hrej'.
  split; [|split; [|split]]; [| | |intros ev; apply handle_no_finished].
  - unfold shootAccepted. destruct isDead; simpl.
    + destruct (truthy (checkWinCondition (eliminated ref game))) eqn:Hwin; simpl.
      * split; [intros _|done]. split; [done|].
        destruct (checkWinCondition (eliminated ref game)) as [w|] eqn:Hw; [|done].
        apply checkWinCondition_Some in Hw as (r & p & Hal & _).
        rewrite (getAlivePlayers_players _ (eliminated ref game)) by done.
        by rewrite Hal.
      * rewrite advanceTurn_status, status_eliminated, Hst.
        split; [done|]. intros [_ Hlen]. exfalso.
        rewrite (getAlivePlayers_players _ (eliminated ref game)) in Hlen
          by apply advanceTurn_players.
        apply length_one in Hlen as [[r p] Hal].
        rewrite (checkWinCondition_one _ r p Hal) in Hwin. simpl in Hwin.
        apply negb_false_iff, bool_decide_eq_true in Hwin.
        assert ((r, p) ∈ getAlivePlayers (eliminated ref game)) as Hin
          by (rewrite Hal; apply list_elem_of_here).
        apply elem_of_getAlivePlayers in Hin as [Hp _].
        apply list_elem_of_lookup_2 in Hp.
        by apply (userIds_nonempty_eliminated ref game p Hids).
    + rewrite advanceTurn_status. simpl. rewrite status_shot, Hst.
      split; [done | by intros [? _]].
  - unfold shootAccepted. destruct isDead; simpl.
    + destruct (truthy (checkWinCondition (eliminated ref game))) eqn:Hwin; simpl.
      * intros _.
        destruct (checkWinCondition (eliminated ref game)) as [w|] eqn:Hw; [|done].
        apply checkWinCondition_Some in Hw as (r & p & Hal & ->).
        exists r, p. rewrite lookup_delete_eq.
        rewrite (getAlivePlayers_players _ (eliminated ref game)) by done.
        split; [done|]. split; [done|].
        split; [apply currentTurnIndex_eliminated|].
        split; [apply potBalance_eliminated|]. split; [done|].
        unfold onGameStatus. simpl. by rewrite lookup_delete_eq.
      * rewrite advanceTurn_status, status_eliminated, Hst. done.
    + rewrite advanceTurn_status. simpl. rewrite status_shot, Hst. done.
  - unfold shootAccepted. destruct isDead; simpl.
    + destruct (truthy (checkWinCondition (eliminated ref game))); simpl; [done|].
      intros _. by rewrite lookup_insert_eq.
    + intros _. by rewrite lookup_insert_eq.
Qed.

(** * Pass and the forced-shoot rule *)

Lemma burn_is_min (pot : Z) :
  (if (PASS_BURN <=? pot)%Z then PASS_BURN else pot) = Z.min pot PASS_BURN.
Proof. destruct (Z.leb_spec PASS_BURN pot); lia. Qed.

Lemma passActive_current uid game ref cp :
  getCurrentPlayer game = Some (ref, cp) →
  toLowerCase (userId cp) = toLowerCase uid →
  passActive uid game
  = if allOthersPassed uid game then (game, [MsgMustShoot])
    else passAccepted ref uid game.
Proof.
  intros Hcur Hid. unfold passActive. rewrite Hcur.
  rewrite bool_decide_eq_true_2 by done. simpl.
  destruct (getCurrentPlayer_alive game ref cp Hcur) as [_ ->]. simpl.
  destruct (allOthersPassed uid game); [done|].
  unfold passAccepted. simpl. by rewrite burn_is_min.
Qed.

Lemma passActive_accepted uid game :
  rejected (passActive uid game).2 = false →
  ∃ ref cp,
    getCurrentPlayer game = Some (ref, cp)
    ∧ toLowerCase (userId cp) = toLowerCase uid
    ∧ allOthersPassed uid game = false
    ∧ passActive uid game = passAccepted ref uid game.
Proof.
  intros Hrej.
  destruct (getCurrentPlayer game) as [[ref cp]|] eqn:Hcur.
  2:{ unfold passActive in Hrej. by rewrite Hcur in Hrej. }
  destruct (decide (toLowerCase (userId cp) = toLowerCase uid)) as [Hid|Hid].
  2:{ unfold passActive in Hrej. rewrite Hcur in Hrej.
      by rewrite bool_decide_eq_false_2 in Hrej. }
  rewrite (passActive_current uid game ref cp Hcur Hid) in Hrej |- *.
  destruct (allOthersPassed uid game); [done|]. by exists ref, cp.
Qed.

Lemma rejected_passAccepted ref uid game :
  rejected (passAccepted ref uid game).2 = false.
Proof.
  unfold passAccepted. cbv zeta.
  destruct (getCurrentPlayer _) as [[? ?]|]; [|done].
  by destruct (checkForcedShoot _).
Qed.

(** With distinct identities, filtering the alive view on the identity of
    the current player removes exactly the current player object. *)
Lemma otherPlayers_othersAlive game ref cp :
  players game !! ref = Some cp →
  NoDup (userId <$> players game) →
  otherPlayers (userId cp) game = othersAlive ref game.
Proof.
  intros Hcp Hnd. unfold otherPlayers, othersAlive.
  apply filter_ext_in. intros [r p] Hin. simpl. f_equal.
  apply list_elem_of_In, elem_of_getAlivePlayers in Hin as [Hp _].
  apply bool_decide_ext. split.
  - intros Hu. apply (NoDup_lookup _ _ _ (userId p) Hnd).
    + by rewrite list_lookup_fmap, Hp.
    + by rewrite list_lookup_fmap, Hcp, Hu.
  - intros ->. congruence.
Qed.

Lemma allOthersPassed_true uid game :
  allOthersPassed uid game = true
  ↔ otherPlayers uid game ≠ []
    ∧ ∀ rp, rp ∈ otherPlayers uid game → lastAction rp.2 = Some pass.
Proof.
  unfold allOthersPassed. rewrite andb_true_iff, forallb_forall. split.
  - intros [Hlen Hall]. split.
    + intros Hnil. by rewrite Hnil in Hlen.
    + intros rp Hin%list_elem_of_In.
      exact (bool_decide_eq_true_1 _ (Hall rp Hin)).
  - intros [Hne Hall]. split.
    + destruct (otherPlayers uid game); [done|]. done.
    + intros rp Hin%list_elem_of_In. by apply bool_decide_eq_true_2, Hall.
Qed.

(** The forced-shoot rule for an acting identity that is, letter for letter,
    the stored identity of the current player, in an active game with
    distinct player identities.  If the alive players other than
    the current one are not none and each of them has [lastAction = 'pass'],
    [/pass] answers "you must shoot" and the bot state is unchanged, while
    [/shoot] by the same identity in the same state is accepted, whatever the
    chamber holds.  In every other case, in particular when the current
    player is the only one alive, [/pass] is accepted. *)
Theorem forced_shoot_rule
    (channelId uid : string) (bot : Bot) (game : GameState) (ref : nat) (cp : Player) :
  games bot !! channelId = Some game → status game = active →
  getCurrentPlayer game = Some (ref, cp) → userId cp = uid →
  NoDup (userId <$> players game) →
  (othersAlive ref game ≠ []
     ∧ (∀ rp, rp ∈ othersAlive ref game → lastAction rp.2 = Some pass) →
   onPass channelId uid bot = (bot, [MsgMustShoot])
   ∧ ∀ isDead, rejected (onShoot channelId uid isDead bot).2 = false)
  ∧ (othersAlive ref game = [] → rejected (onPass channelId uid bot).2 = false)
  ∧ (¬ (othersAlive ref game ≠ []
        ∧ ∀ rp, rp ∈ othersAlive ref game → lastAction rp.2 = Some pass) →
     rejected (onPass channelId uid bot).2 = false)
  ∧ (∀ isDead, rejected (onShoot channelId uid isDead bot).2 = false).
Proof.
  intros Hg Hst Hcur Huid Hnd.
  destruct (getCurrentPlayer_alive game ref cp Hcur) as [Hcp Halive].
  assert (toLowerCase (userId cp) = toLowerCase uid) as Hid by by rewrite Huid.
  pose proof (otherPlayers_othersAlive game ref cp Hcp Hnd) as Hoth.
  rewrite Huid in Hoth.
  assert (∀ isDead, rejected (onShoot channelId uid isDead bot).2 = false) as Hshoot.
  { intros isDead. unfold onShoot. rewrite Hg, Hst. simpl.
    destruct (shootActive_current uid isDead game ref cp Hcur Hid) as [_ Hacc].
    by destruct (shootActive uid isDead game) as [[? ?] ?]. }
  assert (onPass channelId uid bot
          = if allOthersPassed uid game then (bot, [MsgMustShoot])
            else (with_games (<[channelId := (passAccepted ref uid game).1]> (games bot)) bot,
                  (passAccepted ref uid game).2)) as Hpass.
  { unfold onPass. rewrite Hg, Hst. simpl.
    rewrite (passActive_current uid game ref cp Hcur Hid).
    destruct (allOthersPassed uid game).
    - rewrite insert_id by done. by rewrite with_games_id.
    - by destruct (passAccepted ref uid game). }
  assert (¬ (othersAlive ref game ≠ []
             ∧ ∀ rp, rp ∈ othersAlive ref game → lastAction rp.2 = Some pass) →
          rejected (onPass channelId uid bot).2 = false) as Hfree.
  { intros Hnot. rewrite Hpass.
    destruct (allOthersPassed uid game) eqn:Hall.
    - apply allOthersPassed_true in Hall. rewrite Hoth in Hall. done.
    - apply rejected_passAccepted. }
  split; [|split; [|split]]; try done.
  - intros Hforced. split; [|done]. rewrite Hpass.
    rewrite <- Hoth in Hforced. apply allOthersPassed_true in Hforced.
    by rewrite Hforced.
  - intros Hnil. apply Hfree. by intros [? _].
Qed.

(** * Invariants of the registry *)

(** Every game stored after an event is a game stored before it, or the
    update of the game stored before it (of the fresh game, if none was). *)
Lemma handle_lookup (ev : Event) (bot : Bot) (c : string) (g' : GameState) :
  games (handle ev bot).1 !! c = Some g' →
  games bot !! c = Some g'
  ∨ ∃ old, (games bot !! c = Some old ∨ games bot !! c = None ∧ old = newGame)
           ∧ game_update ev old g'.
Proof.
  destruct ev as [event|c' u|c' u|c' u d|c' u|c'|c']; simpl; auto.
  - unfold onTip. destruct (negb (bool_decide _)); auto.
    destruct (games bot !! tipChannelId event) as [game|] eqn:Hg.
    + destruct (decide (status game = waiting)) as [Hst|Hst].
      2:{ rewrite bool_decide_eq_false_2 by done. auto. }
      rewrite bool_decide_eq_true_2 by done. cbv zeta.
      destruct (find _ _) eqn:Hfind; simpl; auto.
      destruct (decide (c = tipChannelId event)) as [->|Hne].
      * rewrite lookup_insert_eq. intros [= <-]. right. exists game.
        split; [by left|]. by apply update_tip.
      * rewrite lookup_insert_ne by congruence. auto.
    + simpl. rewrite insert_insert_eq.
      destruct (decide (c = tipChannelId event)) as [->|Hne].
      * rewrite lookup_insert_eq. intros [= <-]. right. exists newGame.
        split; [by right|]. by apply update_tip.
      * rewrite lookup_insert_ne by congruence. auto.
  - unfold onStartGame. destruct (games bot !! c') as [game|] eqn:Hg; auto.
    destruct (decide (status game = waiting)) as [Hst|Hst].
    2:{ rewrite bool_decide_eq_false_2 by done. auto. }
    rewrite bool_decide_eq_true_2 by done. simpl.
    destruct (length (players game) <? 2); auto. cbv zeta.
    assert (<[c' := with_currentTurnIndex 0 (with_status active game)]>
              (games bot) !! c = Some g' →
            games bot !! c = Some g'
            ∨ ∃ old, (games bot !! c = Some old
                      ∨ games bot !! c = None ∧ old = newGame)
                     ∧ game_update (EvStartGame c' u) old g') as Hins.
    { destruct (decide (c' = c)) as [->|Hne].
      - rewrite lookup_insert_eq. intros [= <-]. right. exists game.
        split; [by left|]. by apply update_start.
      - rewrite lookup_insert_ne by done. auto. }
    destruct (getCurrentPlayer _) as [[? ?]|]; apply Hins.
  - unfold onShoot. destruct (games bot !! c') as [game|] eqn:Hg; auto.
    destruct (decide (status game = active)) as [Hst|Hst].
    2:{ rewrite bool_decide_eq_false_2 by done. auto. }
    rewrite bool_decide_eq_true_2 by done. simpl.
    pose proof (update_shoot c' u d game Hst) as Hup.
    destruct (shootActive u d game) as [[g1 deleted] out]. simpl in *.
    destruct (decide (c' = c)) as [->|Hne].
    + destruct deleted; [by rewrite lookup_delete_eq|].
      rewrite lookup_insert_eq. intros [= <-]. right. exists game. auto.
    + destruct deleted;
        [rewrite lookup_delete_ne by done | rewrite lookup_insert_ne by done];
        auto.
  - unfold onPass. destruct (games bot !! c') as [game|] eqn:Hg; auto.
    destruct (decide (status game = active)) as [Hst|Hst].
    2:{ rewrite bool_decide_eq_false_2 by done. auto. }
    rewrite bool_decide_eq_true_2 by done. simpl.
    pose proof (update_pass c' u game Hst) as Hup.
    destruct (passActive u game) as [g1 out]. simpl in *.
    destruct (decide (c' = c)) as [->|Hne].
    + rewrite lookup_insert_eq. intros [= <-]. right. exists game. auto.
    + rewrite lookup_insert_ne by done. auto.
  - unfold onGameStatus. destruct (games bot !! c'); auto.
Qed.

Section Preservation.
Variable P : GameState → Prop.
Variable Q : Event → Prop.
Hypothesis P_new : P newGame.
Hypothesis P_update : ∀ ev old g', Q ev → P old → game_update ev old g' → P g'.

Lemma handle_preserves (ev : Event) (bot : Bot) :
  Q ev →
  (∀ c g, games bot !! c = Some g → P g) →
  ∀ c g, games (handle ev bot).1 !! c = Some g → P g.
Proof.
  intros Hev Hbot c g [Hold|(old & [Hold|[_ ->]] & Hup)]%handle_lookup; eauto.
Qed.

Lemma run_preserves (evs : list Event) (bot : Bot) :
  Forall Q evs →
  (∀ c g, games bot !! c = Some g → P g) →
  ∀ c g, games (run evs bot) !! c = Some g → P g.
Proof.
  unfold run. intros Hevs. revert bot.
  induction Hevs as [|ev evs Hev _ IH]; intros bot Hbot; simpl; [done|].
  apply IH. by apply handle_preserves.
Qed.
End Preservation.

(** * Pot accounting *)

Lemma potBalance_shootActive uid isDead game :
  potBalance (shootActive uid isDead game).1.1 = potBalance game
  ∨ potBalance (shootActive uid isDead game).1.1 = (potBalance game + GRIT_BONUS)%Z.
Proof.
  destruct (rejected (shootActive uid isDead game).2) eqn:Hrej.
  - left. by rewrite (shootActive_rejected _ _ _ Hrej).
  - destruct (shootActive_accepted _ _ _ Hrej) as (ref & cp & _ & _ & ->).
    unfold shootAccepted. destruct isDead; simpl.
    + left. destruct (truthy _); simpl; [|rewrite advanceTurn_potBalance];
        apply potBalance_eliminated.
    + right. rewrite advanceTurn_potBalance. simpl. by rewrite potBalance_shot.
Qed.

Lemma potBalance_passAccepted ref uid game :
  potBalance (passAccepted ref uid game).1
  = (potBalance game - Z.min (potBalance game) PASS_BURN)%Z.
Proof.
  unfold passAccepted. cbv zeta.
  destruct (getCurrentPlayer _) as [[? ?]|]; [destruct (checkForcedShoot _)|];
    simpl; rewrite ?resetAliveLastAction_eq; simpl;
    by rewrite advanceTurn_potBalance.
Qed.

Lemma potBalance_passActive uid game :
  potBalance (passActive uid game).1
  = if rejected (passActive uid game).2 then potBalance game
    else (potBalance game - Z.min (potBalance game) PASS_BURN)%Z.
Proof.
  destruct (rejected (passActive uid game).2) eqn:Hrej.
  - by rewrite (passActive_rejected _ _ Hrej).
  - destruct (passActive_accepted _ _ Hrej) as (ref & cp & _ & _ & _ & ->).
    apply potBalance_passAccepted.
Qed.

Lemma pot_update_nonneg ev old g' :
  nonneg_tip ev → (0 <= potBalance old)%Z → game_update ev old g' →
  (0 <= potBalance g')%Z.
Proof.
  intros Hev Hold Hup. destruct Hup as [event old _ _|c u old _|c u d old _|c u old _].
  - simpl in *. lia.
  - done.
  - destruct (potBalance_shootActive u d old) as [-> | ->];
      unfold GRIT_BONUS; lia.
  - rewrite potBalance_passActive. destruct (rejected _); lia.
Qed.

(** C2. Starting from the bot as loaded and handling any sequence of events
    whose tips carry non-negative amounts, every stored game has
    [potBalance >= 0]; the same bound is kept by any single event from any
    bot state that satisfies it.  An accepted [/pass] burns exactly
    [min(potBalance, PASS_BURN)]: the pot loses [PASS_BURN] when it holds at
    least that much, and becomes exactly 0 when it holds less. *)
Theorem pot_never_negative :
  (∀ (id : string) (evs : list Event),
     Forall nonneg_tip evs →
     ∀ c g, games (run evs (initialBot id)) !! c = Some g → (0 <= potBalance g)%Z)
  ∧ (∀ (ev : Event) (bot : Bot),
       nonneg_tip ev →
       (∀ c g, games bot !! c = Some g → (0 <= potBalance g)%Z) →
       ∀ c g, games (handle ev bot).1 !! c = Some g → (0 <= potBalance g)%Z)
  ∧ (∀ (channelId uid : string) (bot : Bot) (game : GameState),
       games bot !! channelId = Some game → status game = active →
       rejected (onPass channelId uid bot).2 = false →
       ∃ game',
         games (onPass channelId uid bot).1 !! channelId = Some game'
         ∧ potBalance game'
           = (potBalance game - Z.min (potBalance game) PASS_BURN)%Z
         ∧ (∃ next, (onPass channelId uid bot).2
                    = MsgPassed uid (Z.min (potBalance game) PASS_BURN)
                        (potBalance game') :: next)
         ∧ ((PASS_BURN <= potBalance game)%Z →
            potBalance game' = (potBalance game - PASS_BURN)%Z)
         ∧ ((potBalance game < PASS_BURN)%Z → potBalance game' = 0%Z)
         ∧ ((0 <= potBalance game)%Z → (0 <= potBalance game')%Z)).
Proof.
  split; [|split].
  - intros id evs Hevs.
    apply (run_preserves (fun g => (0 <= potBalance g)%Z) nonneg_tip); try done.
    intros ev old g'. apply pot_update_nonneg.
  - intros ev bot.
    apply (handle_preserves (fun g => (0 <= potBalance g)%Z) nonneg_tip); try done.
    intros ev' old g'. apply pot_update_nonneg.
  - intros channelId uid bot game Hg Hst. unfold onPass. rewrite Hg, Hst. simpl.
    destruct (passActive uid game) as [g' out] eqn:Hp. simpl. intros Hrej.
    destruct (passActive_accepted uid game) as (ref & cp & _ & _ & _ & Heq).
    { by rewrite Hp. }
    rewrite Hp in Heq. exists g'. rewrite lookup_insert_eq.
    assert (potBalance g' = (potBalance game - Z.min (potBalance game) PASS_BURN)%Z)
      as Hpot.
    { replace g' with (passAccepted ref uid game).1 by by rewrite <- Heq.
      apply potBalance_passAccepted. }
    split; [done|]. split; [done|]. split.
    { replace out with (passAccepted ref uid game).2 by by rewrite <- Heq.
      rewrite Hpot. unfold passAccepted. cbv zeta.
      destruct (getCurrentPlayer _) as [[? ?]|]; [destruct (checkForcedShoot _)|];
        simpl; eauto. }
    rewrite Hpot. unfold PASS_BURN. repeat split; lia.
Qed.

(** * Well-formed games *)

Lemma userIds_shootActive uid isDead game :
  userId <$> players (shootActive uid isDead game).1.1 = userId <$> players game.
Proof.
  destruct (rejected (shootActive uid isDead game).2) eqn:Hrej.
  - by rewrite (shootActive_rejected _ _ _ Hrej).
  - destruct (shootActive_accepted _ _ _ Hrej) as (ref & cp & _ & _ & ->).
    rewrite players_shootAccepted.
    destruct isDead; [apply userIds_eliminated | apply userIds_shot].
Qed.

Lemma userIds_passActive uid game :
  userId <$> players (passActive uid game).1 = userId <$> players game.
Proof.
  destruct (rejected (passActive uid game).2) eqn:Hrej.
  - by rewrite (passActive_rejected _ _ Hrej).
  - destruct (passActive_accepted _ _ Hrej) as (ref & cp & _ & _ & _ & ->).
    unfold passAccepted. cbv zeta.
    destruct (getCurrentPlayer _) as [[? ?]|]; [destruct (checkForcedShoot _)|];
      simpl; rewrite ?resetAliveLastAction_eq; simpl;
      rewrite ?resetAll_userIds, advanceTurn_players; simpl;
      by apply alter_userIds.
Qed.

Lemma userIds_nonempty (ps ps' : list Player) :
  userId <$> ps' = userId <$> ps →
  (∀ p, p ∈ ps → userId p ≠ ""%string) →
  ∀ p, p ∈ ps' → userId p ≠ ""%string.
Proof.
  intros Heq Hne p Hin.
  assert (userId p ∈ userId <$> ps') as Hu by (apply list_elem_of_fmap; by exists p).
  rewrite Heq in Hu. apply list_elem_of_fmap in Hu as (q & -> & Hq). by apply Hne.
Qed.

Lemma wf_update ev old g' :
  named_tip ev → game_wf old → game_update ev old g' → game_wf g'.
Proof.
  intros Hev (Hnd & Hne & Hal) Hup.
  destruct Hup as [event old Hst Hfind|c u old Hst|c u d old Hst|c u old Hst].
  - simpl in Hev. unfold game_wf, enroll. simpl. split; [|split].
    + rewrite fmap_app. apply NoDup_app. split; [done|]. split.
      * intros x (q & -> & Hq)%list_elem_of_fmap Hx.
        apply list_elem_of_singleton in Hx.
        apply list_elem_of_In in Hq.
        pose proof (find_none _ _ Hfind q Hq) as Hf. unfold alreadyJoined in Hf.
        apply orb_false_iff in Hf as [_ Hf]. by apply bool_decide_eq_false in Hf.
      * apply NoDup_singleton.
    + intros p [Hp|Hp]%elem_of_app; [by apply Hne|].
      apply list_elem_of_singleton in Hp. by subst p.
    + intros _ p [Hp|Hp]%elem_of_app; [by apply Hal|].
      apply list_elem_of_singleton in Hp. by subst p.
  - unfold game_wf. simpl. repeat split; done.
  - pose proof (userIds_shootActive u d old) as Hids.
    pose proof (status_shootActive u d old) as Hstatus.
    split; [by rewrite Hids|]. split; [by eapply userIds_nonempty|].
    rewrite Hstatus, Hst. by destruct (_.1.2).
  - pose proof (userIds_passActive u old) as Hids.
    split; [by rewrite Hids|]. split; [by eapply userIds_nonempty|].
    rewrite status_passActive, Hst. done.
Qed.

Lemma run_no_finished (evs : list Event) (bot : Bot) :
  (∀ c g, games bot !! c = Some g → status g ≠ finished) →
  ∀ c g, games (run evs bot) !! c = Some g → status g ≠ finished.
Proof.
  unfold run. revert bot. induction evs as [|ev evs IH]; intros bot Hbot; [done|].
  simpl. apply IH. by apply handle_no_finished.
Qed.

(** Every game the bot stores after handling events whose tips name their
    sender has distinct, non-empty identities, is not finished, and has
    nobody dead while it is waiting. *)
Lemma reachable_wf (id : string) (evs : list Event) :
  Forall named_tip evs →
  ∀ c g, games (run evs (initialBot id)) !! c = Some g →
         game_wf g ∧ status g ≠ finished.
Proof.
  intros Hevs c g Hg. split.
  - revert c g Hg. apply (run_preserves game_wf named_tip); try done.
    + repeat split; [apply NoDup_nil_2 | |]; simpl; intros;
        exfalso; by eapply elem_of_nil.
    + intros ev old g'. apply wf_update.
  - revert c g Hg. by apply run_no_finished.
Qed.

(** * Turn order after an elimination *)

(** After an eliminating shot that leaves two or more players, the index is
    incremented modulo the count of the survivors. *)
Lemma eliminating_shot_index ref uid game :
  truthy (checkWinCondition (eliminated ref game)) = false →
  getAlivePlayers (eliminated ref game) ≠ [] →
  currentTurnIndex (shootAccepted ref uid true game).1.1
  = Z.rem (currentTurnIndex game + 1)
      (Z.of_nat (length (getAlivePlayers (eliminated ref game)))).
Proof.
  intros Hwin Hne. unfold shootAccepted. rewrite Hwin. simpl.
  unfold advanceTurn.
  destruct (getAlivePlayers (eliminated ref game)) as [|rp l] eqn:Hl; [done|].
  simpl. by rewrite currentTurnIndex_shot.
Qed.

Lemma refsOfFlags_cons f b bs :
  refsOfFlags f (b :: bs)
  = if b then f 0 :: refsOfFlags (f ∘ S) bs else refsOfFlags (f ∘ S) bs.
Proof. unfold refsOfFlags. rewrite imap_cons. simpl. by destruct b. Qed.

Lemma alive_refs_flags (f : nat → nat) (ps : list Player) :
  (List.filter (fun rp => alive (snd rp)) (imap (fun i p => (f i, p)) ps)).*1
  = refsOfFlags f (alive <$> ps).
Proof.
  revert f. induction ps as [|p ps IH]; intros f; [done|].
  rewrite fmap_cons, refsOfFlags_cons, imap_cons. simpl.
  destruct (alive p); simpl; [f_equal|]; apply (IH (f ∘ S)).
Qed.

Lemma getAlivePlayers_refs (g : GameState) :
  (getAlivePlayers g).*1 = refsOfFlags id (alive <$> players g).
Proof. apply (alive_refs_flags id). Qed.

Lemma elem_of_refsOfFlags f bs x :
  x ∈ refsOfFlags f bs → ∃ i, x = f i ∧ bs !! i = Some true.
Proof.
  revert f. induction bs as [|b bs IH]; intros f.
  - by intros ?%elem_of_nil.
  - rewrite refsOfFlags_cons. destruct b.
    + intros [->|Hin]%elem_of_cons; [by exists 0|].
      destruct (IH _ Hin) as (i & -> & Hi). by exists (S i).
    + intros Hin. destruct (IH _ Hin) as (i & -> & Hi). by exists (S i).
Qed.

Lemma NoDup_refsOfFlags f bs : Inj (=) (=) f → NoDup (refsOfFlags f bs).
Proof.
  revert f. induction bs as [|b bs IH]; intros f Hf.
  - apply NoDup_nil_2.
  - assert (Inj (=) (=) (f ∘ S)) as HfS by (intros i j Hij; apply Hf in Hij; lia).
    rewrite refsOfFlags_cons. destruct b; [|by apply IH].
    apply NoDup_cons. split; [|by apply IH].
    intros (i & Hi & _)%elem_of_refsOfFlags. apply Hf in Hi. lia.
Qed.

Lemma refsOfFlags_clear f bs r :
  bs !! r = Some true →
  ∃ k, refsOfFlags f bs !! k = Some (f r)
       ∧ refsOfFlags f (alter (fun _ => false) r bs) = delete k (refsOfFlags f bs).
Proof.
  revert f r. induction bs as [|b bs IH]; intros f r Hr; [done|].
  destruct r as [|r]; simpl in Hr.
  - simplify_eq. exists 0. simpl. by rewrite !refsOfFlags_cons.
  - destruct (IH (f ∘ S) r Hr) as (k & Hk & Hdel).
    change (alter (fun _ => false) (S r) (b :: bs))
      with (b :: alter (fun _ : bool => false) r bs).
    rewrite !refsOfFlags_cons. destruct b.
    + exists (S k). split; [exact Hk|]. rewrite Hdel. done.
    + by exists k.
Qed.

Lemma alive_resetAll ps : alive <$> resetAll ps = alive <$> ps.
Proof.
  unfold resetAll. rewrite <- list_fmap_compose. apply list_fmap_ext.
  intros _ p _. simpl. by destruct (alive p) eqn:Ha.
Qed.

Lemma alive_eliminated ref game :
  alive <$> players (eliminated ref game)
  = alter (fun _ => false) ref (alive <$> players game).
Proof.
  rewrite players_eliminated.
  rewrite (list_fmap_alter alive (with_alive false) (fun _ => false))
    by (apply Forall_forall; done).
  rewrite alive_resetAll.
  rewrite (list_fmap_alter alive (with_lastAction (Some shoot)) id)
    by (apply Forall_forall; done).
  rewrite (list_alter_id id) by done. done.
Qed.

(** Eliminating the player at index [k] of the alive view removes that index
    from the view and keeps the order of the others. *)
Lemma eliminated_refs game k ref cp :
  getAlivePlayers game !! k = Some (ref, cp) →
  (getAlivePlayers (eliminated ref game)).*1 = delete k (getAlivePlayers game).*1.
Proof.
  intros Hk.
  assert ((getAlivePlayers game).*1 !! k = Some ref) as Hk'
    by by rewrite list_lookup_fmap, Hk.
  destruct (proj1 (elem_of_getAlivePlayers game ref cp)) as [Hp Ha];
    [by eapply list_elem_of_lookup_2|].
  rewrite !getAlivePlayers_refs, alive_eliminated in *.
  destruct (refsOfFlags_clear id (alive <$> players game) ref) as (k' & Hk'' & ->).
  { by rewrite list_lookup_fmap, Hp, <- Ha. }
  f_equal.
  eapply NoDup_lookup; [apply (NoDup_refsOfFlags id); apply _ | done | done].
Qed.

Lemma mod_succ_ne (a n : nat) : 2 ≤ n → a mod n ≠ S a mod n.
Proof.
  intros Hn Heq.
  pose proof (Nat.div_mod_eq a n) as H1.
  pose proof (Nat.div_mod_eq (S a) n) as H2.
  rewrite <- Heq in H2.
  assert (n * (S a / n) = n * (a / n) + 1) as H3 by lia.
  assert (a / n < S a / n ∨ S a / n ≤ a / n) as [Hlt|Hle] by lia; nia.
Qed.

Lemma lookup_delete_next (l : list nat) (k n : nat) :
  length l = n → 3 ≤ n → k < n →
  delete k l !! ((k + 1) mod (n - 1)) = l !! ((k + 2) mod n).
Proof.
  intros Hlen Hn Hk.
  destruct (decide (k + 2 < n)) as [Hlt|Hge].
  - rewrite (Nat.mod_small (k + 1) (n - 1)), (Nat.mod_small (k + 2) n) by lia.
    rewrite list_lookup_delete_ge by lia. f_equal. lia.
  - destruct (decide (k + 2 = n)) as [Heq|Hne].
    + replace (k + 1) with (n - 1) by lia. replace (k + 2) with n by lia.
      rewrite !Nat.Div0.mod_same. by rewrite list_lookup_delete_lt by lia.
    + assert ((k + 1) mod (n - 1) = 1) as ->.
      { symmetry. apply (Nat.mod_unique _ _ 1); lia. }
      assert ((k + 2) mod n = 1) as ->.
      { symmetry. apply (Nat.mod_unique _ _ 1); lia. }
      by rewrite list_lookup_delete_lt by lia.
Qed.

Lemma rem_of_nat (a b : nat) :
  0 < b → Z.rem (Z.of_nat a) (Z.of_nat b) = Z.of_nat (a mod b).
Proof. intros Hb. rewrite Z.rem_mod_nonneg by lia. by rewrite Nat2Z.inj_mod. Qed.

(** X3. In every game with three or more alive players whose current player,
    at index [k] of the alive view, shoots and is eliminated, the turn goes to
    the player two places further in that view: the player right after the
    shooter is passed over. *)
Lemma elimination_passes_over_next
    (uid : string) (game : GameState) (k ref : nat) (cp : Player) :
  getAlivePlayers game !! k = Some (ref, cp) →
  currentTurnIndex game = Z.of_nat k →
  toLowerCase (userId cp) = toLowerCase uid →
  3 ≤ length (getAlivePlayers game) →
  fst <$> getCurrentPlayer (shootActive uid true game).1.1
  = (getAlivePlayers game).*1 !! ((k + 2) mod length (getAlivePlayers game))
  ∧ (getAlivePlayers game).*1 !! ((k + 1) mod length (getAlivePlayers game))
    ≠ (getAlivePlayers game).*1 !! ((k + 2) mod length (getAlivePlayers game)).
Proof.
  intros Hk Hidx Hid Hn.
  set (n := length (getAlivePlayers game)) in *.
  assert (k < n) as Hkn by by eapply lookup_lt_Some.
  assert (getAlivePlayers game ≠ []) as Hne by by destruct (getAlivePlayers game).
  assert (getCurrentPlayer game = Some (ref, cp)) as Hcur.
  { rewrite getCurrentPlayer_mod by (done || lia).
    fold n. by rewrite Hidx, Nat2Z.id, Nat.mod_small. }
  destruct (shootActive_current uid true game ref cp Hcur Hid) as [-> _].
  pose proof (eliminated_refs game k ref cp Hk) as Hrefs.
  assert (length (getAlivePlayers (eliminated ref game)) = n - 1) as Hlen.
  { rewrite <- (length_fmap fst), Hrefs, length_delete, length_fmap; [done|].
    rewrite list_lookup_fmap, Hk. by eexists. }
  assert (checkWinCondition (eliminated ref game) = None) as Hwin.
  { unfold checkWinCondition. rewrite Hlen.
    by destruct (Nat.eqb_spec (n - 1) 1) as [|_]; [lia|]. }
  unfold shootAccepted. rewrite Hwin. simpl.
  set (g' := advanceTurn (eliminated ref game)).
  assert (getAlivePlayers g' = getAlivePlayers (eliminated ref game)) as Hview
    by (apply getAlivePlayers_players, advanceTurn_players).
  assert (currentTurnIndex g' = Z.of_nat ((k + 1) mod (n - 1))) as Hidx'.
  { subst g'. unfold advanceTurn. rewrite Hlen.
    destruct (Nat.ltb_spec 0 (n - 1)) as [_|]; [|lia]. simpl.
    rewrite currentTurnIndex_shot, Hidx.
    replace (Z.of_nat k + 1)%Z with (Z.of_nat (k + 1)) by lia.
    apply rem_of_nat. lia. }
  split.
  - rewrite getCurrentPlayer_mod.
    + rewrite Hview, Hlen, Hidx', Nat2Z.id, Nat.Div0.mod_mod.
      rewrite <- list_lookup_fmap, Hrefs.
      apply lookup_delete_next; [by rewrite length_fmap | lia | done].
    + rewrite Hview. intros Hnil. rewrite Hnil in Hlen. simpl in Hlen. lia.
    + rewrite Hidx'. lia.
  - assert (NoDup (getAlivePlayers game).*1) as Hnd.
    { rewrite getAlivePlayers_refs. apply (NoDup_refsOfFlags id). apply _. }
    destruct (lookup_lt_is_Some_2 (getAlivePlayers game).*1 ((k + 1) mod n))
      as [x Hx].
    { rewrite length_fmap. apply Nat.mod_upper_bound. lia. }
    rewrite Hx. intros Hy. symmetry in Hy.
    pose proof (NoDup_lookup _ _ _ _ Hnd Hx Hy) as Heq.
    apply (mod_succ_ne (k + 1) n); [lia|].
    by replace (S (k + 1)) with (k + 2) by lia.
Qed.

(** Whoever the three players are: when the first of three alive players
    shoots from index 0 and is eliminated, the index becomes 1 in the alive
    view reduced to the other two, which designates the third player. *)
Lemma first_of_three_eliminated (a b c : Player) (pot : Z) (uid : string) :
  alive a = true → alive b = true → alive c = true →
  toLowerCase (userId a) = toLowerCase uid →
  getCurrentPlayer (mkGame [a; b; c] pot 0 active None) = Some (0, a)
  ∧ (shootActive uid true (mkGame [a; b; c] pot 0 active None)).1.1
    = mkGame [with_alive false (with_lastAction None a);
              with_lastAction None b; with_lastAction None c] pot 1 active None
  ∧ getCurrentPlayer (shootActive uid true (mkGame [a; b; c] pot 0 active None)).1.1
    = Some (2, with_lastAction None c).
Proof.
  intros Ha Hb Hc Hid.
  destruct a as [ua aa la xa], b as [ub ab lb xb], c as [uc ac lc xc].
  simpl in *. subst.
  assert (getCurrentPlayer
            (mkGame [mkPlayer ua aa true xa; mkPlayer ub ab true xb;
                     mkPlayer uc ac true xc] pot 0 active None)
          = Some (0, mkPlayer ua aa true xa)) as Hcur by reflexivity.
  split; [exact Hcur|].
  unfold shootActive. rewrite Hcur. simpl negb.
  rewrite bool_decide_eq_true_2 by done.
  split; reflexivity.
Qed.

(** C1, evaluated on the code.  With [A], [B], [C] enrolled in that order,
    the game started and [A] current: when [A] shoots and is eliminated, the
    alive players are [B], [C] and the player announced and made current is
    [C], not [B].  The same happens when the elimination of [A] comes after a
    click by [A] and passes by [B] and [C].  When [B] is the one eliminated
    (after a click by [A]), the next current player is [A], not [C]. *)
Theorem elimination_skips_next_alive :
  currentOf (run threeStarted demoBot) = Some "A"%string
  ∧ aliveOf (onShoot "town" "A" true (run threeStarted demoBot)).1
    = ["B"; "C"]%string
  ∧ currentOf (onShoot "town" "A" true (run threeStarted demoBot)).1
    = Some "C"%string
  ∧ (onShoot "town" "A" true (run threeStarted demoBot)).2
    = [MsgBang "A" 2 21; MsgYourTurn "C"]
  ∧ currentOf (run roundThenBang demoBot) = Some "C"%string
  ∧ currentOf
      (run (threeStarted ++ [EvShoot "town" "A" false]) demoBot)
    = Some "B"%string
  ∧ aliveOf
      (run (threeStarted ++ [EvShoot "town" "A" false; EvShoot "town" "B" true])
         demoBot)
    = ["A"; "C"]%string
  ∧ currentOf
      (run (threeStarted ++ [EvShoot "town" "A" false; EvShoot "town" "B" true])
         demoBot)
    = Some "A"%string.
Proof. repeat split; vm_compute; reflexivity. Qed.

(** * What the side conditions exclude *)

(** The winner is tested with [if (winner)]: a sole survivor whose identity
    is the empty string is not declared winner, and the game stays active. *)
Remark empty_identity_not_declared_winner :
  (shootActive "A" true namelessGame).1.2 = false
  ∧ status (shootActive "A" true namelessGame).1.1 = active
  ∧ length (getAlivePlayers (shootActive "A" true namelessGame).1.1) = 1.
Proof. repeat split. Qed.

(** The turn check compares identities up to letter case, the forced-shoot
    check exactly: an acting identity that differs from the current player's
    by case counts the current player among the others. *)
Remark other_case_identity_may_pass :
  rejected (passActive "A" forcedGame).2 = true
  ∧ rejected (passActive "a" forcedGame).2 = false.
Proof. split; vm_compute; reflexivity. Qed.

(** * The forced-shoot rule and the letter case of identities *)

(** C4, on the code.  In the town, after a click by [A] and passes by [B]
    and [C], it is [A]'s turn and the other alive players, [B] and [C], have
    both passed.  [/pass] under the stored identity ["A"] is answered with
    "you must shoot" and changes nothing.  [/pass] under ["a"], which the
    turn check (equality up to letter case) takes for the current player, is
    accepted: the filter that should leave the current player out compares
    identities exactly and keeps [A], who has not passed, among the others.
    The pass burns the pot, the rotation is reset and the turn moves on to
    [B].  Passes under ["a"], ["b"] and ["c"] in a row are all accepted and
    lead back to the position they started from, pot apart, so nobody ever
    has to shoot. *)
Theorem forced_shoot_rule_depends_on_letter_case :
  games (run forcedTown demoBot) !! "town"%string = Some forcedGame
  ∧ getCurrentPlayer forcedGame = Some (0, playerA)
  ∧ toLowerCase (userId playerA) = toLowerCase "a"
  ∧ othersAlive 0 forcedGame = [(1, passed playerB); (2, passed playerC)]
  ∧ otherPlayers "A" forcedGame = [(1, passed playerB); (2, passed playerC)]
  ∧ otherPlayers "a" forcedGame
    = [(0, playerA); (1, passed playerB); (2, passed playerC)]
  ∧ handle (EvPass "town" "A") (run forcedTown demoBot)
    = (run forcedTown demoBot, [MsgMustShoot])
  ∧ (handle (EvPass "town" "a") (run forcedTown demoBot)).2
    = [MsgPassed "a" 21 0; MsgEveryoneChickenedOut "B"]
  ∧ games (handle (EvPass "town" "a") (run forcedTown demoBot)).1 !! "town"%string
    = Some (mkGame [playerA; playerB; playerC] 0 1 active None)
  ∧ passesWith ["a"; "b"; "c"]%string forcedGame
    = Some (mkGame [playerA; passed playerB; passed playerC] 0 0 active None)
  ∧ passesWith ["a"; "b"; "c"; "a"; "b"; "c"]%string forcedGame
    = Some (mkGame [playerA; passed playerB; passed playerC] 0 0 active None).
Proof. repeat split; vm_compute; reflexivity. Qed.

(** * The theorems at work on small games *)

Ltac each_element H :=
  apply list_elem_of_In in H; simpl in H;
  repeat (destruct H as [H|H]; [subst|]); try done.

Lemma getCurrentPlayer_safe_witness :
  (∃ ref p, getCurrentPlayer lateGame = Some (ref, p) ∧ alive p = true)
  ∧ onShoot "town" "A" true (botWith emptyGame) = (botWith emptyGame, [MsgGameError])
  ∧ onPass "town" "A" (botWith emptyGame) = (botWith emptyGame, [MsgGameError]).
Proof.
  split.
  - destruct (getCurrentPlayer_safe lateGame) as [Hsome _].
    destruct Hsome as (ref & p & Hcur & _ & _ & _ & _ & Ha).
    + exists playerC. split; [|reflexivity].
      apply list_elem_of_In. simpl. tauto.
    + simpl. lia.
    + exists ref, p. split; assumption.
  - destruct (getCurrentPlayer_safe emptyGame) as [_ Hnone].
    destruct Hnone as [_ Herr].
    + intros p Hp. each_element Hp.
    + apply (Herr (botWith emptyGame) "town"%string "A"%string true);
        reflexivity.
Defined.

Lemma rejection_leaves_games_unchanged_witness :
  games (handle (EvPass "town" "B") (run threeStarted demoBot)).1
  = games (run threeStarted demoBot).
Proof.
  apply (rejection_leaves_games_unchanged (EvPass "town" "B")
           (run threeStarted demoBot)).
  vm_compute. reflexivity.
Defined.

Lemma deposit_enrolls_or_rejects_witness :
  (∃ game',
     games (onTip tipFromB oneJoined).1 !! "town"%string = Some game'
     ∧ players game' = [playerA; playerB]
     ∧ potBalance game' = 12%Z)
  ∧ (onTip tipSameAccount oneJoined).2 = [MsgAlreadyJoined "Z"]
  ∧ games (onTip tipSameAccount oneJoined).1 = games oneJoined.
Proof.
  split.
  - destruct (deposit_enrolls_or_rejects tipFromB oneJoined) as [Hnew _].
    + vm_compute. reflexivity.
    + vm_compute. reflexivity.
    + destruct Hnew as (game' & Hg & Hps & Hpot & _).
      * intros p Hp. vm_compute in Hp. each_element Hp.
      * exists game'. split; [exact Hg|]. split; [exact Hps | exact Hpot].
  - destruct (deposit_enrolls_or_rejects tipSameAccount oneJoined) as [_ Hdup].
    + vm_compute. reflexivity.
    + vm_compute. reflexivity.
    + apply Hdup. exists playerA. split.
      * apply list_elem_of_In. vm_compute. tauto.
      * left. vm_compute. reflexivity.
Defined.

Lemma zero_deposit_accepted_witness :
  rejected (onTip tipOfNothing oneJoined).2 = false
  ∧ ∃ game',
      games (onTip tipOfNothing oneJoined).1 !! "town"%string = Some game'
      ∧ players game' = [playerA; playerB]
      ∧ potBalance game' = 5%Z.
Proof.
  destruct (zero_deposit_accepted tipOfNothing oneJoined) as (Hacc & _ & Hgame).
  - reflexivity.
  - vm_compute. reflexivity.
  - vm_compute. reflexivity.
  - intros p Hp. vm_compute in Hp. each_element Hp.
  - split; [exact Hacc | exact Hgame].
Defined.

Lemma start_game_spec_witness :
  (∃ game',
     games (onStartGame "town" "B" twoJoined).1 !! "town"%string = Some game'
     ∧ game' = duelGame)
  ∧ (onStartGame "town" "A" oneJoined).1 = oneJoined.
Proof.
  split.
  - destruct (start_game_spec "town" "B" twoJoined) as (_ & Hstart & _).
    destruct (Hstart (mkGame [playerA; playerB] 12 0 waiting None))
      as (game' & Hg & Heq & _).
    + vm_compute. reflexivity.
    + reflexivity.
    + simpl. lia.
    + exists game'. split; [exact Hg | exact Heq].
  - destruct (start_game_spec "town" "A" oneJoined) as (_ & _ & Hfail).
    apply Hfail. vm_compute. reflexivity.
Defined.

Lemma shoot_resets_lastAction_witness :
  players (shootActive "A" true forcedGame).1.1
  = [dead playerA; playerB; playerC]
  ∧ players (shootActive "A" false forcedGame).1.1
    = [playerA; playerB; playerC].
Proof.
  split.
  - destruct (shoot_resets_lastAction "town" "A" true (botWith forcedGame) forcedGame)
      as ((ref & cp & Hcur & _ & Hat) & _).
    + reflexivity.
    + reflexivity.
    + vm_compute. reflexivity.
    + vm_compute in Hcur. injection Hcur as <- _.
      apply list_eq. intros i. rewrite Hat.
      destruct i as [|[|[|i]]]; reflexivity.
  - destruct (shoot_resets_lastAction "town" "A" false (botWith forcedGame) forcedGame)
      as ((ref & cp & Hcur & _ & Hat) & _).
    + reflexivity.
    + reflexivity.
    + vm_compute. reflexivity.
    + apply list_eq. intros i. rewrite Hat.
      destruct i as [|[|[|i]]]; reflexivity.
Defined.

Lemma win_detection_witness :
  status (shootActive "A" true duelGame).1.1 = finished
  ∧ ∃ ref survivor,
      getAlivePlayers (shootActive "A" true duelGame).1.1 = [(ref, survivor)]
      ∧ winner (shootActive "A" true duelGame).1.1 = Some (userId survivor)
      ∧ currentTurnIndex (shootActive "A" true duelGame).1.1 = 0%Z
      ∧ potBalance (shootActive "A" true duelGame).1.1 = 12%Z
      ∧ games (onShoot "town" "A" true (botWith duelGame)).1 !! "town"%string = None
      ∧ (onGameStatus "town" (onShoot "town" "A" true (botWith duelGame)).1).2
        = [MsgStatusNoGame].
Proof.
  destruct (win_detection "town" "A" true (botWith duelGame) duelGame)
    as (Hiff & Hfin & _).
  - reflexivity.
  - reflexivity.
  - vm_compute. reflexivity.
  - intros p Hp. each_element Hp.
  - assert (status (shootActive "A" true duelGame).1.1 = finished) as Hst.
    { apply Hiff. split; [reflexivity | vm_compute; reflexivity]. }
    split; [exact Hst | exact (Hfin Hst)].
Defined.

Lemma forced_shoot_rule_witness :
  onPass "town" "A" (botWith forcedGame) = (botWith forcedGame, [MsgMustShoot])
  ∧ rejected (onShoot "town" "A" true (botWith forcedGame)).2 = false
  ∧ rejected (onPass "town" "A" (botWith soloGame)).2 = false.
Proof.
  assert (NoDup ["A"; "B"; "C"]%string) as Hnd3.
  { repeat (apply NoDup_cons; split;
            [intros Hin; apply list_elem_of_In in Hin; simpl in Hin;
             repeat (destruct Hin as [Hin|Hin]; [discriminate Hin|]); exact Hin|]).
    apply NoDup_nil_2. }
  assert (NoDup ["A"; "B"]%string) as Hnd2.
  { repeat (apply NoDup_cons; split;
            [intros Hin; apply list_elem_of_In in Hin; simpl in Hin;
             repeat (destruct Hin as [Hin|Hin]; [discriminate Hin|]); exact Hin|]).
    apply NoDup_nil_2. }
  destruct (forced_shoot_rule "town" "A" (botWith forcedGame) forcedGame 0 playerA)
    as (Hforced & _).
  { reflexivity. } { reflexivity. } { vm_compute. reflexivity. } { reflexivity. }
  { exact Hnd3. }
  destruct Hforced as [Hpass Hshoot].
  { split.
    - vm_compute. discriminate.
    - intros rp Hrp. vm_compute in Hrp. each_element Hrp. }
  destruct (forced_shoot_rule "town" "A" (botWith soloGame) soloGame 0 playerA)
    as (_ & Hsolo & _).
  { reflexivity. } { reflexivity. } { vm_compute. reflexivity. } { reflexivity. }
  { exact Hnd2. }
  split; [exact Hpass|]. split; [exact (Hshoot true)|].
  apply Hsolo. vm_compute. reflexivity.
Defined.

Lemma pot_never_negative_witness :
  (∃ g,
     games (run roundThenBang demoBot) !! "town"%string = Some g
     ∧ (0 <= potBalance g)%Z)
  ∧ ∃ game',
      games (onPass "town" "A" (botWith poorGame)).1 !! "town"%string = Some game'
      ∧ potBalance game' = 0%Z.
Proof.
  destruct pot_never_negative as (Hrun & _ & Hpass).
  split.
  - assert (Forall nonneg_tip roundThenBang) as Hevs.
    { repeat (apply Forall_cons; split; [simpl; try lia; exact I|]).
      apply Forall_nil_2. }
    destruct (games (run roundThenBang demoBot) !! "town"%string) as [g|] eqn:Hg;
      [|vm_compute in Hg; discriminate Hg].
    exists g. split; [reflexivity|].
    exact (Hrun "0xb07"%string roundThenBang Hevs "town"%string g Hg).
  - destruct (Hpass "town"%string "A"%string (botWith poorGame) poorGame)
      as (game' & Hg & _ & _ & _ & Hzero & _).
    + reflexivity.
    + reflexivity.
    + vm_compute. reflexivity.
    + exists game'. split; [exact Hg|]. apply Hzero. vm_compute. reflexivity.
Defined.

(** * Further properties of the handlers *)

(** ** What a handler keeps of the player records *)

Lemma fmap_alter_keep {B : Type} (proj : Player → B) (f : Player → Player)
    (ps : list Player) (i : nat) :
  (∀ p, proj (f p) = proj p) → proj <$> alter f i ps = proj <$> ps.
Proof.
  intros Hf. apply list_eq. intros j.
  rewrite !list_lookup_fmap, list_lookup_alter.
  destruct (decide (i = j)) as [->|]; [|done].
  destruct (ps !! j); simpl; [by rewrite Hf | done].
Qed.

Lemma address_resetAll ps :
  smartAccountAddress <$> resetAll ps = smartAccountAddress <$> ps.
Proof.
  unfold resetAll. rewrite <- list_fmap_compose. apply list_fmap_ext.
  intros _ p _. simpl. by destruct (alive p).
Qed.

Lemma alive_shot ref game :
  alive <$> players (shot ref game) = alive <$> players game.
Proof. rewrite players_shot, alive_resetAll. by apply fmap_alter_keep. Qed.

Lemma address_shot ref game :
  smartAccountAddress <$> players (shot ref game)
  = smartAccountAddress <$> players game.
Proof. rewrite players_shot, address_resetAll. by apply fmap_alter_keep. Qed.

Lemma address_eliminated ref game :
  smartAccountAddress <$> players (eliminated ref game)
  = smartAccountAddress <$> players game.
Proof.
  unfold eliminated. simpl. rewrite fmap_alter_keep by done. apply address_shot.
Qed.

(** The players an accepted pass leaves behind. *)
Lemma players_passAccepted ref uid game :
  players (passAccepted ref uid game).1
  = alter (with_lastAction (Some pass)) ref (players game)
  ∨ players (passAccepted ref uid game).1
    = resetAll (alter (with_lastAction (Some pass)) ref (players game)).
Proof.
  unfold passAccepted. cbv zeta.
  destruct (getCurrentPlayer _) as [[? ?]|]; [destruct (checkForcedShoot _)|];
    simpl; rewrite ?resetAliveLastAction_eq; simpl;
    rewrite advanceTurn_players; simpl; auto.
Qed.

Lemma alive_passAccepted ref uid game :
  alive <$> players (passAccepted ref uid game).1 = alive <$> players game.
Proof.
  destruct (players_passAccepted ref uid game) as [-> | ->];
    rewrite ?alive_resetAll; by apply fmap_alter_keep.
Qed.

Lemma address_passAccepted ref uid game :
  smartAccountAddress <$> players (passAccepted ref uid game).1
  = smartAccountAddress <$> players game.
Proof.
  destruct (players_passAccepted ref uid game) as [-> | ->];
    rewrite ?address_resetAll; by apply fmap_alter_keep.
Qed.

Lemma address_shootActive uid isDead game :
  smartAccountAddress <$> players (shootActive uid isDead game).1.1
  = smartAccountAddress <$> players game.
Proof.
  destruct (rejected (shootActive uid isDead game).2) eqn:Hrej.
  - by rewrite (shootActive_rejected _ _ _ Hrej).
  - destruct (shootActive_accepted _ _ _ Hrej) as (ref & cp & _ & _ & ->).
    rewrite players_shootAccepted.
    destruct isDead; [apply address_eliminated | apply address_shot].
Qed.

Lemma address_passActive uid game :
  smartAccountAddress <$> players (passActive uid game).1
  = smartAccountAddress <$> players game.
Proof.
  destruct (rejected (passActive uid game).2) eqn:Hrej.
  - by rewrite (passActive_rejected _ _ Hrej).
  - destruct (passActive_accepted _ _ Hrej) as (ref & cp & _ & _ & _ & ->).
    apply address_passAccepted.
Qed.

(** The alive count is a function of the alive flags. *)
Lemma alive_refs_same g g' :
  alive <$> players g' = alive <$> players g →
  (getAlivePlayers g').*1 = (getAlivePlayers g).*1.
Proof. intros Heq. by rewrite !getAlivePlayers_refs, Heq. Qed.

Lemma alive_count_same g g' :
  alive <$> players g' = alive <$> players g →
  length (getAlivePlayers g') = length (getAlivePlayers g).
Proof.
  intros Heq. rewrite <- (length_fmap fst (getAlivePlayers g')),
    <- (length_fmap fst (getAlivePlayers g)).
  by rewrite (alive_refs_same g g').
Qed.

Lemma alive_count_eliminated game k ref cp :
  getAlivePlayers game !! k = Some (ref, cp) →
  length (getAlivePlayers (eliminated ref game))
  = length (getAlivePlayers game) - 1.
Proof.
  intros Hk.
  rewrite <- (length_fmap fst), (eliminated_refs game k ref cp Hk).
  rewrite length_delete, length_fmap; [done|].
  rewrite list_lookup_fmap, Hk. by eexists.
Qed.

Lemma getCurrentPlayer_lookup game ref cp :
  getCurrentPlayer game = Some (ref, cp) →
  ∃ k, getAlivePlayers game !! k = Some (ref, cp).
Proof.
  unfold getCurrentPlayer, js_index. intros H.
  destruct (length (getAlivePlayers game) =? 0); [done|].
  destruct (_ <? 0)%Z; [done|]. eauto.
Qed.


(** ** Active games always have a current player *)

Lemma filter_all_alive (ps : list Player) :
  (∀ p, p ∈ ps → alive p = true) → List.filter alive ps = ps.
Proof.
  induction ps as [|p ps IH]; intros Hall; [done|]. simpl.
  rewrite (Hall p) by apply list_elem_of_here. f_equal.
  apply IH. intros q Hq. apply Hall. by apply list_elem_of_further.
Qed.

Lemma all_alive_count (g : GameState) :
  (∀ p, p ∈ players g → alive p = true) →
  length (getAlivePlayers g) = length (players g).
Proof.
  intros Hall. rewrite <- (length_fmap snd), getAlivePlayers_snd.
  by rewrite filter_all_alive.
Qed.

Lemma advanceTurn_in_range (g : GameState) :
  0 < length (getAlivePlayers g) → (0 <= currentTurnIndex g)%Z →
  getAlivePlayers (advanceTurn g) = getAlivePlayers g
  ∧ (0 <= currentTurnIndex (advanceTurn g)
     < Z.of_nat (length (getAlivePlayers g)))%Z.
Proof.
  intros Hn Hidx. split.
  - apply getAlivePlayers_players, advanceTurn_players.
  - unfold advanceTurn.
    destruct (Nat.ltb_spec 0 (length (getAlivePlayers g))) as [_|]; [|lia].
    simpl. apply Z.rem_bound_pos; lia.
Qed.

Lemma active_ok_advance (g0 g : GameState) (n : nat) :
  status g = active → length (getAlivePlayers g) = n → 2 ≤ n →
  (0 <= currentTurnIndex g)%Z →
  active_ok (advanceTurn g).
Proof.
  intros Hst Hlen Hn Hidx _.
  destruct (advanceTurn_in_range g) as [Hview Hrange]; [lia | done |].
  rewrite Hview, Hlen in *. split; [done | lia].
Qed.

Lemma shootActive_active_ok uid isDead game :
  game_wf game → active_ok game → status game = active →
  active_ok (shootActive uid isDead game).1.1.
Proof.
  intros (_ & Hids & _) Hok Hst.
  destruct (Hok Hst) as [Hn Hidx].
  destruct (rejected (shootActive uid isDead game).2) eqn:Hrej.
  { by rewrite (shootActive_rejected _ _ _ Hrej). }
  destruct (shootActive_accepted _ _ _ Hrej) as (ref & cp & Hcur & _ & ->).
  unfold shootAccepted. destruct isDead.
  - destruct (getCurrentPlayer_lookup game ref cp Hcur) as [k Hk].
    pose proof (alive_count_eliminated game k ref cp Hk) as Hlen.
    destruct (truthy (checkWinCondition (eliminated ref game))) eqn:Hwin; simpl.
    + by intros ?.
    + apply (active_ok_advance game _ (length (getAlivePlayers game) - 1)).
      * by rewrite status_eliminated.
      * done.
      * destruct (decide (length (getAlivePlayers game) - 1 = 1)) as [Hone|]; [|lia].
        exfalso. rewrite <- Hlen in Hone.
        apply length_one in Hone as [[r p] Hal].
        rewrite (checkWinCondition_one _ r p Hal) in Hwin. simpl in Hwin.
        apply negb_false_iff, bool_decide_eq_true in Hwin.
        assert ((r, p) ∈ getAlivePlayers (eliminated ref game)) as Hin
          by (rewrite Hal; apply list_elem_of_here).
        apply elem_of_getAlivePlayers in Hin as [Hp _].
        apply list_elem_of_lookup_2 in Hp.
        by apply (userIds_nonempty_eliminated ref game p Hids).
      * rewrite currentTurnIndex_eliminated. lia.
  - simpl.
    apply (active_ok_advance game _ (length (getAlivePlayers game))).
    + simpl. by rewrite status_shot.
    + apply alive_count_same. simpl. apply alive_shot.
    + done.
    + simpl. rewrite currentTurnIndex_shot. lia.
Qed.

Lemma passAccepted_active_ok ref uid game :
  active_ok game → status game = active →
  active_ok (passAccepted ref uid game).1.
Proof.
  intros Hok Hst. destruct (Hok Hst) as [Hn Hidx].
  set (g1 := with_potBalance
               (potBalance game - Z.min (potBalance game) PASS_BURN)
               (setLastAction ref (Some pass) game)).
  assert (alive <$> players g1 = alive <$> players game) as Hflags
    by (simpl; by apply fmap_alter_keep).
  assert (active_ok (advanceTurn g1)) as Hadv.
  { apply (active_ok_advance game _ (length (getAlivePlayers game))).
    - done.
    - by apply alive_count_same.
    - done.
    - simpl. lia. }
  unfold passAccepted. cbv zeta. fold g1.
  destruct (getCurrentPlayer (advanceTurn g1)) as [[? ?]|]; [|done].
  destruct (checkForcedShoot (advanceTurn g1)); [|done]. simpl.
  rewrite resetAliveLastAction_eq. intros Hst'. simpl in Hst'.
  destruct (Hadv Hst') as [Hn' Hidx'].
  rewrite (alive_count_same (advanceTurn g1)); [done|].
  simpl. apply alive_resetAll.
Qed.

Lemma passActive_active_ok uid game :
  active_ok game → status game = active → active_ok (passActive uid game).1.
Proof.
  intros Hok Hst.
  destruct (rejected (passActive uid game).2) eqn:Hrej.
  - by rewrite (passActive_rejected _ _ Hrej).
  - destruct (passActive_accepted _ _ Hrej) as (ref & cp & _ & _ & _ & ->).
    by apply passAccepted_active_ok.
Qed.

Lemma handle_active_ok (ev : Event) (bot : Bot) :
  (∀ c g, games bot !! c = Some g → game_wf g ∧ active_ok g) →
  ∀ c g, games (handle ev bot).1 !! c = Some g → active_ok g.
Proof.
  intros Hinv c g'.
  assert ((∃ c' u, ev = EvStartGame c' u) ∨ ¬ ∃ c' u, ev = EvStartGame c' u)
    as [(c' & u & ->)|Hnot]
    by (destruct ev; eauto; right; intros (? & ? & ?); discriminate).
  - simpl. unfold onStartGame.
    destruct (games bot !! c') as [game|] eqn:Hg; [|apply Hinv].
    destruct (decide (status game = waiting)) as [Hst|Hst].
    2:{ rewrite bool_decide_eq_false_2 by done. apply Hinv. }
    rewrite bool_decide_eq_true_2 by done. simpl.
    destruct (Nat.ltb_spec (length (players game)) 2) as [|Hlen]; [apply Hinv|].
    cbv zeta.
    assert (<[c' := with_currentTurnIndex 0 (with_status active game)]>
              (games bot) !! c = Some g' → active_ok g') as Hins.
    { destruct (decide (c' = c)) as [->|Hne].
      - rewrite lookup_insert_eq. intros [= <-] _.
        destruct (Hinv c game Hg) as [(_ & _ & Hall) _].
        rewrite (getAlivePlayers_players _ game) by done.
        rewrite (all_alive_count game) by auto. simpl. lia.
      - rewrite lookup_insert_ne by done. apply Hinv. }
    destruct (getCurrentPlayer _) as [[? ?]|]; apply Hins.
  - intros [Hold|(old & Hfrom & Hup)]%handle_lookup; [by eapply Hinv|].
    destruct Hup as [event old Hst _|c' u old Hst|c' u d old Hst|c' u old Hst].
    + intros Hact. simpl in Hact. congruence.
    + exfalso. apply Hnot. eauto.
    + destruct Hfrom as [Hold|[_ ->]]; [|done].
      destruct (Hinv c old Hold) as [Hwf Hok].
      by apply shootActive_active_ok.
    + destruct Hfrom as [Hold|[_ ->]]; [|done].
      destruct (Hinv c old Hold) as [Hwf Hok].
      by apply passActive_active_ok.
Qed.

Lemma run_snoc (evs : list Event) (ev : Event) (bot : Bot) :
  run (evs ++ [ev]) bot = (handle ev (run evs bot)).1.
Proof. unfold run. by rewrite foldl_snoc. Qed.

Lemma reachable_active_ok (id : string) (evs : list Event) :
  Forall named_tip evs →
  ∀ c g, games (run evs (initialBot id)) !! c = Some g → active_ok g.
Proof.
  induction evs as [|ev evs IH] using rev_ind; intros Hevs c g.
  - done.
  - apply Forall_app in Hevs as [Hevs _]. rewrite run_snoc.
    apply handle_active_ok. intros c' g' Hg'. split.
    + by apply (reachable_wf id evs Hevs c' g').
    + by apply (IH Hevs c' g').
Qed.

Lemma active_ok_current (g : GameState) :
  active_ok g → status g = active →
  ∃ ref p, getCurrentPlayer g = Some (ref, p) ∧ alive p = true.
Proof.
  intros Hok Hst. destruct (Hok Hst) as [Hn Hidx].
  destruct (getCurrentPlayer_in_range g) as ([ref p] & Hcur & _).
  - intros Hnil. rewrite Hnil in Hn. simpl in Hn. lia.
  - lia.
  - exists ref, p. split; [done|]. by apply (getCurrentPlayer_alive g ref p).
Qed.

Lemma announceNext_no_fault (g : GameState) :
  forallb (fun r => negb (is_fault r)) (announceNext g) = true.
Proof. unfold announceNext. by destruct (getCurrentPlayer g) as [[? ?]|]. Qed.

Lemma shootActive_no_fault uid isDead game :
  is_Some (getCurrentPlayer game) →
  forallb (fun r => negb (is_fault r)) (shootActive uid isDead game).2 = true.
Proof.
  intros [[ref cp] Hcur]. unfold shootActive. rewrite Hcur.
  destruct (negb (bool_decide _)); [done|].
  destruct (negb (alive cp)); [done|].
  destruct isDead.
  - destruct (truthy _); [done|]. simpl. apply announceNext_no_fault.
  - simpl. apply announceNext_no_fault.
Qed.

Lemma passActive_no_fault uid game :
  is_Some (getCurrentPlayer game) →
  forallb (fun r => negb (is_fault r)) (passActive uid game).2 = true.
Proof.
  intros [[ref cp] Hcur]. unfold passActive. rewrite Hcur.
  destruct (negb (bool_decide _)); [done|].
  destruct (negb (alive cp)); [done|].
  destruct (allOthersPassed uid game); [done|].
  clear Hcur. cbv zeta.
  destruct (getCurrentPlayer _) as [[? ?]|]; [|reflexivity].
  destruct (checkForcedShoot _); reflexivity.
Qed.

Lemma handle_no_fault (ev : Event) (bot : Bot) :
  (∀ c g, games bot !! c = Some g → game_wf g ∧ active_ok g) →
  forallb (fun r => negb (is_fault r)) (handle ev bot).2 = true.
Proof.
  intros Hinv. destruct ev as [event|c u|c u|c u d|c u|c|c]; simpl; try done.
  - unfold onTip. destruct (negb (bool_decide _)); [done|].
    destruct (games bot !! tipChannelId event) as [game|]; [|done].
    destruct (negb (bool_decide (status game = waiting))); [done|].
    cbv zeta. by destruct (find _ _).
  - unfold onStartGame. destruct (games bot !! c) as [game|] eqn:Hg; [|done].
    destruct (decide (status game = waiting)) as [Hst|Hst].
    2:{ by rewrite bool_decide_eq_false_2. }
    rewrite bool_decide_eq_true_2 by done. simpl.
    destruct (Nat.ltb_spec (length (players game)) 2) as [|Hlen]; [done|].
    cbv zeta. rewrite getCurrentPlayer_zero by done.
    destruct (Hinv c game Hg) as [(_ & _ & Hall) _].
    pose proof (all_alive_count game (Hall Hst)) as Hcount.
    rewrite (getAlivePlayers_players _ game) by done.
    destruct (getAlivePlayers game) as [|[? ?] ?]; [simpl in Hcount; lia | done].
  - unfold onShoot. destruct (games bot !! c) as [game|] eqn:Hg; [|done].
    destruct (decide (status game = active)) as [Hst|Hst].
    2:{ by rewrite bool_decide_eq_false_2. }
    rewrite bool_decide_eq_true_2 by done. simpl.
    destruct (Hinv c game Hg) as [_ Hok].
    destruct (active_ok_current game Hok Hst) as (ref & p & Hcur & _).
    pose proof (shootActive_no_fault u d game ltac:(by eexists)) as Hout.
    by destruct (shootActive u d game) as [[? ?] ?].
  - unfold onPass. destruct (games bot !! c) as [game|] eqn:Hg; [|done].
    destruct (decide (status game = active)) as [Hst|Hst].
    2:{ by rewrite bool_decide_eq_false_2. }
    rewrite bool_decide_eq_true_2 by done. simpl.
    destruct (Hinv c game Hg) as [_ Hok].
    destruct (active_ok_current game Hok Hst) as (ref & p & Hcur & _).
    pose proof (passActive_no_fault u game ltac:(by eexists)) as Hout.
    by destruct (passActive u game) as [? ?].
  - unfold onGameStatus. by destruct (games bot !! c).
Qed.

(** X2. After any sequence of events whose tips name their sender, every
    stored active game has at least two alive players, a turn index inside
    the alive view and therefore a current player, who is alive; and
    whatever event comes next, the bot neither answers with the game-error
    message nor throws. *)
Theorem reachable_active_game_has_current_player (id : string) (evs : list Event) :
  Forall named_tip evs →
  (∀ c g, games (run evs (initialBot id)) !! c = Some g → status g = active →
     2 ≤ length (getAlivePlayers g)
     ∧ (0 <= currentTurnIndex g < Z.of_nat (length (getAlivePlayers g)))%Z
     ∧ ∃ ref p, getCurrentPlayer g = Some (ref, p) ∧ alive p = true)
  ∧ (∀ ev, forallb (fun r => negb (is_fault r))
             (handle ev (run evs (initialBot id))).2 = true).
Proof.
  intros Hevs. split.
  - intros c g Hg Hst.
    pose proof (reachable_active_ok id evs Hevs c g Hg) as Hok.
    destruct (Hok Hst) as [Hn Hidx]. repeat split; try done; try lia.
    by apply active_ok_current.
  - intros ev. apply handle_no_fault. intros c g Hg. split.
    + by apply (reachable_wf id evs Hevs c g).
    + by apply (reachable_active_ok id evs Hevs c g).
Qed.

(** ** Turn order under actions that eliminate nobody *)

Lemma resetAll_alter_alive (a : option Action) (ps : list Player) (ref : nat) (p : Player) :
  ps !! ref = Some p → alive p = true →
  resetAll (alter (with_lastAction a) ref ps) = resetAll ps.
Proof.
  intros Hp Ha. apply list_eq. intros i. unfold resetAll.
  rewrite !list_lookup_fmap, list_lookup_alter.
  destruct (decide (ref = i)) as [<-|]; [|done].
  rewrite Hp. simpl. by rewrite Ha.
Qed.

(** A game with the same alive flags and identities has, at an index inside
    the alive view, the same slot as current player. *)
Lemma current_in_same_view (g g' : GameState) (j : nat) :
  alive <$> players g' = alive <$> players g →
  userId <$> players g' = userId <$> players g →
  currentTurnIndex g' = Z.of_nat j → j < length (getAlivePlayers g) →
  ∃ r p p',
    getAlivePlayers g !! j = Some (r, p)
    ∧ getCurrentPlayer g' = Some (r, p')
    ∧ userId p' = userId p.
Proof.
  intros Hflags Hids Hidx Hj.
  pose proof (alive_refs_same g g' Hflags) as Hrefs.
  pose proof (alive_count_same g g' Hflags) as Hlen.
  destruct (lookup_lt_is_Some_2 (getAlivePlayers g) j Hj) as [[r p] Hp].
  destruct (lookup_lt_is_Some_2 (getAlivePlayers g') j) as [[r' p'] Hp'];
    [lia|].
  assert (r' = r) as ->.
  { assert ((getAlivePlayers g').*1 !! j = Some r') as H1
      by by rewrite list_lookup_fmap, Hp'.
    rewrite Hrefs, list_lookup_fmap, Hp in H1. by simplify_eq/=. }
  exists r, p, p'. split; [done|]. split.
  - rewrite getCurrentPlayer_mod.
    + by rewrite Hidx, Nat2Z.id, Hlen, Nat.mod_small.
    + intros Hnil. rewrite Hnil in Hlen. simpl in Hlen. lia.
    + lia.
  - apply list_elem_of_lookup_2, elem_of_getAlivePlayers in Hp as [Hp _].
    apply list_elem_of_lookup_2, elem_of_getAlivePlayers in Hp' as [Hp' _].
    assert ((userId <$> players g') !! r = Some (userId p')) as H1
      by by rewrite list_lookup_fmap, Hp'.
    rewrite Hids, list_lookup_fmap, Hp in H1. by simplify_eq/=.
Qed.

Lemma advanceTurn_of_nat (g : GameState) (k n : nat) :
  length (getAlivePlayers g) = n → 0 < n → currentTurnIndex g = Z.of_nat k →
  advanceTurn g = with_currentTurnIndex (Z.of_nat ((k + 1) mod n)) g.
Proof.
  intros Hlen Hn Hidx. unfold advanceTurn. rewrite Hlen, Hidx.
  destruct (Nat.ltb_spec 0 n) as [_|]; [|lia].
  replace (Z.of_nat k + 1)%Z with (Z.of_nat (k + 1)) by lia.
  by rewrite rem_of_nat.
Qed.

(** X4. When the current player, at index [k] of the alive view, shoots and
    survives, the game stored is the old one with [lastAction] reset to null
    for every alive player and nobody else touched, [GRIT_BONUS] added to the
    pot and the turn index set to [(k + 1) mod n], [n] the alive count; the
    player announced is the alive player that follows the shooter in
    enrollment order, wrapping around at the end. *)
Theorem click_passes_turn_on
    (uid : string) (game : GameState) (k ref : nat) (cp : Player) :
  getAlivePlayers game !! k = Some (ref, cp) →
  currentTurnIndex game = Z.of_nat k →
  toLowerCase (userId cp) = toLowerCase uid →
  ∃ r p,
    getAlivePlayers game !! ((k + 1) mod length (getAlivePlayers game))
    = Some (r, p)
    ∧ shootActive uid false game
      = (mkGame (resetAll (players game)) (potBalance game + GRIT_BONUS)
           (Z.of_nat ((k + 1) mod length (getAlivePlayers game)))
           (status game) (winner game),
         false,
         [MsgClick uid (potBalance game + GRIT_BONUS); MsgYourTurn (userId p)]).
Proof.
  intros Hk Hidx Hid.
  set (n := length (getAlivePlayers game)).
  assert (k < n) as Hkn by by eapply lookup_lt_Some.
  destruct (proj1 (elem_of_getAlivePlayers game ref cp)) as [Hp Ha];
    [by eapply list_elem_of_lookup_2|].
  assert (getCurrentPlayer game = Some (ref, cp)) as Hcur.
  { rewrite getCurrentPlayer_mod.
    - fold n. by rewrite Hidx, Nat2Z.id, Nat.mod_small.
    - intros Hnil. rewrite Hnil in Hk. done.
    - lia. }
  destruct (shootActive_current uid false game ref cp Hcur Hid) as [-> _].
  unfold shootAccepted.
  set (g1 := with_potBalance (potBalance (shot ref game) + GRIT_BONUS)
               (shot ref game)).
  assert (g1 = mkGame (resetAll (players game)) (potBalance game + GRIT_BONUS)
                 (currentTurnIndex game) (status game) (winner game)) as Hg1.
  { subst g1. unfold shot. rewrite resetAliveLastAction_eq. simpl.
    unfold with_potBalance, with_players. simpl.
    by rewrite (resetAll_alter_alive _ _ _ cp). }
  assert (alive <$> players g1 = alive <$> players game) as Hflags
    by (rewrite Hg1; simpl; apply alive_resetAll).
  assert (userId <$> players g1 = userId <$> players game) as Hids
    by (rewrite Hg1; simpl; apply resetAll_userIds).
  assert (advanceTurn g1
          = with_currentTurnIndex (Z.of_nat ((k + 1) mod n)) g1) as Hadv.
  { apply advanceTurn_of_nat; [by apply alive_count_same | lia |].
    by rewrite Hg1. }
  destruct (current_in_same_view game (advanceTurn g1) ((k + 1) mod n))
    as (r & p & p' & Hnext & Hcur' & Hsame).
  - by rewrite advanceTurn_players.
  - by rewrite advanceTurn_players.
  - by rewrite Hadv.
  - apply Nat.mod_upper_bound. lia.
  - exists r, p. split; [done|].
    unfold announceNext. rewrite Hcur', Hsame, Hadv, Hg1. done.
Qed.

Lemma checkForcedShoot_true (g : GameState) :
  checkForcedShoot g = true →
  2 ≤ length (getAlivePlayers g)
  ∧ ∀ rp, rp ∈ getAlivePlayers g → lastAction rp.2 = Some pass.
Proof.
  unfold checkForcedShoot.
  destruct (Nat.ltb_spec (length (getAlivePlayers g)) 2) as [|Hn]; [done|].
  rewrite forallb_forall. intros Hall. split; [done|].
  intros rp Hin%list_elem_of_In. exact (bool_decide_eq_true_1 _ (Hall rp Hin)).
Qed.

(** After a pass that the forced-shoot rule let through, it is never the
    case that every alive player has passed: some other alive player has not. *)
Lemma no_full_pass_rotation (game g1 : GameState) (ref : nat) (cp : Player) :
  players game !! ref = Some cp →
  NoDup (userId <$> players game) →
  allOthersPassed (userId cp) game = false →
  alive <$> players g1 = alive <$> players game →
  (∀ r, r ≠ ref → players g1 !! r = players game !! r) →
  checkForcedShoot g1 = false.
Proof.
  intros Hcp Hnd Hfree Hflags Hsame.
  destruct (checkForcedShoot g1) eqn:Hforced; [exfalso|done].
  apply checkForcedShoot_true in Hforced as [Hn Hall].
  assert (allOthersPassed (userId cp) game = true) as Hcontra; [|congruence].
  apply allOthersPassed_true.
  rewrite (otherPlayers_othersAlive game ref cp Hcp Hnd).
  assert (∀ r p, (r, p) ∈ getAlivePlayers game → r ≠ ref →
                 (r, p) ∈ othersAlive ref game) as Hother.
  { intros r p Hin Hne. unfold othersAlive.
    apply list_elem_of_In, filter_In. split; [by apply list_elem_of_In|].
    simpl. by rewrite bool_decide_eq_false_2. }
  split.
  - rewrite (alive_count_same game g1 Hflags) in Hn.
    assert (NoDup (getAlivePlayers game).*1) as Hrefs.
    { rewrite getAlivePlayers_refs. apply (NoDup_refsOfFlags id). apply _. }
    destruct (getAlivePlayers game) as [|[r1 p1] [|[r2 p2] l]] eqn:Hview;
      simpl in Hn; try lia.
    simpl in Hrefs. apply NoDup_cons in Hrefs as [Hr1 _].
    assert (r1 ≠ r2) as Hne12
      by (intros ->; apply Hr1; apply list_elem_of_here).
    destruct (decide (r1 = ref)) as [->|Hne1].
    + assert ((r2, p2) ∈ othersAlive ref game) as Hin.
      { apply Hother; [|congruence].
        apply list_elem_of_further, list_elem_of_here. }
      intros Hnil. rewrite Hnil in Hin. by apply elem_of_nil in Hin.
    + assert ((r1, p1) ∈ othersAlive ref game) as Hin.
      { apply Hother; [|done]. apply list_elem_of_here. }
      intros Hnil. rewrite Hnil in Hin. by apply elem_of_nil in Hin.
  - intros [r p] Hin. simpl.
    unfold othersAlive in Hin.
    apply list_elem_of_In, filter_In in Hin as [Hin Hne]. simpl in Hne.
    apply negb_true_iff, bool_decide_eq_false in Hne.
    apply list_elem_of_In, elem_of_getAlivePlayers in Hin as [Hp Ha].
    apply (Hall (r, p)). apply elem_of_getAlivePlayers.
    by rewrite Hsame.
Qed.

(** The closed form of an accepted pass by the current player. *)
Lemma passActive_by_current
    (uid : string) (game : GameState) (k ref : nat) (cp : Player) :
  getAlivePlayers game !! k = Some (ref, cp) →
  currentTurnIndex game = Z.of_nat k →
  userId cp = uid →
  NoDup (userId <$> players game) →
  rejected (passActive uid game).2 = false →
  ∃ r p,
    getAlivePlayers game !! ((k + 1) mod length (getAlivePlayers game))
    = Some (r, p)
    ∧ passActive uid game
      = (mkGame (alter (with_lastAction (Some pass)) ref (players game))
           (potBalance game - Z.min (potBalance game) PASS_BURN)
           (Z.of_nat ((k + 1) mod length (getAlivePlayers game)))
           (status game) (winner game),
         [MsgPassed uid (Z.min (potBalance game) PASS_BURN)
            (potBalance game - Z.min (potBalance game) PASS_BURN);
          MsgYourTurn (userId p)]).
Proof.
  intros Hk Hidx Huid Hnd Hacc.
  set (n := length (getAlivePlayers game)).
  assert (k < n) as Hkn by by eapply lookup_lt_Some.
  destruct (proj1 (elem_of_getAlivePlayers game ref cp)) as [Hp Ha];
    [by eapply list_elem_of_lookup_2|].
  assert (getCurrentPlayer game = Some (ref, cp)) as Hcur.
  { rewrite getCurrentPlayer_mod.
    - fold n. by rewrite Hidx, Nat2Z.id, Nat.mod_small.
    - intros Hnil. rewrite Hnil in Hk. done.
    - lia. }
  assert (toLowerCase (userId cp) = toLowerCase uid) as Hid by by rewrite Huid.
  rewrite (passActive_current uid game ref cp Hcur Hid) in Hacc |- *.
  destruct (allOthersPassed uid game) eqn:Hfree; [done|]. clear Hacc.
  unfold passAccepted. cbv zeta.
  set (g1 := with_potBalance
               (potBalance game - Z.min (potBalance game) PASS_BURN)
               (setLastAction ref (Some pass) game)).
  assert (alive <$> players g1 = alive <$> players game) as Hflags
    by (simpl; by apply fmap_alter_keep).
  assert (userId <$> players g1 = userId <$> players game) as Hids
    by (simpl; by apply fmap_alter_keep).
  assert (advanceTurn g1
          = with_currentTurnIndex (Z.of_nat ((k + 1) mod n)) g1) as Hadv.
  { apply advanceTurn_of_nat; [by apply alive_count_same | lia | done]. }
  assert (checkForcedShoot (advanceTurn g1) = false) as Hnofull.
  { apply (no_full_pass_rotation game _ ref cp); try done.
    - by rewrite Huid.
    - by rewrite advanceTurn_players.
    - intros r Hne. rewrite advanceTurn_players. simpl.
      by rewrite list_lookup_alter_ne. }
  destruct (current_in_same_view game (advanceTurn g1) ((k + 1) mod n))
    as (r & p & p' & Hnext & Hcur' & Hsame).
  - by rewrite advanceTurn_players.
  - by rewrite advanceTurn_players.
  - by rewrite Hadv.
  - apply Nat.mod_upper_bound. lia.
  - exists r, p. split; [done|].
    rewrite Hcur', Hnofull, Hsame, Hadv. done.
Qed.

Lemma checkForcedShoot_players (g g' : GameState) :
  players g' = players g → checkForcedShoot g' = checkForcedShoot g.
Proof.
  intros Hp. unfold checkForcedShoot.
  by rewrite (getAlivePlayers_players g' g Hp).
Qed.

Lemma checkForcedShoot_intro (g : GameState) :
  2 ≤ length (getAlivePlayers g) →
  (∀ rp, rp ∈ getAlivePlayers g → lastAction rp.2 = Some pass) →
  checkForcedShoot g = true.
Proof.
  intros Hn Hall. unfold checkForcedShoot.
  destruct (Nat.ltb_spec (length (getAlivePlayers g)) 2) as [|_]; [lia|].
  apply forallb_forall. intros rp Hin%list_elem_of_In.
  by apply bool_decide_eq_true_2, Hall.
Qed.

(** Once the current player is marked as having passed, every alive player
    has passed exactly when there are at least two alive players and all the
    others had passed already. *)
Lemma full_rotation_iff (game : GameState) (ref : nat) (cp : Player) :
  players game !! ref = Some cp → alive cp = true →
  checkForcedShoot
    (with_players (alter (with_lastAction (Some pass)) ref (players game)) game)
  = true
  ↔ 2 ≤ length (getAlivePlayers game)
    ∧ ∀ rp, rp ∈ othersAlive ref game → lastAction rp.2 = Some pass.
Proof.
  intros Hcp Ha.
  set (g1 := with_players (alter (with_lastAction (Some pass)) ref (players game))
               game).
  assert (alive <$> players g1 = alive <$> players game) as Hflags
    by (simpl; by apply fmap_alter_keep).
  split.
  - intros [Hn Hall]%checkForcedShoot_true.
    split; [by rewrite <- (alive_count_same game g1 Hflags)|].
    intros [r p] Hin. simpl. unfold othersAlive in Hin.
    apply list_elem_of_In, filter_In in Hin as [Hin Hne]. simpl in Hne.
    apply negb_true_iff, bool_decide_eq_false in Hne.
    apply list_elem_of_In, elem_of_getAlivePlayers in Hin as [Hp Hal].
    apply (Hall (r, p)). apply elem_of_getAlivePlayers. split; [|done].
    simpl. by rewrite list_lookup_alter_ne.
  - intros [Hn Hall]. apply checkForcedShoot_intro.
    + by rewrite (alive_count_same game g1 Hflags).
    + intros [r q] [Hq Hal]%elem_of_getAlivePlayers. simpl.
      simpl in Hq. rewrite list_lookup_alter in Hq.
      destruct (decide (ref = r)) as [<-|Hne].
      * rewrite Hcp in Hq. by simplify_eq/=.
      * apply (Hall (r, q)). unfold othersAlive.
        apply list_elem_of_In, filter_In. split.
        -- by apply list_elem_of_In, elem_of_getAlivePlayers.
        -- simpl. by rewrite bool_decide_eq_false_2.
Qed.

(** X5. An accepted pass by the current player, at index [k] of the alive
    view, under an acting identity that equals the stored one up to letter
    case (what the handler checks).  The old game is kept with that player's
    [lastAction] set to ['pass'] and no other player record touched, the pot
    reduced by [min(potBalance, PASS_BURN)] and the turn index set to
    [(k + 1) mod n]; the answer is the burn and the announcement of the
    alive player that follows in enrollment order.  If every alive player
    has then passed, that is, there are at least two and all the others had
    passed already, the [lastAction] of every alive player is reset to null
    on top of that and the announcement is "everyone chickened out".  This
    last case is excluded when the acting identity is the stored one letter
    for letter and the identities of the game are distinct; it does occur
    for an acting identity that differs by case. *)
Theorem pass_effect
    (uid : string) (game : GameState) (k ref : nat) (cp : Player) :
  getAlivePlayers game !! k = Some (ref, cp) →
  currentTurnIndex game = Z.of_nat k →
  toLowerCase (userId cp) = toLowerCase uid →
  rejected (passActive uid game).2 = false →
  ∃ r p,
    getAlivePlayers game !! ((k + 1) mod length (getAlivePlayers game))
    = Some (r, p)
    ∧ passActive uid game
      = (if checkForcedShoot
              (with_players
                 (alter (with_lastAction (Some pass)) ref (players game)) game)
         then
           (mkGame (resetAll (alter (with_lastAction (Some pass)) ref (players game)))
              (potBalance game - Z.min (potBalance game) PASS_BURN)
              (Z.of_nat ((k + 1) mod length (getAlivePlayers game)))
              (status game) (winner game),
            [MsgPassed uid (Z.min (potBalance game) PASS_BURN)
               (potBalance game - Z.min (potBalance game) PASS_BURN);
             MsgEveryoneChickenedOut (userId p)])
         else
           (mkGame (alter (with_lastAction (Some pass)) ref (players game))
              (potBalance game - Z.min (potBalance game) PASS_BURN)
              (Z.of_nat ((k + 1) mod length (getAlivePlayers game)))
              (status game) (winner game),
            [MsgPassed uid (Z.min (potBalance game) PASS_BURN)
               (potBalance game - Z.min (potBalance game) PASS_BURN);
             MsgYourTurn (userId p)]))
    ∧ (checkForcedShoot
         (with_players
            (alter (with_lastAction (Some pass)) ref (players game)) game)
       = true
       ↔ 2 ≤ length (getAlivePlayers game)
         ∧ ∀ rp, rp ∈ othersAlive ref game → lastAction rp.2 = Some pass)
    ∧ (userId cp = uid → NoDup (userId <$> players game) →
       checkForcedShoot
         (with_players
            (alter (with_lastAction (Some pass)) ref (players game)) game)
       = false).
Proof.
  intros Hk Hidx Hid Hacc.
  set (n := length (getAlivePlayers game)).
  assert (k < n) as Hkn by by eapply lookup_lt_Some.
  destruct (proj1 (elem_of_getAlivePlayers game ref cp)) as [Hp Ha];
    [by eapply list_elem_of_lookup_2|].
  assert (getCurrentPlayer game = Some (ref, cp)) as Hcur.
  { rewrite getCurrentPlayer_mod.
    - fold n. by rewrite Hidx, Nat2Z.id, Nat.mod_small.
    - intros Hnil. rewrite Hnil in Hk. done.
    - lia. }
  rewrite (passActive_current uid game ref cp Hcur Hid) in Hacc |- *.
  destruct (allOthersPassed uid game) eqn:Hfree; [done|]. clear Hacc.
  unfold passAccepted. cbv zeta.
  set (g1 := with_potBalance
               (potBalance game - Z.min (potBalance game) PASS_BURN)
               (setLastAction ref (Some pass) game)).
  set (marked := with_players
                   (alter (with_lastAction (Some pass)) ref (players game)) game).
  assert (alive <$> players g1 = alive <$> players game) as Hflags
    by (simpl; by apply fmap_alter_keep).
  assert (userId <$> players g1 = userId <$> players game) as Hids
    by (simpl; by apply fmap_alter_keep).
  assert (advanceTurn g1
          = with_currentTurnIndex (Z.of_nat ((k + 1) mod n)) g1) as Hadv.
  { apply advanceTurn_of_nat; [by apply alive_count_same | lia | done]. }
  assert (checkForcedShoot (advanceTurn g1) = checkForcedShoot marked) as Hfull.
  { apply checkForcedShoot_players. by rewrite advanceTurn_players. }
  destruct (current_in_same_view game (advanceTurn g1) ((k + 1) mod n))
    as (r & p & p' & Hnext & Hcur' & Hsame).
  - by rewrite advanceTurn_players.
  - by rewrite advanceTurn_players.
  - by rewrite Hadv.
  - apply Nat.mod_upper_bound. lia.
  - exists r, p. split; [done|]. split; [|split].
    + rewrite Hcur', Hfull, Hsame.
      destruct (checkForcedShoot marked); [|by rewrite Hadv].
      by rewrite resetAliveLastAction_eq, Hadv.
    + by apply (full_rotation_iff game ref cp).
    + intros Huid Hnd. rewrite <- Hfull.
      apply (no_full_pass_rotation game _ ref cp); try done.
      * by rewrite Huid.
      * by rewrite advanceTurn_players.
      * intros r0 Hne. rewrite advanceTurn_players. simpl.
        by rewrite list_lookup_alter_ne.
Qed.

(** ** Eliminations *)

Lemma players_eliminated_current (game : GameState) (ref : nat) (cp : Player) :
  getCurrentPlayer game = Some (ref, cp) →
  players (eliminated ref game)
  = alter (with_alive false) ref (resetAll (players game)).
Proof.
  intros Hcur. destruct (getCurrentPlayer_alive game ref cp Hcur) as [Hp Ha].
  by rewrite players_eliminated, (resetAll_alter_alive _ _ _ cp).
Qed.

(** X6. An accepted shot that goes off marks the shooter, and nobody else,
    as dead: the players left behind are the old ones with [lastAction]
    reset for those who were alive and the [alive] flag of the shooter
    cleared.  The alive count drops by exactly one and the pot is the one
    before the shot. *)
Theorem bang_eliminates_only_the_shooter
    (uid : string) (game : GameState) (ref : nat) (cp : Player) :
  getCurrentPlayer game = Some (ref, cp) →
  toLowerCase (userId cp) = toLowerCase uid →
  players (shootActive uid true game).1.1
  = alter (with_alive false) ref (resetAll (players game))
  ∧ alive <$> players (shootActive uid true game).1.1
    = <[ref := false]> (alive <$> players game)
  ∧ S (length (getAlivePlayers (shootActive uid true game).1.1))
    = length (getAlivePlayers game)
  ∧ potBalance (shootActive uid true game).1.1 = potBalance game.
Proof.
  intros Hcur Hid.
  destruct (shootActive_current uid true game ref cp Hcur Hid) as [Heq _].
  assert (players (shootActive uid true game).1.1 = players (eliminated ref game))
    as Hps by (rewrite Heq; apply (players_shootAccepted ref uid true game)).
  destruct (getCurrentPlayer_lookup game ref cp Hcur) as [k Hk].
  split; [|split; [|split]].
  - rewrite Hps. by apply (players_eliminated_current game ref cp).
  - rewrite Hps, alive_eliminated. symmetry. apply list_insert_alter.
  - rewrite (getAlivePlayers_players _ (eliminated ref game)) by done.
    rewrite (alive_count_eliminated game k ref cp Hk).
    apply lookup_lt_Some in Hk. lia.
  - destruct (potBalance_shootActive uid true game) as [Hpot|Hpot]; [done|].
    rewrite Heq in Hpot |- *. unfold shootAccepted in *.
    destruct (truthy _); simpl in *;
      rewrite ?advanceTurn_potBalance; apply potBalance_eliminated.
Qed.

(** X7. A shot deletes the game only when it goes off with exactly two
    players alive; the winner recorded and announced is then the identity,
    not empty, of the alive player that did not shoot. *)
Theorem game_over_only_from_a_duel (uid : string) (isDead : bool) (game : GameState) :
  (shootActive uid isDead game).1.2 = true →
  isDead = true
  ∧ length (getAlivePlayers game) = 2
  ∧ ∃ ref cp r p,
      getCurrentPlayer game = Some (ref, cp)
      ∧ (r, p) ∈ getAlivePlayers game ∧ r ≠ ref
      ∧ userId p ≠ ""%string
      ∧ winner (shootActive uid isDead game).1.1 = Some (userId p)
      ∧ status (shootActive uid isDead game).1.1 = finished
      ∧ (shootActive uid isDead game).2
        = [MsgBang uid 1 (potBalance game);
           MsgGameOver (userId p) (shootActive uid isDead game).1.1].
Proof.
  intros Hdel.
  destruct (rejected (shootActive uid isDead game).2) eqn:Hrej.
  { rewrite (shootActive_rejected _ _ _ Hrej) in Hdel. done. }
  destruct (shootActive_accepted _ _ _ Hrej) as (ref & cp & Hcur & Hid & Heq).
  rewrite Heq in Hdel |- *. unfold shootAccepted in *.
  destruct isDead; [|done].
  destruct (truthy (checkWinCondition (eliminated ref game))) eqn:Hwin; [|done].
  destruct (checkWinCondition (eliminated ref game)) as [w|] eqn:Hw; [|done].
  apply checkWinCondition_Some in Hw as (r & p' & Hview & ->).
  simpl in Hwin. apply negb_true_iff, bool_decide_eq_false in Hwin.
  destruct (getCurrentPlayer_lookup game ref cp Hcur) as [k Hk].
  pose proof (alive_count_eliminated game k ref cp Hk) as Hlen.
  rewrite Hview in Hlen. simpl in Hlen.
  assert (k < length (getAlivePlayers game)) as Hkn by by eapply lookup_lt_Some.
  assert ((r, p') ∈ getAlivePlayers (eliminated ref game)) as Hin
    by (rewrite Hview; apply list_elem_of_here).
  apply elem_of_getAlivePlayers in Hin as [Hp' Ha'].
  rewrite (players_eliminated_current game ref cp Hcur) in Hp'.
  rewrite list_lookup_alter in Hp'.
  destruct (decide (ref = r)) as [->|Hne].
  { destruct (resetAll (players game) !! r); simplify_eq/=. }
  unfold resetAll in Hp'. rewrite list_lookup_fmap in Hp'.
  destruct (players game !! r) as [p|] eqn:Hp; simplify_eq/=.
  assert (alive p = true ∧ userId (if alive p then with_lastAction None p else p)
                           = userId p) as [Ha Hu]
    by (destruct (alive p) eqn:Hal; simpl in *; [done | congruence]).
  split; [done|]. split; [lia|].
  exists ref, cp, r, p. rewrite Hu in *.
  split; [done|]. split; [by apply elem_of_getAlivePlayers|].
  split; [done|]. split; [done|]. split; [done|]. split; [done|].
  by rewrite Hview, potBalance_shot.
Qed.

(** ** What no handler does to a stored game *)

Lemma lookup_same_proj {B : Type} (proj : Player → B) (l l' : list Player)
    (i : nat) (p : Player) :
  proj <$> l' = proj <$> l → l !! i = Some p →
  ∃ p', l' !! i = Some p' ∧ proj p' = proj p.
Proof.
  intros Heq Hp.
  assert ((proj <$> l') !! i = Some (proj p)) as H
    by by rewrite Heq, list_lookup_fmap, Hp.
  rewrite list_lookup_fmap in H.
  destruct (l' !! i) as [p'|]; simplify_eq/=. by exists p'.
Qed.

Lemma alive_shootActive uid isDead game :
  alive <$> players (shootActive uid isDead game).1.1 = alive <$> players game
  ∨ ∃ ref, alive <$> players (shootActive uid isDead game).1.1
           = alter (fun _ => false) ref (alive <$> players game).
Proof.
  destruct (rejected (shootActive uid isDead game).2) eqn:Hrej.
  - left. by rewrite (shootActive_rejected _ _ _ Hrej).
  - destruct (shootActive_accepted _ _ _ Hrej) as (ref & cp & _ & _ & ->).
    rewrite players_shootAccepted. destruct isDead.
    + right. exists ref. apply alive_eliminated.
    + left. apply alive_shot.
Qed.

Lemma alive_passActive uid game :
  alive <$> players (passActive uid game).1 = alive <$> players game.
Proof.
  destruct (rejected (passActive uid game).2) eqn:Hrej.
  - by rewrite (passActive_rejected _ _ Hrej).
  - destruct (passActive_accepted _ _ Hrej) as (ref & cp & _ & _ & _ & ->).
    apply alive_passAccepted.
Qed.

(** What an update keeps of the record in each slot. *)
Lemma update_keeps_slots ev old g' i p :
  game_update ev old g' → players old !! i = Some p →
  ∃ p', players g' !! i = Some p'
        ∧ userId p' = userId p
        ∧ smartAccountAddress p' = smartAccountAddress p
        ∧ (alive p = false → alive p' = false).
Proof.
  intros Hup Hp.
  assert (∀ g, userId <$> players g = userId <$> players old →
               smartAccountAddress <$> players g
               = smartAccountAddress <$> players old →
               (alive <$> players g = alive <$> players old
                ∨ ∃ ref, alive <$> players g
                         = alter (fun _ => false) ref (alive <$> players old)) →
               ∃ p', players g !! i = Some p'
                     ∧ userId p' = userId p
                     ∧ smartAccountAddress p' = smartAccountAddress p
                     ∧ (alive p = false → alive p' = false)) as Hgen.
  { intros g Hids Haddr Hflags.
    destruct (lookup_same_proj userId _ _ i p Hids Hp) as (p' & Hp' & Hu).
    destruct (lookup_same_proj smartAccountAddress _ _ i p Haddr Hp)
      as (p'' & Hp'' & Ha).
    assert (p'' = p') as -> by congruence.
    exists p'. repeat split; try done. intros Hdead.
    assert ((alive <$> players g) !! i = Some (alive p')) as Hb
      by by rewrite list_lookup_fmap, Hp'.
    destruct Hflags as [Hflags|[ref Hflags]]; rewrite Hflags in Hb.
    - rewrite list_lookup_fmap, Hp in Hb. simplify_eq/=. congruence.
    - destruct (decide (ref = i)) as [->|Hne].
      + rewrite list_lookup_alter_eq, list_lookup_fmap, Hp in Hb.
        by simplify_eq/=.
      + rewrite list_lookup_alter_ne, list_lookup_fmap, Hp in Hb by done.
        simplify_eq/=. congruence. }
  destruct Hup as [event old _ _|c u old _|c u d old _|c u old _].
  - exists p. simpl. by rewrite lookup_app_l by by eapply lookup_lt_Some.
  - by exists p.
  - apply Hgen;
      [apply userIds_shootActive | apply address_shootActive
      | apply alive_shootActive].
  - apply Hgen;
      [apply userIds_passActive | apply address_passActive
      | left; apply alive_passActive].
Qed.

Lemma update_keeps_roster ev old g' :
  game_update ev old g' → status old ≠ waiting →
  userId <$> players g' = userId <$> players old
  ∧ smartAccountAddress <$> players g' = smartAccountAddress <$> players old.
Proof.
  intros Hup Hst.
  destruct Hup as [event old ? _|c u old ?|c u d old _|c u old _]; try done.
  - split; [apply userIds_shootActive | apply address_shootActive].
  - split; [apply userIds_passActive | apply address_passActive].
Qed.

(** X8. Whatever the event, a game that is stored for a channel before and
    after it keeps every player slot: the record in a slot has the same
    identity and the same account address afterwards, and a player who was
    dead is still dead.  Once the game has left [waiting], the roster as a
    whole (identities and addresses, in order) is the same: no tip adds a
    player to a started game and no handler removes or reorders players. *)
Theorem player_records_persist
    (ev : Event) (bot : Bot) (c : string) (old g' : GameState) :
  games bot !! c = Some old →
  games (handle ev bot).1 !! c = Some g' →
  (∀ i p, players old !! i = Some p →
     ∃ p', players g' !! i = Some p'
           ∧ userId p' = userId p
           ∧ smartAccountAddress p' = smartAccountAddress p
           ∧ (alive p = false → alive p' = false))
  ∧ (status old ≠ waiting →
       userId <$> players g' = userId <$> players old
       ∧ smartAccountAddress <$> players g' = smartAccountAddress <$> players old
       ∧ length (players g') = length (players old)).
Proof.
  intros Hold Hnew.
  apply handle_lookup in Hnew as [Hsame|(old' & [Hold'|[Hnone _]] & Hup)].
  - assert (g' = old) as -> by congruence. split.
    + intros i p Hp. by exists p.
    + done.
  - assert (old' = old) as -> by congruence. split.
    + intros i p Hp. by apply (update_keeps_slots ev old g').
    + intros Hst.
      destruct (update_keeps_roster ev old g' Hup Hst) as [Hids Haddr].
      repeat split; try done.
      by rewrite <- (length_fmap userId), Hids, length_fmap.
  - congruence.
Qed.

(** ** Channels and the eligibility map *)

(** X9. An event only ever touches the game of its own channel: the game
    stored for any other channel, or its absence, is the same before and
    after. *)
Theorem other_channels_untouched (ev : Event) (bot : Bot) (c : string) :
  c ≠ channelOf ev →
  games (handle ev bot).1 !! c = games bot !! c.
Proof.
  intros Hne. destruct ev as [event|c' u|c' u|c' u d|c' u|c'|c']; simpl in *;
    try done.
  - unfold onTip. destruct (negb (bool_decide _)); [done|].
    destruct (games bot !! tipChannelId event) as [game|].
    + destruct (negb (bool_decide (status game = waiting))); [done|].
      cbv zeta. destruct (find _ _); simpl; [done|].
      by rewrite lookup_insert_ne.
    + simpl. by rewrite insert_insert_eq, lookup_insert_ne.
  - unfold onStartGame. destruct (games bot !! c') as [game|]; [|done].
    destruct (negb (bool_decide _)); [done|].
    destruct (length (players game) <? 2); [done|]. cbv zeta.
    destruct (getCurrentPlayer _) as [[? ?]|]; simpl;
      by rewrite lookup_insert_ne.
  - unfold onShoot. destruct (games bot !! c') as [game|]; [|done].
    destruct (negb (bool_decide _)); [done|].
    destruct (shootActive u d game) as [[g' deleted] out]. simpl.
    destruct deleted; [by rewrite lookup_delete_ne | by rewrite lookup_insert_ne].
  - unfold onPass. destruct (games bot !! c') as [game|]; [|done].
    destruct (negb (bool_decide _)); [done|].
    destruct (passActive u game) as [g' out]. simpl.
    by rewrite lookup_insert_ne.
  - unfold onGameStatus. by destruct (games bot !! c').
Qed.

Lemma eligiblePlayers_not_tip (ev : Event) (bot : Bot) :
  (∀ event, ev ≠ EvTip event) →
  eligiblePlayers (handle ev bot).1 = eligiblePlayers bot
  ∧ botId (handle ev bot).1 = botId bot.
Proof.
  intros Hnot. destruct ev as [event|c u|c u|c u d|c u|c|c]; simpl; try done.
  - by destruct (Hnot event).
  - unfold onStartGame. destruct (games bot !! c) as [game|]; [|done].
    destruct (negb (bool_decide _)); [done|].
    destruct (length (players game) <? 2); [done|]. cbv zeta.
    by destruct (getCurrentPlayer _) as [[? ?]|].
  - unfold onShoot. destruct (games bot !! c) as [game|]; [|done].
    destruct (negb (bool_decide _)); [done|].
    by destruct (shootActive u d game) as [[g' deleted] out].
  - unfold onPass. destruct (games bot !! c) as [game|]; [|done].
    destruct (negb (bool_decide _)); [done|].
    by destruct (passActive u game) as [g' out].
  - unfold onGameStatus. by destruct (games bot !! c).
Qed.

Lemma update_addresses ev old g' p :
  (∀ event, ev ≠ EvTip event) → game_update ev old g' → p ∈ players g' →
  ∃ q, q ∈ players old ∧ smartAccountAddress q = smartAccountAddress p.
Proof.
  intros Hnot Hup Hin.
  assert (smartAccountAddress <$> players g' = smartAccountAddress <$> players old)
    as Heq.
  { destruct Hup as [event old _ _|c u old _|c u d old _|c u old _].
    - by destruct (Hnot event).
    - done.
    - apply address_shootActive.
    - apply address_passActive. }
  assert (smartAccountAddress p ∈ smartAccountAddress <$> players g') as Ha
    by (apply list_elem_of_fmap; by exists p).
  rewrite Heq in Ha. apply list_elem_of_fmap in Ha as (q & Hq & Hin').
  by exists q.
Qed.

Lemma is_Some_insert_other {V : Type} (m : gmap string V) (i j : string) (x : V) :
  is_Some (m !! j) → is_Some (<[i := x]> m !! j).
Proof.
  intros Hj. destruct (decide (i = j)) as [->|Hne].
  - rewrite lookup_insert_eq. by eexists.
  - by rewrite lookup_insert_ne.
Qed.

Lemma onTip_eligible_covers (event : TipEvent) (bot : Bot) :
  eligible_covers bot → eligible_covers (onTip event bot).1.
Proof.
  intros Hcov. unfold onTip. destruct (negb (bool_decide _)); [done|].
  destruct (games bot !! tipChannelId event) as [game|] eqn:Hg.
  - destruct (negb (bool_decide (status game = waiting))); [done|].
    cbv zeta. destruct (find _ _) as [existing|]; simpl.
    + intros c g p Hc Hp. simpl in *. apply is_Some_insert_other.
      by apply (Hcov c g p).
    + intros c g p Hc Hp. simpl in *.
      destruct (decide (tipChannelId event = c)) as [Heq|Hne].
      * subst c. rewrite lookup_insert_eq in Hc. simplify_eq/=.
        apply elem_of_app in Hp as [Hp|Hp].
        -- apply is_Some_insert_other.
           by apply (Hcov (tipChannelId event) game p).
        -- apply list_elem_of_singleton in Hp. subst p. simpl.
           rewrite lookup_insert_eq. by eexists.
      * rewrite lookup_insert_ne in Hc by done.
        apply is_Some_insert_other. by apply (Hcov c g p).
  - simpl. intros c g p Hc Hp. simpl in *.
    rewrite insert_insert_eq in Hc.
    destruct (decide (tipChannelId event = c)) as [Heq|Hne].
    + subst c. rewrite lookup_insert_eq in Hc. simplify_eq/=.
      apply list_elem_of_singleton in Hp. subst p. simpl.
      rewrite lookup_insert_eq. by eexists.
    + rewrite lookup_insert_ne in Hc by done.
      apply is_Some_insert_other. by apply (Hcov c g p).
Qed.

Lemma handle_eligible_covers (ev : Event) (bot : Bot) :
  eligible_covers bot → eligible_covers (handle ev bot).1.
Proof.
  intros Hcov.
  assert ((∃ event, ev = EvTip event) ∨ ∀ event, ev ≠ EvTip event)
    as [[event ->]|Hnot] by (destruct ev; eauto; right; intros; discriminate).
  - by apply onTip_eligible_covers.
  - intros c g p Hc Hp.
    destruct (eligiblePlayers_not_tip ev bot Hnot) as [-> _].
    apply handle_lookup in Hc as [Hc|(old & [Hold|[_ ->]] & Hup)].
    + by apply (Hcov c g p).
    + destruct (update_addresses ev old g p Hnot Hup Hp) as (q & Hq & <-).
      by apply (Hcov c old q).
    + destruct (update_addresses ev newGame g p Hnot Hup Hp) as (q & Hq & _).
      by apply elem_of_nil in Hq.
Qed.

(** X10. After any sequence of events, every player enrolled in a stored
    game has an entry in [eligiblePlayers] under the lower-cased account
    address they tipped from. *)
Theorem enrolled_players_are_eligible (id : string) (evs : list Event) :
  ∀ c g p,
    games (run evs (initialBot id)) !! c = Some g → p ∈ players g →
    is_Some (eligiblePlayers (run evs (initialBot id))
               !! toLowerCase (smartAccountAddress p)).
Proof.
  change (eligible_covers (run evs (initialBot id))).
  induction evs as [|ev evs IH] using rev_ind.
  - intros c g p Hc. done.
  - rewrite run_snoc. by apply handle_eligible_covers.
Qed.

(** ** More invariants of the stored games *)

Lemma lower_address_update ev old g' :
  game_update ev old g' →
  NoDup ((fun p => toLowerCase (smartAccountAddress p)) <$> players old) →
  NoDup ((fun p => toLowerCase (smartAccountAddress p)) <$> players g').
Proof.
  intros Hup Hnd.
  assert (∀ g, smartAccountAddress <$> players g
               = smartAccountAddress <$> players old →
               NoDup ((fun p => toLowerCase (smartAccountAddress p)) <$> players g))
    as Hgen.
  { intros g Heq.
    rewrite (list_fmap_compose smartAccountAddress toLowerCase), Heq.
    by rewrite <- (list_fmap_compose smartAccountAddress toLowerCase). }
  destruct Hup as [event old _ Hfind|c u old _|c u d old _|c u old _].
  - simpl. rewrite fmap_app. apply NoDup_app. split; [done|]. split.
    + intros x (q & -> & Hq)%list_elem_of_fmap Hx.
      apply list_elem_of_singleton in Hx. simpl in Hx.
      apply list_elem_of_In in Hq.
      pose proof (find_none _ _ Hfind q Hq) as Hf. unfold alreadyJoined in Hf.
      apply orb_false_iff in Hf as [Hf _]. by apply bool_decide_eq_false in Hf.
    + apply NoDup_singleton.
  - done.
  - apply Hgen, address_shootActive.
  - apply Hgen, address_passActive.
Qed.

(** X11. After any sequence of events, the players of a stored game have
    pairwise different account addresses, even up to letter case. *)
Theorem payout_addresses_distinct (id : string) (evs : list Event) :
  ∀ c g,
    games (run evs (initialBot id)) !! c = Some g →
    NoDup ((fun p => toLowerCase (smartAccountAddress p)) <$> players g).
Proof.
  apply (run_preserves
           (fun g => NoDup ((fun p => toLowerCase (smartAccountAddress p))
                              <$> players g))
           (fun _ => True)).
  - apply NoDup_nil_2.
  - intros ev old g' _ Hold Hup. by apply (lower_address_update ev old g').
  - by apply Forall_true.
  - done.
Qed.

Lemma never_shoot_resetAll (ps : list Player) :
  (∀ p, p ∈ ps → lastAction p ≠ Some shoot) →
  ∀ p, p ∈ resetAll ps → lastAction p ≠ Some shoot.
Proof.
  intros Hps p (q & -> & Hq)%list_elem_of_fmap.
  destruct (alive q); [done | by apply Hps].
Qed.

Lemma never_shoot_alter (f : Player → Player) (ps : list Player) (i : nat) :
  (∀ p, lastAction p ≠ Some shoot → lastAction (f p) ≠ Some shoot) →
  (∀ p, p ∈ ps → lastAction p ≠ Some shoot) →
  ∀ p, p ∈ alter f i ps → lastAction p ≠ Some shoot.
Proof.
  intros Hf Hps p [Hin|(q & Hq & ->)]%elem_of_alter; [by apply Hps|].
  by apply Hf, Hps.
Qed.

Lemma never_shoot_update ev old g' :
  game_update ev old g' →
  (∀ p, p ∈ players old → lastAction p ≠ Some shoot) →
  ∀ p, p ∈ players g' → lastAction p ≠ Some shoot.
Proof.
  intros Hup Hold.
  destruct Hup as [event old _ _|c u old _|c u d old _|c u old _].
  - intros p [Hp|Hp]%elem_of_app; [by apply Hold|].
    apply list_elem_of_singleton in Hp. by subst p.
  - done.
  - destruct (rejected (shootActive u d old).2) eqn:Hrej.
    { by rewrite (shootActive_rejected _ _ _ Hrej). }
    destruct (shootActive_accepted _ _ _ Hrej) as (ref & cp & Hcur & _ & ->).
    destruct (getCurrentPlayer_alive old ref cp Hcur) as [Hp Ha].
    rewrite players_shootAccepted. destruct d.
    + rewrite (players_eliminated_current old ref cp Hcur).
      apply never_shoot_alter; [done|]. by apply never_shoot_resetAll.
    + rewrite players_shot, (resetAll_alter_alive _ _ _ cp) by done.
      by apply never_shoot_resetAll.
  - destruct (rejected (passActive u old).2) eqn:Hrej.
    { by rewrite (passActive_rejected _ _ Hrej). }
    destruct (passActive_accepted _ _ Hrej) as (ref & cp & _ & _ & _ & ->).
    destruct (players_passAccepted ref u old) as [-> | ->].
    + by apply never_shoot_alter.
    + apply never_shoot_resetAll. by apply never_shoot_alter.
Qed.

Lemma winner_update ev old g' :
  game_update ev old g' → winner old = None →
  status g' ≠ finished → winner g' = None.
Proof.
  intros Hup Hold.
  destruct Hup as [event old _ _|c u old _|c u d old _|c u old _]; try done.
  - destruct (rejected (shootActive u d old).2) eqn:Hrej.
    { by rewrite (shootActive_rejected _ _ _ Hrej). }
    destruct (shootActive_accepted _ _ _ Hrej) as (ref & cp & _ & _ & ->).
    unfold shootAccepted. destruct d; simpl.
    + destruct (truthy _); simpl; [done|]. intros _.
      rewrite advanceTurn_winner. unfold eliminated. simpl.
      by rewrite winner_shot.
    + intros _. rewrite advanceTurn_winner. simpl. by rewrite winner_shot.
  - intros _.
    destruct (rejected (passActive u old).2) eqn:Hrej.
    { by rewrite (passActive_rejected _ _ Hrej). }
    destruct (passActive_accepted _ _ Hrej) as (ref & cp & _ & _ & _ & ->).
    unfold passAccepted. cbv zeta.
    destruct (getCurrentPlayer _) as [[? ?]|]; [destruct (checkForcedShoot _)|];
      simpl; rewrite ?resetAliveLastAction_eq; simpl;
      by rewrite advanceTurn_winner.
Qed.

(** X12. After any sequence of events, no stored game has a winner
    recorded, and no stored player has [lastAction = 'shoot']: the winner is
    only written to the game object that is deleted in the same handler, and
    the ['shoot'] mark is erased by the reset that follows it. *)
Theorem stored_games_have_no_winner_and_no_shoot_mark (id : string) (evs : list Event) :
  ∀ c g,
    games (run evs (initialBot id)) !! c = Some g →
    winner g = None ∧ ∀ p, p ∈ players g → lastAction p ≠ Some shoot.
Proof.
  intros c g Hg.
  assert (status g ≠ finished) as Hst by by apply (run_no_finished evs _) in Hg.
  revert c g Hg Hst.
  cut (∀ c g, games (run evs (initialBot id)) !! c = Some g →
              (status g ≠ finished → winner g = None)
              ∧ ∀ p, p ∈ players g → lastAction p ≠ Some shoot).
  { intros H c g Hg Hst. destruct (H c g Hg) as [Hw Hs]. auto. }
  apply (run_preserves
           (fun g => (status g ≠ finished → winner g = None)
                     ∧ ∀ p, p ∈ players g → lastAction p ≠ Some shoot)
           (fun _ => True)).
  - split; [done|]. intros p Hp. by apply elem_of_nil in Hp.
  - intros ev old g' _ [Hw Hs] Hup. split.
    + apply (winner_update ev old g' Hup). apply Hw.
      destruct Hup; congruence.
    + by apply (never_shoot_update ev old g').
  - by apply Forall_true.
  - done.
Qed.

(** ** Looking a player up in the alive view *)

Lemma findIndex_spec {A : Type} (f : A → bool) (arr : list A) :
  (findIndex f arr = (-1)%Z ∧ ∀ x, x ∈ arr → f x = false)
  ∨ ∃ i x, findIndex f arr = Z.of_nat i ∧ arr !! i = Some x ∧ f x = true
           ∧ ∀ j y, j < i → arr !! j = Some y → f y = false.
Proof.
  induction arr as [|a arr IH]; simpl.
  - left. split; [done|]. intros x Hx. by apply elem_of_nil in Hx.
  - destruct (f a) eqn:Hfa.
    + right. exists 0, a. repeat split; try done. intros j y Hj. lia.
    + destruct IH as [[Hnone Hall]|(i & x & Hi & Hx & Hfx & Hbefore)].
      * left. rewrite Hnone. simpl. split; [done|].
        intros x [->|Hx]%elem_of_cons; auto.
      * right. exists (S i), x. rewrite Hi.
        destruct (Z.ltb_spec (Z.of_nat i) 0) as [|_]; [lia|].
        repeat split; try done; [lia|].
        intros [|j] y Hj Hy; simpl in Hy; [by simplify_eq|].
        apply (Hbefore j y); [lia | done].
Qed.

(** X13. [getAlivePlayerIndex] returns [-1] exactly when no alive player has
    the identity asked for; otherwise it returns the index, inside the alive
    view, of the first alive player with that identity.  When identities are
    distinct, the index returned for the player at position [k] of the alive
    view is [k]. *)
Theorem getAlivePlayerIndex_spec (game : GameState) (uid : string) :
  (getAlivePlayerIndex game uid = (-1)%Z
   ↔ ∀ rp, rp ∈ getAlivePlayers game → userId rp.2 ≠ uid)
  ∧ (∀ i : nat, getAlivePlayerIndex game uid = Z.of_nat i →
       ∃ rp, getAlivePlayers game !! i = Some rp ∧ userId rp.2 = uid
             ∧ ∀ j rq, j < i → getAlivePlayers game !! j = Some rq →
                       userId rq.2 ≠ uid)
  ∧ (-1 <= getAlivePlayerIndex game uid
     < Z.of_nat (length (getAlivePlayers game)))%Z
  ∧ (NoDup (userId <$> players game) →
     ∀ k ref cp, getAlivePlayers game !! k = Some (ref, cp) → userId cp = uid →
                 getAlivePlayerIndex game uid = Z.of_nat k).
Proof.
  unfold getAlivePlayerIndex.
  set (f := fun rp : nat * Player => bool_decide (userId rp.2 = uid)).
  assert (∀ rp, f rp = true ↔ userId rp.2 = uid) as Hf
    by (intros rp; apply bool_decide_eq_true).
  assert (∀ rp, f rp = false ↔ userId rp.2 ≠ uid) as Hnf
    by (intros rp; apply bool_decide_eq_false).
  destruct (findIndex_spec f (getAlivePlayers game))
    as [[Hnone Hall]|(i & x & Hi & Hx & Hfx & Hbefore)].
  - rewrite Hnone. split; [|split; [|split]].
    + split; [|done]. intros _ rp Hrp. by apply Hnf, Hall.
    + intros i Hi. lia.
    + lia.
    + intros _ k ref cp Hk Hu. exfalso.
      apply (proj1 (Hnf (ref, cp))); [|done].
      apply Hall. by eapply list_elem_of_lookup_2.
  - rewrite Hi. pose proof (lookup_lt_Some _ _ _ Hx) as Hlt.
    split; [|split; [|split]].
    + split; [lia|]. intros Hall. exfalso.
      apply (Hall x); [by eapply list_elem_of_lookup_2 | by apply Hf].
    + intros i' Hi'. assert (i' = i) as -> by lia.
      exists x. split; [done|]. split; [by apply Hf|].
      intros j rq Hj Hrq. by apply Hnf, (Hbefore j rq).
    + lia.
    + intros Hnd k ref cp Hk Hu. f_equal.
      destruct x as [r q]. apply Hf in Hfx. simpl in Hfx.
      destruct (proj1 (elem_of_getAlivePlayers game ref cp)) as [Hcp _];
        [by eapply list_elem_of_lookup_2|].
      destruct (proj1 (elem_of_getAlivePlayers game r q)) as [Hq _];
        [by eapply list_elem_of_lookup_2|].
      assert (r = ref) as ->.
      { apply (NoDup_lookup _ _ _ uid Hnd).
        - by rewrite list_lookup_fmap, Hq, <- Hfx.
        - by rewrite list_lookup_fmap, Hcp, <- Hu. }
      assert (NoDup (getAlivePlayers game).*1) as Hrefs.
      { rewrite getAlivePlayers_refs. apply (NoDup_refsOfFlags id). apply _. }
      apply (NoDup_lookup _ _ _ ref Hrefs).
      * by rewrite list_lookup_fmap, Hx.
      * by rewrite list_lookup_fmap, Hk.
Qed.

(** ** The tip handler with a fixed entry fee *)

Lemma fixed_fee_onTip_tidy (event : TipEvent) (bot : FixedFee.Bot) :
  (∀ c g, FixedFee.games bot !! c = Some g → FixedFee.tidy g) →
  ∀ c g, FixedFee.games (FixedFee.onTip event bot).1 !! c = Some g → FixedFee.tidy g.
Proof.
  intros Hinv c g. unfold FixedFee.onTip.
  destruct (negb (bool_decide _)); [apply Hinv|].
  assert (FixedFee.tidy FixedFee.newGame) as Hnew.
  { split; [done|]. split; [done|]. split; [apply NoDup_nil_2|].
    intros p Hp. by apply elem_of_nil in Hp. }
  assert (∀ old, FixedFee.tidy old →
                 List.find (fun p => bool_decide
                                       (FixedFee.userId p = senderAddress event))
                   (FixedFee.players old) = None →
                 FixedFee.tidy
                   (FixedFee.mkGame
                      (FixedFee.players old
                       ++ [FixedFee.mkPlayer (senderAddress event) true None])
                      (FixedFee.potBalance old + FixedFee.ENTRY_FEE)
                      (FixedFee.currentTurnIndex old) (FixedFee.status old)
                      (FixedFee.winner old))) as Hjoin.
  { intros old (Hst & Hpot & Hnd & Hall) Hfind. unfold FixedFee.tidy. simpl.
    split; [done|]. split; [|split].
    - rewrite length_app, Hpot. simpl. lia.
    - rewrite fmap_app. apply NoDup_app. split; [done|]. split.
      + intros x (q & -> & Hq)%list_elem_of_fmap Hx.
        apply list_elem_of_singleton in Hx. apply list_elem_of_In in Hq.
        pose proof (find_none _ _ Hfind q Hq) as Hf.
        by apply bool_decide_eq_false in Hf.
      + apply NoDup_singleton.
    - intros p [Hp|Hp]%elem_of_app; [by apply Hall|].
      apply list_elem_of_singleton in Hp. by subst p. }
  destruct (FixedFee.games bot !! tipChannelId event) as [game|] eqn:Hg.
  - destruct (negb (bool_decide (FixedFee.status game = waiting))); [apply Hinv|].
    cbv zeta. destruct (find _ _) eqn:Hfind; [apply Hinv|].
    destruct (amount event <? FixedFee.ENTRY_FEE)%Z; [apply Hinv|]. simpl.
    destruct (decide (c = tipChannelId event)) as [->|Hne].
    + rewrite lookup_insert_eq. intros [= <-]. apply Hjoin; [|done].
      by apply (Hinv (tipChannelId event)).
    + rewrite lookup_insert_ne by congruence. apply Hinv.
  - simpl.
    assert (∀ g0, <[tipChannelId event := g0]> (FixedFee.games bot) !! c = Some g →
                  FixedFee.tidy g0 → FixedFee.tidy g) as Hins.
    { intros g0. destruct (decide (c = tipChannelId event)) as [->|Hne].
      - rewrite lookup_insert_eq. by intros [= <-].
      - rewrite lookup_insert_ne by congruence. intros Hc _. by eapply Hinv. }
    destruct (amount event <? FixedFee.ENTRY_FEE)%Z; simpl.
    + intros Hc. by apply (Hins FixedFee.newGame).
    + rewrite insert_insert_eq. intros Hc.
      apply (Hins _ Hc). by apply (Hjoin FixedFee.newGame).
Qed.

(** X14. With the fixed-fee tip handler, after any sequence of tips every
    stored game is waiting, its players have distinct identities, are alive
    and have no last action, and its pot is exactly the entry fee times the
    number of players: what a tipper pays above the fee is never credited. *)
Theorem fixed_fee_pot_is_fee_times_players (id : string) (events : list TipEvent) :
  ∀ c g,
    FixedFee.games (FixedFee.runTips events (FixedFee.mkBot id ∅)) !! c = Some g →
    FixedFee.status g = waiting
    ∧ FixedFee.potBalance g
      = (FixedFee.ENTRY_FEE * Z.of_nat (length (FixedFee.players g)))%Z
    ∧ NoDup (FixedFee.userId <$> FixedFee.players g)
    ∧ ∀ p, p ∈ FixedFee.players g →
           FixedFee.alive p = true ∧ FixedFee.lastAction p = None.
Proof.
  change (∀ c g,
            FixedFee.games (FixedFee.runTips events (FixedFee.mkBot id ∅)) !! c = Some g →
            FixedFee.tidy g).
  induction events as [|event events IH] using rev_ind.
  - intros c g Hc. done.
  - unfold FixedFee.runTips. rewrite foldl_snoc. by apply fixed_fee_onTip_tidy.
Qed.

(** X15. With the fixed-fee tip handler, a tip to the bot below the entry fee
    from an address that is not enrolled, on a channel whose game (the stored
    one or the fresh one) is waiting, is answered with the fee reminder and
    enrolls nobody: the game stored for the channel afterwards is the one
    the tip was applied to.  On a channel that had no game this leaves the
    fresh, empty game in the registry.  Other channels are untouched. *)
Theorem fixed_fee_underpaid_tip_refused (event : TipEvent) (bot : FixedFee.Bot) :
  toLowerCase (receiverAddress event) = toLowerCase (FixedFee.botId bot) →
  FixedFee.status (default FixedFee.newGame
                   (FixedFee.games bot !! tipChannelId event)) = waiting →
  (∀ p, p ∈ FixedFee.players (default FixedFee.newGame
                              (FixedFee.games bot !! tipChannelId event)) →
        FixedFee.userId p ≠ senderAddress event) →
  (amount event < FixedFee.ENTRY_FEE)%Z →
  (FixedFee.onTip event bot).2
  = [FixedFee.MsgEntryFee (senderAddress event) FixedFee.ENTRY_FEE (amount event)]
  ∧ FixedFee.games (FixedFee.onTip event bot).1 !! tipChannelId event
    = Some (default FixedFee.newGame (FixedFee.games bot !! tipChannelId event))
  ∧ ∀ c, c ≠ tipChannelId event →
         FixedFee.games (FixedFee.onTip event bot).1 !! c = FixedFee.games bot !! c.
Proof.
  intros Hrecv Hst Hnew Hlow. unfold FixedFee.onTip.
  rewrite bool_decide_eq_true_2 by done. simpl.
  destruct (Z.ltb_spec (amount event) FixedFee.ENTRY_FEE) as [_|]; [|lia].
  destruct (FixedFee.games bot !! tipChannelId event) as [game|] eqn:Hg;
    simpl in *.
  - rewrite bool_decide_eq_true_2 by done. simpl.
    assert (List.find (fun p => bool_decide
                                  (FixedFee.userId p = senderAddress event))
              (FixedFee.players game) = None) as ->.
    { destruct (find _ _) as [q|] eqn:Hfind; [|done].
      apply find_some in Hfind as [Hq Hf]. apply bool_decide_eq_true in Hf.
      apply list_elem_of_In in Hq. by destruct (Hnew q Hq). }
    simpl. by rewrite Hg.
  - rewrite lookup_insert_eq. repeat split; try done.
    intros c Hc. by rewrite lookup_insert_ne.
Qed.

(** ** Well-formed games, spelled out *)

(** X1. After any sequence of events whose tips name their sender, the
    players of every stored game have pairwise different, non-empty
    identities; no stored game is finished; and while a game is waiting all
    its players are alive. *)
Theorem reachable_games_well_formed (id : string) (evs : list Event) :
  Forall named_tip evs →
  ∀ c g,
    games (run evs (initialBot id)) !! c = Some g →
    NoDup (userId <$> players g)
    ∧ (∀ p, p ∈ players g → userId p ≠ ""%string)
    ∧ (status g = waiting → ∀ p, p ∈ players g → alive p = true)
    ∧ status g ≠ finished.
Proof.
  intros Hevs c g Hg.
  destruct (reachable_wf id evs Hevs c g Hg) as [(Hnd & Hne & Hal) Hst].
  repeat split; done.
Qed.

(** ** The further properties at work on small games *)

Ltac named_events :=
  repeat (apply Forall_cons; split; [simpl; try exact I; discriminate|]);
  apply Forall_nil_2.

Ltac distinct_strings :=
  repeat (apply NoDup_cons; split;
          [let Hin := fresh "Hin" in
           intros Hin; apply list_elem_of_In in Hin; simpl in Hin;
           repeat (destruct Hin as [Hin|Hin]; [discriminate Hin|]); exact Hin|]);
  apply NoDup_nil_2.

Lemma reachable_games_well_formed_witness :
  NoDup (userId <$> players poorGame) ∧ status poorGame ≠ finished.
Proof.
  destruct (reachable_games_well_formed "0xb07" threeStarted)
    with (c := "town"%string) (g := poorGame) as (Hnd & _ & _ & Hst).
  - named_events.
  - vm_compute. reflexivity.
  - split; [exact Hnd | exact Hst].
Defined.

Lemma reachable_active_game_has_current_player_witness :
  (∃ ref p, getCurrentPlayer poorGame = Some (ref, p) ∧ alive p = true)
  ∧ forallb (fun r => negb (is_fault r))
      (handle (EvShoot "town" "A" true) (run threeStarted (initialBot "0xb07"))).2
    = true.
Proof.
  destruct (reachable_active_game_has_current_player "0xb07" threeStarted)
    as [Hcur Hfault].
  - named_events.
  - split.
    + destruct (Hcur "town"%string poorGame) as (_ & _ & Hsome).
      * vm_compute. reflexivity.
      * reflexivity.
      * exact Hsome.
    + exact (Hfault (EvShoot "town" "A" true)).
Defined.

Lemma elimination_passes_over_next_witness :
  fst <$> getCurrentPlayer (shootActive "A" true poorGame).1.1
  = (getAlivePlayers poorGame).*1 !! ((0 + 2) mod length (getAlivePlayers poorGame))
  ∧ (getAlivePlayers poorGame).*1 !! ((0 + 1) mod length (getAlivePlayers poorGame))
    ≠ (getAlivePlayers poorGame).*1 !! ((0 + 2) mod length (getAlivePlayers poorGame)).
Proof.
  apply (elimination_passes_over_next "A" poorGame 0 0 playerA).
  - reflexivity.
  - reflexivity.
  - reflexivity.
  - vm_compute. lia.
Defined.

Lemma click_passes_turn_on_witness :
  ∃ r p,
    getAlivePlayers poorGame !! ((0 + 1) mod length (getAlivePlayers poorGame))
    = Some (r, p)
    ∧ shootActive "A" false poorGame
      = (mkGame (resetAll (players poorGame)) (potBalance poorGame + GRIT_BONUS)
           (Z.of_nat ((0 + 1) mod length (getAlivePlayers poorGame)))
           (status poorGame) (winner poorGame),
         false,
         [MsgClick "A" (potBalance poorGame + GRIT_BONUS); MsgYourTurn (userId p)]).
Proof.
  apply (click_passes_turn_on "A" poorGame 0 0 playerA); reflexivity.
Defined.

Lemma pass_effect_witness :
  passActive "A" poorGame
  = (mkGame [passed playerA; playerB; playerC] 0 1 active None,
     [MsgPassed "A" 21 0; MsgYourTurn "B"])
  ∧ passActive "a" forcedGame
    = (mkGame [playerA; playerB; playerC] 0 1 active None,
       [MsgPassed "a" 21 0; MsgEveryoneChickenedOut "B"]).
Proof.
  split.
  - destruct (pass_effect "A" poorGame 0 0 playerA)
      as (r & p & Hnext & Hform & _ & Hexact).
    + reflexivity.
    + reflexivity.
    + reflexivity.
    + vm_compute. reflexivity.
    + vm_compute in Hnext. injection Hnext as <- <-.
      rewrite Hform, Hexact; [reflexivity | reflexivity |].
      simpl. distinct_strings.
  - destruct (pass_effect "a" forcedGame 0 0 playerA)
      as (r & p & Hnext & Hform & Hfull & _).
    + reflexivity.
    + reflexivity.
    + reflexivity.
    + vm_compute. reflexivity.
    + vm_compute in Hnext. injection Hnext as <- <-.
      rewrite Hform. rewrite (proj2 Hfull); [reflexivity|].
      split; [vm_compute; lia|].
      intros rp Hrp. vm_compute in Hrp. each_element Hrp.
Defined.

Lemma bang_eliminates_only_the_shooter_witness :
  S (length (getAlivePlayers (shootActive "A" true poorGame).1.1))
  = length (getAlivePlayers poorGame)
  ∧ potBalance (shootActive "A" true poorGame).1.1 = potBalance poorGame.
Proof.
  destruct (bang_eliminates_only_the_shooter "A" poorGame 0 playerA)
    as (_ & _ & Hcount & Hpot).
  - reflexivity.
  - reflexivity.
  - split; [exact Hcount | exact Hpot].
Defined.

Lemma game_over_only_from_a_duel_witness :
  length (getAlivePlayers duelGame) = 2.
Proof.
  destruct (game_over_only_from_a_duel "A" true duelGame) as (_ & Htwo & _).
  - vm_compute. reflexivity.
  - exact Htwo.
Defined.

Lemma player_records_persist_witness :
  ∃ g',
    games (handle (EvShoot "town" "A" true) (botWith poorGame)).1 !! "town"%string
    = Some g'
    ∧ userId <$> players g' = userId <$> players poorGame.
Proof.
  destruct (games (handle (EvShoot "town" "A" true) (botWith poorGame)).1
              !! "town"%string) as [g'|] eqn:Hg';
    [|vm_compute in Hg'; discriminate Hg'].
  destruct (player_records_persist (EvShoot "town" "A" true) (botWith poorGame)
              "town" poorGame g') as [_ Hroster].
  - reflexivity.
  - exact Hg'.
  - exists g'. split; [reflexivity|].
    destruct Hroster as (Hids & _); [discriminate | exact Hids].
Defined.

Lemma other_channels_untouched_witness :
  games (handle (EvShoot "town" "A" true) (botWith poorGame)).1 !! "city"%string
  = games (botWith poorGame) !! "city"%string.
Proof.
  apply (other_channels_untouched (EvShoot "town" "A" true) (botWith poorGame)).
  simpl. discriminate.
Defined.

Lemma enrolled_players_are_eligible_witness :
  is_Some (eligiblePlayers (run threeStarted (initialBot "0xb07"))
             !! toLowerCase (smartAccountAddress playerA)).
Proof.
  apply (enrolled_players_are_eligible "0xb07" threeStarted "town" poorGame playerA).
  - vm_compute. reflexivity.
  - apply list_elem_of_here.
Defined.

Lemma payout_addresses_distinct_witness :
  NoDup ((fun p => toLowerCase (smartAccountAddress p)) <$> players poorGame).
Proof.
  apply (payout_addresses_distinct "0xb07" threeStarted "town" poorGame).
  vm_compute. reflexivity.
Defined.

Lemma stored_games_have_no_winner_and_no_shoot_mark_witness :
  winner poorGame = None
  ∧ Forall (fun p => lastAction p ≠ Some shoot) (players poorGame).
Proof.
  destruct (stored_games_have_no_winner_and_no_shoot_mark "0xb07" threeStarted
              "town" poorGame) as [Hw Hs].
  - vm_compute. reflexivity.
  - split; [exact Hw|]. apply Forall_forall. exact Hs.
Defined.

Lemma getAlivePlayerIndex_spec_witness :
  getAlivePlayerIndex lateGame "C" = 1%Z
  ∧ (-1 <= getAlivePlayerIndex lateGame "Z"
     < Z.of_nat (length (getAlivePlayers lateGame)))%Z.
Proof.
  split.
  - destruct (getAlivePlayerIndex_spec lateGame "C") as (_ & _ & _ & Hk).
    apply (Hk ltac:(simpl; distinct_strings) 1 2 playerC); reflexivity.
  - destruct (getAlivePlayerIndex_spec lateGame "Z") as (_ & _ & Hrange & _).
    exact Hrange.
Defined.

Lemma fixed_fee_pot_is_fee_times_players_witness :
  ∃ g,
    FixedFee.games (FixedFee.runTips feeTips feeBot) !! "town"%string = Some g
    ∧ FixedFee.potBalance g
      = (FixedFee.ENTRY_FEE * Z.of_nat (length (FixedFee.players g)))%Z.
Proof.
  destruct (FixedFee.games (FixedFee.runTips feeTips feeBot) !! "town"%string)
    as [g|] eqn:Hg; [|vm_compute in Hg; discriminate Hg].
  destruct (fixed_fee_pot_is_fee_times_players "0xb07" feeTips "town" g Hg)
    as (_ & Hpot & _).
  exists g. split; [reflexivity | exact Hpot].
Defined.

Lemma fixed_fee_underpaid_tip_refused_witness :
  (FixedFee.onTip tipFromB feeBot).2
  = [FixedFee.MsgEntryFee "0xb2" FixedFee.ENTRY_FEE 7]
  ∧ FixedFee.games (FixedFee.onTip tipFromB feeBot).1 !! "town"%string
    = Some FixedFee.newGame.
Proof.
  destruct (fixed_fee_underpaid_tip_refused tipFromB feeBot) as (Hmsg & Hgame & _).
  - reflexivity.
  - reflexivity.
  - intros p Hp. vm_compute in Hp. each_element Hp.
  - vm_compute. reflexivity.
  - split; [exact Hmsg | exact Hgame].
Defined.


(** ** Shots and passes together *)

Lemma allOthersPassed_fresh (uid : string) (g : GameState) :
  (∀ p, p ∈ players g → alive p = true → lastAction p = None) →
  allOthersPassed uid g = false.
Proof.
  intros Hnone. unfold allOthersPassed.
  destruct (otherPlayers uid g) as [|[r p] l] eqn:Hoth; [done|]. simpl.
  assert ((r, p) ∈ getAlivePlayers g) as Hin.
  { assert (In (r, p) (otherPlayers uid g)) as Hin by (rewrite Hoth; by left).
    unfold otherPlayers in Hin. apply filter_In in Hin as [Hin _].
    by apply list_elem_of_In. }
  apply elem_of_getAlivePlayers in Hin as [Hp Ha].
  rewrite (Hnone p) by (by eapply list_elem_of_lookup_2 || done). done.
Qed.

(** X16. A shot reopens passing: in the game an accepted shot leaves behind,
    the forced-shoot rule constrains nobody, so no pass is answered with
    "you must shoot" until somebody has passed again. *)
Theorem shot_reopens_passing (uid : string) (isDead : bool) (game : GameState) :
  rejected (shootActive uid isDead game).2 = false →
  ∀ uid',
    allOthersPassed uid' (shootActive uid isDead game).1.1 = false
    ∧ (passActive uid' (shootActive uid isDead game).1.1).2 ≠ [MsgMustShoot].
Proof.
  intros Hacc uid'.
  destruct (shootActive_accepted _ _ _ Hacc) as (ref & cp & _ & _ & Heq).
  assert (allOthersPassed uid' (shootActive uid isDead game).1.1 = false) as Hfree.
  { apply allOthersPassed_fresh. rewrite Heq, players_shootAccepted. intros p.
    destruct isDead; [apply alive_none_eliminated | apply alive_none_shot]. }
  split; [done|].
  unfold passActive.
  destruct (getCurrentPlayer _) as [[r p]|]; [|done].
  destruct (negb (bool_decide _)); [done|].
  destruct (negb (alive p)); [done|].
  rewrite Hfree. cbv zeta.
  destruct (getCurrentPlayer _) as [[? ?]|]; [|done].
  by destruct (checkForcedShoot _).
Qed.

(** ** Passing cannot go on for ever *)

Lemma view_after_same_flags (g g' : GameState) (i r : nat) (p : Player) :
  alive <$> players g' = alive <$> players g →
  getAlivePlayers g !! i = Some (r, p) →
  ∃ p', getAlivePlayers g' !! i = Some (r, p') ∧ players g' !! r = Some p'.
Proof.
  intros Hflags Hi.
  pose proof (alive_refs_same g g' Hflags) as Hrefs.
  assert ((getAlivePlayers g').*1 !! i = Some r) as Hr
    by by rewrite Hrefs, list_lookup_fmap, Hi.
  rewrite list_lookup_fmap in Hr.
  destruct (getAlivePlayers g' !! i) as [[r' p']|] eqn:Hi'; simplify_eq/=.
  exists p'. split; [done|].
  by apply list_elem_of_lookup_2, elem_of_getAlivePlayers in Hi' as [? _].
Qed.

Lemma others_nonempty (g : GameState) (ref : nat) :
  2 ≤ length (getAlivePlayers g) → othersAlive ref g ≠ [].
Proof.
  intros Hn.
  assert (NoDup (getAlivePlayers g).*1) as Hrefs.
  { rewrite getAlivePlayers_refs. apply (NoDup_refsOfFlags id). apply _. }
  assert (∃ r p, (r, p) ∈ getAlivePlayers g ∧ r ≠ ref) as (r & p & Hin & Hne).
  { destruct (getAlivePlayers g) as [|[r1 p1] [|[r2 p2] l]];
      simpl in Hn; try lia.
    simpl in Hrefs. apply NoDup_cons in Hrefs as [Hr1 _].
    destruct (decide (r1 = ref)) as [->|Hne1].
    - exists r2, p2. split; [apply list_elem_of_further, list_elem_of_here|].
      intros ->. apply Hr1. apply list_elem_of_here.
    - exists r1, p1. split; [apply list_elem_of_here | done]. }
  intros Hnil.
  assert ((r, p) ∈ othersAlive ref g) as Hoth.
  { unfold othersAlive. apply list_elem_of_In, filter_In.
    split; [by apply list_elem_of_In|]. simpl. by rewrite bool_decide_eq_false_2. }
  rewrite Hnil in Hoth. by apply elem_of_nil in Hoth.
Qed.

Lemma mod_cover (s n i : nat) :
  0 < n → i < n → i ≠ (s + (n - 1)) mod n →
  ∃ t, t < n - 1 ∧ (s + t) mod n = i.
Proof.
  intros Hn Hi Hne.
  pose proof (Nat.mod_upper_bound s n ltac:(lia)) as Hs.
  set (t := (i + n - s mod n) mod n).
  assert ((s + t) mod n = i) as Ht.
  { rewrite <- Nat.Div0.add_mod_idemp_l. subst t.
    rewrite Nat.Div0.add_mod_idemp_r.
    replace (s mod n + (i + n - s mod n)) with (i + 1 * n) by lia.
    rewrite Nat.Div0.mod_add. by apply Nat.mod_small. }
  exists t. split; [|done].
  pose proof (Nat.mod_upper_bound (i + n - s mod n) n ltac:(lia)) as Hlt.
  fold t in Hlt.
  destruct (decide (t = n - 1)) as [Heq|]; [|lia].
  exfalso. apply Hne. by rewrite <- Heq.
Qed.

Lemma passedRun_current (g : GameState) (s j n : nat) :
  passedRun g s j n → 0 < n →
  ∃ ref cp,
    getAlivePlayers g !! ((s + j) mod n) = Some (ref, cp)
    ∧ getCurrentPlayer g = Some (ref, cp).
Proof.
  intros (Hlen & _ & Hidx & _) Hn.
  pose proof (Nat.mod_upper_bound (s + j) n ltac:(lia)) as Hk.
  destruct (lookup_lt_is_Some_2 (getAlivePlayers g) ((s + j) mod n))
    as [[ref cp] Hview]; [lia|].
  assert (getCurrentPlayer g = Some (ref, cp)) as Hcur.
  { rewrite getCurrentPlayer_mod.
    - by rewrite Hidx, Nat2Z.id, Hlen, Nat.Div0.mod_mod.
    - intros Hnil. by rewrite Hnil in Hview.
    - lia. }
  by exists ref, cp.
Qed.

Lemma passedRun_step (g : GameState) (s j n ref : nat) (cp : Player) :
  passedRun g s j n → 0 < n →
  getCurrentPlayer g = Some (ref, cp) →
  rejected (passActive (userId cp) g).2 = false →
  passedRun (passActive (userId cp) g).1 s (S j) n.
Proof.
  intros Hrun Hn Hcur0 Hacc.
  destruct (passedRun_current g s j n Hrun Hn) as (ref' & cp' & Hview & Hcur).
  rewrite Hcur0 in Hcur. injection Hcur as <- <-.
  destruct Hrun as (Hlen & Hnd & Hidx & Hpassed).
  destruct (passActive_by_current (userId cp) g ((s + j) mod n) ref cp)
    as (r' & p' & _ & Hform); try done.
  rewrite Hform. simpl. rewrite Hlen.
  set (g' := mkGame (alter (with_lastAction (Some pass)) ref (players g))
               (potBalance g - Z.min (potBalance g) PASS_BURN)
               (Z.of_nat (((s + j) mod n + 1) mod n)) (status g) (winner g)).
  assert (alive <$> players g' = alive <$> players g) as Hflags
    by (simpl; by apply fmap_alter_keep).
  split; [by rewrite (alive_count_same g g')|].
  split; [simpl; by rewrite fmap_alter_keep|].
  split.
  { simpl. f_equal. rewrite Nat.Div0.add_mod_idemp_l. f_equal. lia. }
  intros t Ht.
  assert (∃ r p, getAlivePlayers g !! ((s + t) mod n) = Some (r, p)
                 ∧ (r = ref ∨ lastAction p = Some pass)) as (r & p & Hrp & Hor).
  { destruct (decide (t = j)) as [->|Hne].
    - exists ref, cp. auto.
    - destruct (Hpassed t ltac:(lia)) as (r & p & Hrp & Hp). exists r, p. auto. }
  destruct (view_after_same_flags g g' _ r p Hflags Hrp) as (q & Hq & Hslot).
  exists r, q. split; [done|].
  apply list_elem_of_lookup_2, elem_of_getAlivePlayers in Hrp as [Hp _].
  simpl in Hslot. rewrite list_lookup_alter in Hslot.
  destruct (decide (ref = r)) as [->|Hne].
  - rewrite Hp in Hslot. by simplify_eq/=.
  - destruct Hor as [->|Hpass]; [done|]. congruence.
Qed.

Lemma passedRun_full (g : GameState) (s n ref : nat) (cp : Player) :
  passedRun g s (n - 1) n → 2 ≤ n →
  getCurrentPlayer g = Some (ref, cp) →
  passActive (userId cp) g = (g, [MsgMustShoot]).
Proof.
  intros Hrun Hn Hcur0.
  destruct (passedRun_current g s (n - 1) n Hrun ltac:(lia))
    as (ref' & cp' & Hview & Hcur).
  rewrite Hcur0 in Hcur. injection Hcur as <- <-.
  destruct Hrun as (Hlen & Hnd & Hidx & Hpassed).
  rewrite (passActive_current (userId cp) g ref cp Hcur0 eq_refl).
  destruct (getCurrentPlayer_alive g ref cp Hcur0) as [Hcp _].
  assert (allOthersPassed (userId cp) g = true) as ->; [|done].
  apply allOthersPassed_true.
  rewrite (otherPlayers_othersAlive g ref cp Hcp Hnd).
  split; [apply others_nonempty; lia|].
  intros [r p] Hin. simpl. unfold othersAlive in Hin.
  apply list_elem_of_In, filter_In in Hin as [Hin Hne]. simpl in Hne.
  apply negb_true_iff, bool_decide_eq_false in Hne.
  apply list_elem_of_In, list_elem_of_lookup_1 in Hin as [i Hi].
  pose proof (lookup_lt_Some _ _ _ Hi) as Hlt. rewrite Hlen in Hlt.
  destruct (mod_cover s n i) as (t & Ht & Hti); [lia | done | |].
  { intros ->. rewrite Hview in Hi. by simplify_eq. }
  destruct (Hpassed t Ht) as (r' & p' & Hrp' & Hp').
  rewrite Hti, Hi in Hrp'. by simplify_eq.
Qed.

Lemma distinctUpToCase_NoDup (g : GameState) :
  distinctUpToCase g → NoDup (userId <$> players g).
Proof.
  unfold distinctUpToCase. intros Hnd.
  apply (NoDup_fmap_1 toLowerCase). by rewrite <- list_fmap_compose.
Qed.

Lemma distinctUpToCase_same_ids (g g' : GameState) :
  userId <$> players g' = userId <$> players g →
  distinctUpToCase g → distinctUpToCase g'.
Proof.
  unfold distinctUpToCase. intros Hids Hnd.
  change (fun p => toLowerCase (userId p)) with (toLowerCase ∘ userId) in *.
  rewrite list_fmap_compose in Hnd |- *. by rewrite Hids.
Qed.

(** Among identities that are distinct up to letter case, a stored identity
    that the turn check takes for the current player is the current
    player's, letter for letter. *)
Lemma stored_id_of_current (g : GameState) (uid : string) (ref : nat) (cp : Player) :
  distinctUpToCase g →
  uid ∈ userId <$> players g →
  players g !! ref = Some cp →
  toLowerCase (userId cp) = toLowerCase uid →
  userId cp = uid.
Proof.
  intros Hnd Hin Hcp Hid.
  apply list_elem_of_fmap in Hin as (q & -> & Hq).
  apply list_elem_of_lookup_1 in Hq as [i Hi].
  assert (i = ref) as ->.
  { apply (NoDup_lookup _ _ _ (toLowerCase (userId q)) Hnd).
    - by rewrite list_lookup_fmap, Hi.
    - rewrite list_lookup_fmap, Hcp. simpl. by rewrite Hid. }
  congruence.
Qed.

Lemma passesWith_stops (uids : list string) :
  ∀ (g : GameState) (s j n : nat),
    j < n → n ≤ j + length uids → 2 ≤ n →
    passedRun g s j n → distinctUpToCase g →
    (∀ u, u ∈ uids → u ∈ userId <$> players g) →
    passesWith uids g = None.
Proof.
  induction uids as [|u us IH]; intros g s j n Hj Hlen Hn Hrun Hnd Hstored.
  - simpl in Hlen. lia.
  - simpl. destruct (passActive u g) as [g' out] eqn:Hpass.
    destruct (rejected out) eqn:Hrej; [done|].
    assert (rejected (passActive u g).2 = false) as Hacc by by rewrite Hpass.
    destruct (passActive_accepted u g Hacc) as (ref & cp & Hcur & Hid & _ & _).
    destruct (getCurrentPlayer_alive g ref cp Hcur) as [Hcp _].
    assert (userId cp = u) as Hu.
    { apply (stored_id_of_current g u ref cp); try done.
      apply Hstored, list_elem_of_here. }
    subst u.
    destruct (decide (j = n - 1)) as [->|Hlast].
    + rewrite (passedRun_full g s n ref cp Hrun Hn Hcur) in Hpass.
      by simplify_eq.
    + pose proof (passedRun_step g s j n ref cp Hrun ltac:(lia) Hcur Hacc) as Hnext.
      pose proof (userIds_passActive (userId cp) g) as Hids.
      rewrite Hpass in Hnext, Hids. simpl in Hnext, Hids.
      apply (IH g' s (S j) n); try done; try (simpl in Hlen; lia).
      * by apply (distinctUpToCase_same_ids g).
      * intros u' Hu'. rewrite Hids. apply Hstored. by apply list_elem_of_further.
Qed.

(** X17. Passing cannot go on for ever under the stored identities.  Take a
    game whose identities are distinct even when letter case is ignored,
    with [n] alive players ([n] at least 2) and the turn index inside the
    alive view.  A run of [n] or more [/pass] commands, each issued under an
    identity that is, letter for letter, the stored identity of some player
    of the game, never goes through entirely: one of the first [n] is
    refused.  (An acting identity that differs from the stored one by letter
    case is outside this statement, and does get past the rule.) *)
Theorem at_most_n_minus_one_passes_in_a_row
    (game : GameState) (k : nat) (uids : list string) :
  distinctUpToCase game →
  2 ≤ length (getAlivePlayers game) →
  currentTurnIndex game = Z.of_nat k →
  k < length (getAlivePlayers game) →
  length (getAlivePlayers game) ≤ length uids →
  (∀ u, u ∈ uids → u ∈ userId <$> players game) →
  passesWith uids game = None.
Proof.
  intros Hnd Hn Hidx Hk Hlen Hstored.
  set (n := length (getAlivePlayers game)) in *.
  apply (passesWith_stops uids game k 0 n); try done; try lia.
  split; [done|]. split; [by apply distinctUpToCase_NoDup|]. split.
  - by rewrite Nat.add_0_r, Nat.mod_small.
  - intros t Ht. lia.
Qed.

Lemma mod_shift_inj (s n a b : nat) :
  a < n → b < n → (s + a) mod n = (s + b) mod n → a = b.
Proof.
  intros Ha Hb Heq.
  pose proof (Nat.div_mod_eq (s + a) n) as H1.
  pose proof (Nat.div_mod_eq (s + b) n) as H2.
  rewrite Heq in H1.
  assert ((s + a) / n = (s + b) / n ∨ (s + a) / n < (s + b) / n
          ∨ (s + b) / n < (s + a) / n) as [Hq|[Hq|Hq]] by lia; nia.
Qed.

Lemma freshRun_step (g : GameState) (s j n ref : nat) (cp : Player) :
  freshRun g s j n → 2 ≤ n → S j < n →
  getCurrentPlayer g = Some (ref, cp) →
  rejected (passActive (userId cp) g).2 = false
  ∧ freshRun (passActive (userId cp) g).1 s (S j) n.
Proof.
  intros [Hrun Hfresh] Hn Hj Hcur.
  destruct (passedRun_current g s j n Hrun ltac:(lia))
    as (ref' & cp' & Hview & Hcur').
  rewrite Hcur in Hcur'. injection Hcur' as <- <-.
  pose proof Hrun as (Hlen & Hnd & Hidx & Hpassed).
  destruct (getCurrentPlayer_alive g ref cp Hcur) as [Hcp _].
  assert (NoDup (getAlivePlayers g).*1) as Hrefs.
  { rewrite getAlivePlayers_refs. apply (NoDup_refsOfFlags id). apply _. }
  assert (∀ t r p, t < n → t ≠ j →
                   getAlivePlayers g !! ((s + t) mod n) = Some (r, p) → r ≠ ref)
    as Hother.
  { intros t r p Ht Hne Hrp ->.
    apply Hne, (mod_shift_inj s n); [done | lia |].
    apply (NoDup_lookup _ _ _ ref Hrefs).
    - by rewrite list_lookup_fmap, Hrp.
    - by rewrite list_lookup_fmap, Hview. }
  assert (rejected (passActive (userId cp) g).2 = false) as Hacc.
  { rewrite (passActive_current (userId cp) g ref cp Hcur eq_refl).
    destruct (allOthersPassed (userId cp) g) eqn:Hall;
      [|apply rejected_passAccepted].
    exfalso. apply allOthersPassed_true in Hall as [_ Hall].
    rewrite (otherPlayers_othersAlive g ref cp Hcp Hnd) in Hall.
    destruct (Hfresh (S j) ltac:(lia) Hj) as (r & p & Hrp & Hp).
    apply Hp, (Hall (r, p)). unfold othersAlive.
    apply list_elem_of_In, filter_In. split.
    - apply list_elem_of_In. by eapply list_elem_of_lookup_2.
    - simpl. rewrite bool_decide_eq_false_2; [done|].
      by apply (Hother (S j) r p); [lia | lia |]. }
  split; [done|]. split; [by apply (passedRun_step g s j n ref cp); [|lia| |]|].
  intros t Ht Htn.
  destruct (Hfresh t ltac:(lia) Htn) as (r & p & Hrp & Hp).
  assert (r ≠ ref) as Hne by (by apply (Hother t r p); [lia | lia |]).
  destruct (passActive_by_current (userId cp) g ((s + j) mod n) ref cp)
    as (r' & p' & _ & Hform); try done.
  rewrite Hform. simpl.
  set (g' := mkGame (alter (with_lastAction (Some pass)) ref (players g))
               (potBalance g - Z.min (potBalance g) PASS_BURN)
               (Z.of_nat (((s + j) mod n + 1) mod length (getAlivePlayers g)))
               (status g) (winner g)).
  assert (alive <$> players g' = alive <$> players g) as Hflags
    by (simpl; by apply fmap_alter_keep).
  destruct (view_after_same_flags g g' _ r p Hflags Hrp) as (q & Hq & Hslot).
  exists r, q. split; [done|].
  apply list_elem_of_lookup_2, elem_of_getAlivePlayers in Hrp as [Hpl _].
  simpl in Hslot. rewrite list_lookup_alter_ne in Hslot by done. congruence.
Qed.

(** The identities along the alive view depend only on who is alive and on
    the stored identities. *)
Lemma aliveIds_same (g g' : GameState) :
  alive <$> players g' = alive <$> players g →
  userId <$> players g' = userId <$> players g →
  aliveIds g' = aliveIds g.
Proof.
  intros Hflags Hids. apply list_eq. intros i. unfold aliveIds.
  rewrite !list_lookup_fmap.
  destruct (getAlivePlayers g !! i) as [[r p]|] eqn:Hi.
  - destruct (view_after_same_flags g g' i r p Hflags Hi) as (p' & -> & Hslot).
    simpl. f_equal.
    apply list_elem_of_lookup_2, elem_of_getAlivePlayers in Hi as [Hp _].
    assert ((userId <$> players g') !! r = (userId <$> players g) !! r) as Heq
      by by rewrite Hids.
    rewrite !list_lookup_fmap, Hslot, Hp in Heq. by simplify_eq/=.
  - apply lookup_ge_None in Hi.
    rewrite <- (alive_count_same g g' Hflags) in Hi.
    apply lookup_ge_None in Hi. by rewrite Hi.
Qed.

Lemma passesWith_fresh (d : nat) :
  ∀ (g : GameState) (s j n : nat) (ids : list string),
    j + d = n - 1 → 2 ≤ n → freshRun g s j n → aliveIds g = ids →
    ∃ g',
      passesWith ((fun t => default "" (ids !! ((s + t) mod n))) <$> seq j d) g
      = Some g'
      ∧ freshRun g' s (n - 1) n
      ∧ userId <$> players g' = userId <$> players g.
Proof.
  induction d as [|d IH]; intros g s j n ids Hj Hn Hrun Hids.
  - assert (j = n - 1) as -> by lia. by exists g.
  - destruct (passedRun_current g s j n (proj1 Hrun) ltac:(lia))
      as (ref & cp & Hview & Hcur).
    destruct (freshRun_step g s j n ref cp Hrun Hn ltac:(lia) Hcur)
      as [Hacc Hnext].
    assert (default "" (ids !! ((s + j) mod n)) = userId cp) as Hhead.
    { rewrite <- Hids. unfold aliveIds. by rewrite list_lookup_fmap, Hview. }
    simpl. rewrite Hhead.
    pose proof (userIds_passActive (userId cp) g) as Hsame.
    pose proof (alive_passActive (userId cp) g) as Hflags.
    destruct (passActive (userId cp) g) as [g1 out]. simpl in *.
    rewrite Hacc.
    destruct (IH g1 s (S j) n ids) as (g' & Hrow & Hrun' & Hids'); try done.
    + lia.
    + rewrite <- Hids. by apply aliveIds_same.
    + exists g'. split; [done|]. split; [done|]. congruence.
Qed.

(** X18. From a rotation in which no alive player has passed yet (as right
    after a shot), in a game whose identities are distinct even when letter
    case is ignored, with [n] alive players ([n] at least 2): the [n - 1]
    players from the current one on, in turn order, can each pass under
    their stored identity, and all these passes are accepted; after them,
    [/pass] under the stored identity of any player of the game is refused,
    and the player whose turn it is gets "you must shoot" without any change
    to the game. *)
Theorem fresh_rotation_allows_n_minus_one_passes (game : GameState) (k : nat) :
  distinctUpToCase game →
  2 ≤ length (getAlivePlayers game) →
  currentTurnIndex game = Z.of_nat k →
  k < length (getAlivePlayers game) →
  (∀ p, p ∈ players game → alive p = true → lastAction p ≠ Some pass) →
  ∃ g',
    passesWith (turnIds game k (length (getAlivePlayers game) - 1)) game = Some g'
    ∧ (∀ uid, uid ∈ userId <$> players game →
              rejected (passActive uid g').2 = true)
    ∧ ∃ ref cp,
        getCurrentPlayer g' = Some (ref, cp)
        ∧ userId cp ∈ userId <$> players game
        ∧ passActive (userId cp) g' = (g', [MsgMustShoot]).
Proof.
  intros Hnd Hn Hidx Hk Hfresh.
  set (n := length (getAlivePlayers game)) in *.
  assert (freshRun game k 0 n) as Hrun.
  { split.
    - split; [done|]. split; [by apply distinctUpToCase_NoDup|]. split.
      + by rewrite Nat.add_0_r, Nat.mod_small.
      + intros t Ht. lia.
    - intros t _ Ht.
      destruct (lookup_lt_is_Some_2 (getAlivePlayers game) ((k + t) mod n))
        as [[r p] Hrp]; [apply Nat.mod_upper_bound; lia|].
      exists r, p. split; [done|].
      apply list_elem_of_lookup_2, elem_of_getAlivePlayers in Hrp as [Hp Ha].
      apply Hfresh; [by eapply list_elem_of_lookup_2 | done]. }
  destruct (passesWith_fresh (n - 1) game k 0 n (aliveIds game)
              ltac:(lia) Hn Hrun eq_refl)
    as (g' & Hrow & [Hrun' _] & Hids).
  destruct (passedRun_current g' k (n - 1) n Hrun' ltac:(lia))
    as (ref & cp & _ & Hcur).
  pose proof (passedRun_full g' k n ref cp Hrun' Hn Hcur) as Hmust.
  destruct (getCurrentPlayer_alive g' ref cp Hcur) as [Hcp _].
  exists g'. split; [exact Hrow|]. split.
  - intros uid Hin.
    destruct (rejected (passActive uid g').2) eqn:Hrej; [done|exfalso].
    destruct (passActive_accepted uid g' Hrej) as (ref' & cp' & Hcur' & Hid & _ & _).
    rewrite Hcur in Hcur'. injection Hcur' as <- <-.
    assert (userId cp = uid) as <-.
    { apply (stored_id_of_current g' uid ref cp); try done.
      - by apply (distinctUpToCase_same_ids game).
      - by rewrite Hids. }
    by rewrite Hmust in Hrej.
  - exists ref, cp. split; [done|]. split; [|done].
    rewrite <- Hids. apply list_elem_of_fmap. exists cp. split; [done|].
    by eapply list_elem_of_lookup_2.
Qed.


(** ** After the game is over *)

(** X19. Once a shot has ended the game of a channel, the next tip to the
    bot on that channel opens a new game from scratch: its only player is
    the tipper, alive, and its pot is the amount of that tip; nothing of the
    finished game, its pot included, is carried over. *)
Theorem tip_after_game_over_starts_afresh
    (channelId uid : string) (isDead : bool) (bot : Bot) (game : GameState)
    (event : TipEvent) :
  games bot !! channelId = Some game → status game = active →
  (shootActive uid isDead game).1.2 = true →
  tipChannelId event = channelId →
  toLowerCase (receiverAddress event) = toLowerCase (botId bot) →
  games (onShoot channelId uid isDead bot).1 !! channelId = None
  ∧ games (onTip event (onShoot channelId uid isDead bot).1).1 !! channelId
    = Some (mkGame [mkPlayer (tipUserId event) (senderAddress event) true None]
              (amount event) 0 waiting None)
  ∧ (onTip event (onShoot channelId uid isDead bot).1).2
    = [MsgJoined (tipUserId event) (amount event) 1 (amount event)].
Proof.
  intros Hg Hst Hdel Hch Hrecv.
  assert (games (onShoot channelId uid isDead bot).1 !! channelId = None
          ∧ botId (onShoot channelId uid isDead bot).1 = botId bot) as [Hgone Hid].
  { unfold onShoot. rewrite Hg, Hst. simpl.
    destruct (shootActive uid isDead game) as [[g' deleted] out].
    simpl in Hdel. subst deleted. simpl. by rewrite lookup_delete_eq. }
  split; [done|].
  set (bot' := (onShoot channelId uid isDead bot).1) in *.
  assert (resolveOrCreate (tipChannelId event) bot' = newGame) as Hnew
    by (unfold resolveOrCreate; by rewrite Hch, Hgone).
  rewrite (onTip_accept event bot').
  - rewrite Hnew, Hch. simpl. rewrite lookup_insert_eq. split; [|done].
    unfold enroll. simpl. by rewrite Z.add_0_l.
  - by rewrite Hid.
  - by rewrite Hnew.
  - rewrite Hnew. intros p Hp. by apply elem_of_nil in Hp.
Qed.

Lemma shot_reopens_passing_witness :
  allOthersPassed "B" (shootActive "A" false forcedGame).1.1 = false
  ∧ (passActive "B" (shootActive "A" false forcedGame).1.1).2 ≠ [MsgMustShoot].
Proof.
  apply (shot_reopens_passing "A" false forcedGame).
  vm_compute. reflexivity.
Defined.

Lemma at_most_n_minus_one_passes_in_a_row_witness :
  passesWith ["A"; "B"; "C"]%string poorGame = None
  ∧ passesWith ["A"; "B"; "B"; "A"]%string poorGame = None.
Proof.
  assert (distinctUpToCase poorGame) as Hnd
    by (unfold distinctUpToCase; simpl; distinct_strings).
  split.
  - apply (at_most_n_minus_one_passes_in_a_row poorGame 0).
    + exact Hnd.
    + vm_compute. lia.
    + reflexivity.
    + vm_compute. lia.
    + vm_compute. lia.
    + intros u Hu. each_element Hu; vm_compute; set_solver.
  - apply (at_most_n_minus_one_passes_in_a_row poorGame 0).
    + exact Hnd.
    + vm_compute. lia.
    + reflexivity.
    + vm_compute. lia.
    + vm_compute. lia.
    + intros u Hu. each_element Hu; vm_compute; set_solver.
Defined.

Lemma fresh_rotation_allows_n_minus_one_passes_witness :
  ∃ g',
    passesWith ["A"; "B"]%string poorGame = Some g'
    ∧ rejected (passActive "A" g').2 = true
    ∧ rejected (passActive "B" g').2 = true
    ∧ rejected (passActive "C" g').2 = true.
Proof.
  destruct (fresh_rotation_allows_n_minus_one_passes poorGame 0)
    as (g' & Hrow & Hall & _).
  - unfold distinctUpToCase. simpl. distinct_strings.
  - vm_compute. lia.
  - reflexivity.
  - vm_compute. lia.
  - intros p Hp _. each_element Hp.
  - exists g'. split; [exact Hrow|].
    repeat split; apply Hall; vm_compute; set_solver.
Defined.

Lemma tip_after_game_over_starts_afresh_witness :
  games (onTip tipFromB (onShoot "town" "A" true (botWith duelGame)).1).1
    !! "town"%string
  = Some (mkGame [mkPlayer "B" "0xb2" true None] 7 0 waiting None).
Proof.
  destruct (tip_after_game_over_starts_afresh "town" "A" true (botWith duelGame)
              duelGame tipFromB) as (_ & Hnew & _).
  - reflexivity.
  - reflexivity.
  - vm_compute. reflexivity.
  - reflexivity.
  - reflexivity.
  - exact Hnew.
Defined.
